(** * SparseMatrix-SpaceSaver: a shallow embedding of the linked-list sparse matrix

    The repository holds two C++ files, [src/matrice.cpp] (the menu driven
    program) and [src/test_matrix.cpp] (a smaller test program).  Both declare
    the structs [MatrixNode] and [RowNode] and a class [SparseMatrix].

    Modelling choices.
    - [double] is IEEE 754 binary64, which is what Rocq's primitive floats
      are; [std::abs], [<], [>=], [+], [-], [*], [/] are the primitive
      operations.  Equality of floats below is Leibniz equality, which has a
      single NaN.
    - [int] values are [Z]: the indices are only compared, the loop counter
      of [multiply] stays below a column count, and the counter of
      [countNonZero] is taken as unbounded (its overflow is undefined in C++).
    - A singly linked chain ending in [nullptr] is a [list]; a pointer to a
      node of a chain is the position of the node in the list.
    - A C++ exception is a value of [exn]: the exception class and the text
      given to its constructor.  A method that may throw after having changed
      the object returns the changed object next to the outcome. *)

From Stdlib Require Import ZArith List Bool Lia String Floats Sorted.
From Stdlib Require Import Permutation.
From Stdlib Require Finite.
Import ListNotations.

Local Open Scope Z_scope.

(** ** Structs, declared alike in both files *)

Record MatrixNode : Set := mkMatrixNode { col : Z; value : float }.

Record RowNode : Set := mkRowNode { row : Z; elements : list MatrixNode }.

Inductive exn : Set :=
| out_of_range (what : string)
| invalid_argument (what : string).

(** Outcome of a call: a value, a thrown exception, or undefined behaviour
    (a null or dangling row pointer being dereferenced). *)
Inductive result (A : Type) : Type :=
| Ok (a : A)
| Throw (e : exn)
| Undefined.
Arguments Ok {A} a.
Arguments Throw {A} e.
Arguments Undefined {A}.

Definition bind {A B : Type} (x : result A) (f : A -> result B) : result B :=
  match x with
  | Ok a => f a
  | Throw e => Throw e
  | Undefined => Undefined
  end.

Notation "x <- e1 ;; e2" := (bind e1 (fun x => e2))
  (at level 61, e1 at next level, right associativity).

(** The literal [1e-10] of the source: the nearest double, which is
    [0x1.b7cdfd9d7bdbbp-34]. *)
#[warnings="-inexact-float"]
Definition eps : float := 1e-10%float.

(** [std::abs(v) < 1e-10] *)
Definition is_zero (v : float) : bool := PrimFloat.ltb (PrimFloat.abs v) eps.

(** [std::abs(v) >= 1e-10] *)
Definition is_nonzero (v : float) : bool := PrimFloat.leb eps (PrimFloat.abs v).

(** Position of the first node of a chain that fails [p]: the place where a
    loop [while (current != nullptr && p(current)) current = current->next]
    stops. *)
Fixpoint scan {A : Type} (p : A -> bool) (l : list A) : nat :=
  match l with
  | [] => O
  | x :: tl => if p x then S (scan p tl) else O
  end.

(** Splice a new node in front of position [n] ([prev->next = newNode]);
    [n] is at most the length of the chain wherever the source does it. *)
Fixpoint splice {A : Type} (n : nat) (x : A) (l : list A) : list A :=
  match n, l with
  | O, _ => x :: l
  | S n', y :: tl => y :: splice n' x tl
  | S _, [] => [x]
  end.

(** Overwrite the node at position [n]. *)
Fixpoint store {A : Type} (n : nat) (x : A) (l : list A) : list A :=
  match n, l with
  | O, _ :: tl => x :: tl
  | S n', y :: tl => y :: store n' x tl
  | _, [] => []
  end.

(** Unlink the node at position [n] ([prev->next = current->next]). *)
Fixpoint unlink {A : Type} (n : nat) (l : list A) : list A :=
  match n, l with
  | O, _ :: tl => tl
  | S n', y :: tl => y :: unlink n' tl
  | _, [] => []
  end.

Definition is_nil {A : Type} (l : list A) : bool :=
  match l with [] => true | _ => false end.

(** Where a read-only loop
    [while (node != nullptr && p(node)) node = node->next] stops: the rest of
    the chain from that node on. *)
Fixpoint skip {A : Type} (p : A -> bool) (l : list A) : list A :=
  match l with
  | [] => []
  | x :: tl => if p x then skip p tl else l
  end.

(** The private fields of [class SparseMatrix], the same in both files. *)
Record SparseMatrix : Set := mkSparseMatrix {
  rows : Z;
  cols : Z;
  rowList : list RowNode
}.

Definition set_rowList (m : SparseMatrix) (l : list RowNode) : SparseMatrix :=
  {| rows := rows m; cols := cols m; rowList := l |}.

(** A row pointer ([RowNode*]) is [None] for [nullptr] and [Some n] for the
    node at position [n] of [rowList]. *)
Definition deref (m : SparseMatrix) (p : option nat) : option RowNode :=
  match p with
  | None => None
  | Some n => nth_error (rowList m) n
  end.

(** The node behind [p] after a callee has changed it through the pointer. *)
Definition write (m : SparseMatrix) (p : option nat) (rn : option RowNode)
  : SparseMatrix :=
  match p, rn with
  | Some n, Some x => set_rowList m (store n x (rowList m))
  | _, _ => m
  end.

(** The two nested [while] loops over the rows of a matrix and the elements
    of each row, with the loop body [f row col value] acting on a state. *)
Fixpoint for_each_col {St : Type} (f : Z -> float -> St -> result St)
  (es : list MatrixNode) (s : St) : result St :=
  match es with
  | [] => Ok s
  | e :: tl => s' <- f (col e) (value e) s ;; for_each_col f tl s'
  end.

Fixpoint for_each_row {St : Type} (f : Z -> Z -> float -> St -> result St)
  (rl : list RowNode) (s : St) : result St :=
  match rl with
  | [] => Ok s
  | rn :: tl =>
      s' <- for_each_col (f (row rn)) (elements rn) s ;; for_each_row f tl s'
  end.

(** [for (int j = 0; j < n; j++) body(j)], started at [j] with [n - j]
    rounds left. *)
Fixpoint for_j {St : Type} (fuel : nat) (j : Z) (body : Z -> St -> result St)
  (s : St) : result St :=
  match fuel with
  | O => Ok s
  | S fuel' => s' <- body j s ;; for_j fuel' (j + 1) body s'
  end.

(** Objects live at addresses; [operator=] is given two references. *)
Definition heap : Type := nat -> SparseMatrix.

Definition heap_set (h : heap) (a : nat) (m : SparseMatrix) : heap :=
  fun b => if Nat.eqb b a then m else h b.

(** ** [src/matrice.cpp] *)

Module Matrice.

(** [SparseMatrix(int r, int c)] *)
Definition construct (r c : Z) : result SparseMatrix :=
  if (r <=? 0) || (c <=? 0)
  then Throw (invalid_argument "Matrix dimensions must be positive")
  else Ok {| rows := r; cols := c; rowList := [] |}.

(** [RowNode* getRowNode(int r, bool create)]: the pointer returned and the
    matrix, which has a new empty row when one was created. *)
Definition getRowNode (m : SparseMatrix) (r : Z) (create : bool)
  : result (option nat * SparseMatrix) :=
  if (r <? 0) || (r >=? rows m)
  then Throw (out_of_range "Row index out of range")
  else
    let newRow := {| row := r; elements := [] |} in
    match rowList m with
    | [] =>
        if create then Ok (Some O, set_rowList m [newRow]) else Ok (None, m)
    | first :: _ =>
        if (row first >? r) && create
        then Ok (Some O, set_rowList m (newRow :: rowList m))
        else
          let n := scan (fun x => row x <? r) (rowList m) in
          let found :=
            match nth_error (rowList m) n with
            | Some current => row current =? r
            | None => false
            end in
          if found then Ok (Some n, m)
          else if create
               then Ok (Some n, set_rowList m (splice n newRow (rowList m)))
               else Ok (None, m)
    end.

(** [void removeFromRow(RowNode* rowNode, int c)]: the node behind
    [rowNode] afterwards. *)
Definition removeFromRow (rowNode : option RowNode) (c : Z) : option RowNode :=
  match rowNode with
  | None => None
  | Some rn =>
      match elements rn with
      | [] => Some rn
      | first :: rest =>
          if col first =? c
          then Some {| row := row rn; elements := rest |}
          else
            let n := scan (fun e => negb (col e =? c)) rest in
            Some {| row := row rn; elements := first :: unlink n rest |}
      end
  end.

(** [void insertIntoRow(RowNode* rowNode, int c, double v)]: the node behind
    [rowNode] afterwards.  [cols] is the field of the matrix. *)
Definition insertIntoRow (cols : Z) (rowNode : option RowNode) (c : Z)
  (v : float) : result (option RowNode) :=
  if (c <? 0) || (c >=? cols)
  then Throw (out_of_range "Column index out of range")
  else if is_zero v then Ok (removeFromRow rowNode c)
  else
    match rowNode with
    | None => Undefined
    | Some rn =>
        let newNode := {| col := c; value := v |} in
        match elements rn with
        | [] => Ok (Some {| row := row rn; elements := [newNode] |})
        | first :: _ =>
            if col first >? c
            then Ok (Some {| row := row rn;
                             elements := newNode :: elements rn |})
            else
              let n := scan (fun e => col e <? c) (elements rn) in
              let found :=
                match nth_error (elements rn) n with
                | Some current => col current =? c
                | None => false
                end in
              if found
              then Ok (Some {| row := row rn;
                               elements := store n newNode (elements rn) |})
              else Ok (Some {| row := row rn;
                               elements := splice n newNode (elements rn) |})
        end
    end.

(** The first loop of [cleanupEmptyRows]: drop empty rows at the head. *)
Fixpoint drop_empty_head (l : list RowNode) : list RowNode :=
  match l with
  | [] => []
  | x :: tl => if is_nil (elements x) then drop_empty_head tl else l
  end.

(** [void cleanupEmptyRows()] *)
Definition cleanupEmptyRows (m : SparseMatrix) : SparseMatrix :=
  match drop_empty_head (rowList m) with
  | [] => set_rowList m []
  | first :: rest =>
      set_rowList m
        (first :: filter (fun x => negb (is_nil (elements x))) rest)
  end.

(** [void insert(int r, int c, double v)]: the outcome and the matrix
    afterwards, also when the call throws. *)
Definition insert (m : SparseMatrix) (r c : Z) (v : float)
  : result unit * SparseMatrix :=
  if is_zero v then
    match getRowNode m r false with
    | Throw e => (Throw e, m)
    | Undefined => (Undefined, m)
    | Ok (rowNode, m1) =>
        match rowNode with
        | None => (Ok tt, m1)
        | Some _ =>
            let m2 := write m1 rowNode (removeFromRow (deref m1 rowNode) c) in
            match deref m2 rowNode with
            | Some rn =>
                if is_nil (elements rn)
                then (Ok tt, cleanupEmptyRows m2)
                else (Ok tt, m2)
            | None => (Undefined, m2)
            end
        end
    end
  else
    match getRowNode m r true with
    | Throw e => (Throw e, m)
    | Undefined => (Undefined, m)
    | Ok (rowNode, m1) =>
        match insertIntoRow (cols m1) (deref m1 rowNode) c v with
        | Ok rn => (Ok tt, write m1 rowNode rn)
        | Throw e => (Throw e, m1)
        | Undefined => (Undefined, m1)
        end
    end.

(** [result.insert(r, c, v)] on a local [result]: when it throws, the local
    is gone with the stack frame. *)
Definition insert_into (res : SparseMatrix) (r c : Z) (v : float)
  : result SparseMatrix :=
  match insert res r c v with
  | (Ok _, res') => Ok res'
  | (Throw e, _) => Throw e
  | (Undefined, _) => Undefined
  end.

(** [double get(int r, int c) const] *)
Definition get (m : SparseMatrix) (r c : Z) : result float :=
  if (r <? 0) || (r >=? rows m) || (c <? 0) || (c >=? cols m)
  then Throw (out_of_range "Index out of range")
  else
    match skip (fun x => row x <? r) (rowList m) with
    | [] => Ok 0%float
    | rowNode :: _ =>
        if negb (row rowNode =? r) then Ok 0%float
        else
          match skip (fun e => col e <? c) (elements rowNode) with
          | [] => Ok 0%float
          | colNode :: _ =>
              if negb (col colNode =? c) then Ok 0%float
              else Ok (value colNode)
          end
    end.

(** The deep copy loops shared by the copy constructor and [operator=]:
    every node is allocated anew and appended at the tail. *)
Fixpoint copy_elements (es : list MatrixNode) : list MatrixNode :=
  match es with
  | [] => []
  | e :: tl => {| col := col e; value := value e |} :: copy_elements tl
  end.

Fixpoint copy_rows (rl : list RowNode) : list RowNode :=
  match rl with
  | [] => []
  | rn :: tl =>
      {| row := row rn; elements := copy_elements (elements rn) |}
      :: copy_rows tl
  end.

(** [SparseMatrix(const SparseMatrix& other)] *)
Definition copy (other : SparseMatrix) : SparseMatrix :=
  {| rows := rows other; cols := cols other;
     rowList := copy_rows (rowList other) |}.

(** The body of [operator=] behind its guard, statement by statement, on
    the objects at the addresses [this] and [other]: the rows of [*this] are
    deleted, the fields are set from [other], and the rows of [other] are
    copied.  [other] is read from the heap after each write, so an [other]
    that is [*this] is seen as changed. *)
Definition assign_body (this other : nat) (h : heap) : heap :=
  let h1 := heap_set h this (set_rowList (h this) []) in
  let h2 := heap_set h1 this
              {| rows := rows (h1 other); cols := cols (h1 other);
                 rowList := [] |} in
  heap_set h2 this (set_rowList (h2 this) (copy_rows (rowList (h2 other)))).

(** [SparseMatrix& operator=(const SparseMatrix& other)] *)
Definition operator_assign (this other : nat) (h : heap) : heap :=
  if negb (Nat.eqb this other) then assign_body this other h else h.

(** [SparseMatrix add(const SparseMatrix& other) const] *)
Definition add (this other : SparseMatrix) : result SparseMatrix :=
  if negb (rows this =? rows other) || negb (cols this =? cols other)
  then Throw (invalid_argument "Matrix dimensions do not match for addition")
  else
    res <- construct (rows this) (cols this) ;;
    res <- for_each_row (fun r c v res => insert_into res r c v)
             (rowList this) res ;;
    for_each_row
      (fun r c v res =>
         currentValue <- get res r c ;;
         insert_into res r c (currentValue + v)%float)
      (rowList other) res.

(** [SparseMatrix subtract(const SparseMatrix& other) const] *)
Definition subtract (this other : SparseMatrix) : result SparseMatrix :=
  if negb (rows this =? rows other) || negb (cols this =? cols other)
  then Throw
         (invalid_argument "Matrix dimensions do not match for subtraction")
  else
    res <- construct (rows this) (cols this) ;;
    res <- for_each_row (fun r c v res => insert_into res r c v)
             (rowList this) res ;;
    for_each_row
      (fun r c v res =>
         currentValue <- get res r c ;;
         insert_into res r c (currentValue - v)%float)
      (rowList other) res.

(** [SparseMatrix scalarMultiply(double scalar) const] *)
Definition scalarMultiply (this : SparseMatrix) (scalar : float)
  : result SparseMatrix :=
  res <- construct (rows this) (cols this) ;;
  if is_zero scalar then Ok res
  else
    for_each_row
      (fun r c v res =>
         let newValue := (v * scalar)%float in
         if is_nonzero newValue then insert_into res r c newValue else Ok res)
      (rowList this) res.

(** The innermost loop of [multiply]: the sum over the elements of one row
    of [this] against column [j] of [other]. *)
Fixpoint row_dot (other : SparseMatrix) (j : Z) (es : list MatrixNode)
  (sum : float) : result float :=
  match es with
  | [] => Ok sum
  | colNode :: tl =>
      let k := col colNode in
      let val1 := value colNode in
      val2 <- get other k j ;;
      row_dot other j tl
        (if is_nonzero val2 then (sum + val1 * val2)%float else sum)
  end.

(** The loop of [multiply] over the rows of [this]. *)
Fixpoint multiply_rows (other : SparseMatrix) (rl : list RowNode)
  (res : SparseMatrix) : result SparseMatrix :=
  match rl with
  | [] => Ok res
  | rowNode :: tl =>
      let i := row rowNode in
      res' <- for_j (Z.to_nat (cols other)) 0
                (fun j res =>
                   sum <- row_dot other j (elements rowNode) 0%float ;;
                   if is_nonzero sum then insert_into res i j sum else Ok res)
                res ;;
      multiply_rows other tl res'
  end.

(** [SparseMatrix multiply(const SparseMatrix& other) const] *)
Definition multiply (this other : SparseMatrix) : result SparseMatrix :=
  if negb (cols this =? rows other)
  then Throw
         (invalid_argument "Matrix dimensions do not match for multiplication")
  else
    res <- construct (rows this) (cols other) ;;
    multiply_rows other (rowList this) res.

(** [SparseMatrix transpose() const] *)
Definition transpose (this : SparseMatrix) : result SparseMatrix :=
  res <- construct (cols this) (rows this) ;;
  for_each_row (fun r c v res => insert_into res c r v) (rowList this) res.

(** [double determinant() const] *)
Definition determinant (this : SparseMatrix) : result float :=
  if negb (rows this =? cols this)
  then Throw
         (invalid_argument "Matrix must be square to calculate determinant")
  else if rows this =? 1 then get this 0 0
  else if rows this =? 2 then
    g00 <- get this 0 0 ;;
    g11 <- get this 1 1 ;;
    g01 <- get this 0 1 ;;
    g10 <- get this 1 0 ;;
    Ok (g00 * g11 - g01 * g10)%float
  else if rows this =? 3 then
    a <- get this 0 0 ;;
    b <- get this 0 1 ;;
    c <- get this 0 2 ;;
    d <- get this 1 0 ;;
    e <- get this 1 1 ;;
    f <- get this 1 2 ;;
    g <- get this 2 0 ;;
    h <- get this 2 1 ;;
    i <- get this 2 2 ;;
    Ok (a * (e * i - f * h) - b * (d * i - f * g) + c * (d * h - e * g))%float
  else Throw
         (invalid_argument
            "Determinant calculation for matrices larger than 3x3 not implemented").

(** [int countNonZero() const] *)
Fixpoint countNonZero_rows (rl : list RowNode) (count : Z) : Z :=
  match rl with
  | [] => count
  | rowNode :: tl =>
      countNonZero_rows tl
        (fold_left (fun count _ => count + 1) (elements rowNode) count)
  end.

Definition countNonZero (this : SparseMatrix) : Z :=
  countNonZero_rows (rowList this) 0.

(** [SparseMatrix scalarDivide(double scalar) const] *)
Definition scalarDivide (this : SparseMatrix) (scalar : float)
  : result SparseMatrix :=
  if is_zero scalar then Throw (invalid_argument "Division by zero")
  else scalarMultiply this (1 / scalar)%float.

(** [SparseMatrix inverse() const] *)
Definition inverse (this : SparseMatrix) : result SparseMatrix :=
  if negb (rows this =? cols this)
  then Throw (invalid_argument "Matrix must be square to calculate inverse")
  else
    det <- determinant this ;;
    if is_zero det
    then Throw (invalid_argument "Matrix is singular, inverse does not exist")
    else
      res <- construct (rows this) (cols this) ;;
      if rows this =? 1 then
        g00 <- get this 0 0 ;;
        insert_into res 0 0 (1 / g00)%float
      else if rows this =? 2 then
        g11 <- get this 1 1 ;;
        res <- insert_into res 0 0 (g11 / det)%float ;;
        g01 <- get this 0 1 ;;
        res <- insert_into res 0 1 (- g01 / det)%float ;;
        g10 <- get this 1 0 ;;
        res <- insert_into res 1 0 (- g10 / det)%float ;;
        g00 <- get this 0 0 ;;
        insert_into res 1 1 (g00 / det)%float
      else if rows this =? 3 then
        a <- get this 0 0 ;;
        b <- get this 0 1 ;;
        c <- get this 0 2 ;;
        d <- get this 1 0 ;;
        e <- get this 1 1 ;;
        f <- get this 1 2 ;;
        g <- get this 2 0 ;;
        h <- get this 2 1 ;;
        i <- get this 2 2 ;;
        let cA := (e * i - f * h)%float in
        let cB := (- (d * i - f * g))%float in
        let cC := (d * h - e * g)%float in
        let cD := (- (b * i - c * h))%float in
        let cE := (a * i - c * g)%float in
        let cF := (- (a * h - b * g))%float in
        let cG := (b * f - c * e)%float in
        let cH := (- (a * f - c * d))%float in
        let cI := (a * e - b * d)%float in
        res <- insert_into res 0 0 (cA / det)%float ;;
        res <- insert_into res 0 1 (cD / det)%float ;;
        res <- insert_into res 0 2 (cG / det)%float ;;
        res <- insert_into res 1 0 (cB / det)%float ;;
        res <- insert_into res 1 1 (cE / det)%float ;;
        res <- insert_into res 1 2 (cH / det)%float ;;
        res <- insert_into res 2 0 (cC / det)%float ;;
        res <- insert_into res 2 1 (cF / det)%float ;;
        insert_into res 2 2 (cI / det)%float
      else Throw
             (invalid_argument
                "Inverse calculation for matrices larger than 3x3 not implemented").

End Matrice.

(** ** [src/test_matrix.cpp]

    The class of the test program: it has no [subtract], [scalarDivide],
    [determinant], [inverse] or [countNonZero]. *)

Module TestMatrix.

(** [SparseMatrix(int r, int c)] *)
Definition construct (r c : Z) : result SparseMatrix :=
  if (r <=? 0) || (c <=? 0)
  then Throw (invalid_argument "Matrix dimensions must be positive")
  else Ok {| rows := r; cols := c; rowList := [] |}.

(** [RowNode* getRowNode(int r, bool create)]: the pointer returned and the
    matrix, which has a new empty row when one was created. *)
Definition getRowNode (m : SparseMatrix) (r : Z) (create : bool)
  : result (option nat * SparseMatrix) :=
  if (r <? 0) || (r >=? rows m)
  then Throw (out_of_range "Row index out of range")
  else
    let newRow := {| row := r; elements := [] |} in
    match rowList m with
    | [] =>
        if create then Ok (Some O, set_rowList m [newRow]) else Ok (None, m)
    | first :: _ =>
        if (row first >? r) && create
        then Ok (Some O, set_rowList m (newRow :: rowList m))
        else
          let n := scan (fun x => row x <? r) (rowList m) in
          let found :=
            match nth_error (rowList m) n with
            | Some current => row current =? r
            | None => false
            end in
          if found then Ok (Some n, m)
          else if create
               then Ok (Some n, set_rowList m (splice n newRow (rowList m)))
               else Ok (None, m)
    end.

(** [void removeFromRow(RowNode* rowNode, int c)]: the node behind
    [rowNode] afterwards. *)
Definition removeFromRow (rowNode : option RowNode) (c : Z) : option RowNode :=
  match rowNode with
  | None => None
  | Some rn =>
      match elements rn with
      | [] => Some rn
      | first :: rest =>
          if col first =? c
          then Some {| row := row rn; elements := rest |}
          else
            let n := scan (fun e => negb (col e =? c)) rest in
            Some {| row := row rn; elements := first :: unlink n rest |}
      end
  end.

(** [void insertIntoRow(RowNode* rowNode, int c, double v)]: the node behind
    [rowNode] afterwards.  [cols] is the field of the matrix. *)
Definition insertIntoRow (cols : Z) (rowNode : option RowNode) (c : Z)
  (v : float) : result (option RowNode) :=
  if (c <? 0) || (c >=? cols)
  then Throw (out_of_range "Column index out of range")
  else if is_zero v then Ok (removeFromRow rowNode c)
  else
    match rowNode with
    | None => Undefined
    | Some rn =>
        let newNode := {| col := c; value := v |} in
        match elements rn with
        | [] => Ok (Some {| row := row rn; elements := [newNode] |})
        | first :: _ =>
            if col first >? c
            then Ok (Some {| row := row rn;
                             elements := newNode :: elements rn |})
            else
              let n := scan (fun e => col e <? c) (elements rn) in
              let found :=
                match nth_error (elements rn) n with
                | Some current => col current =? c
                | None => false
                end in
              if found
              then Ok (Some {| row := row rn;
                               elements := store n newNode (elements rn) |})
              else Ok (Some {| row := row rn;
                               elements := splice n newNode (elements rn) |})
        end
    end.

(** The first loop of [cleanupEmptyRows]: drop empty rows at the head. *)
Fixpoint drop_empty_head (l : list RowNode) : list RowNode :=
  match l with
  | [] => []
  | x :: tl => if is_nil (elements x) then drop_empty_head tl else l
  end.

(** [void cleanupEmptyRows()] *)
Definition cleanupEmptyRows (m : SparseMatrix) : SparseMatrix :=
  match drop_empty_head (rowList m) with
  | [] => set_rowList m []
  | first :: rest =>
      set_rowList m
        (first :: filter (fun x => negb (is_nil (elements x))) rest)
  end.

(** [void insert(int r, int c, double v)]: the outcome and the matrix
    afterwards, also when the call throws. *)
Definition insert (m : SparseMatrix) (r c : Z) (v : float)
  : result unit * SparseMatrix :=
  if is_zero v then
    match getRowNode m r false with
    | Throw e => (Throw e, m)
    | Undefined => (Undefined, m)
    | Ok (rowNode, m1) =>
        match rowNode with
        | None => (Ok tt, m1)
        | Some _ =>
            let m2 := write m1 rowNode (removeFromRow (deref m1 rowNode) c) in
            match deref m2 rowNode with
            | Some rn =>
                if is_nil (elements rn)
                then (Ok tt, cleanupEmptyRows m2)
                else (Ok tt, m2)
            | None => (Undefined, m2)
            end
        end
    end
  else
    match getRowNode m r true with
    | Throw e => (Throw e, m)
    | Undefined => (Undefined, m)
    | Ok (rowNode, m1) =>
        match insertIntoRow (cols m1) (deref m1 rowNode) c v with
        | Ok rn => (Ok tt, write m1 rowNode rn)
        | Throw e => (Throw e, m1)
        | Undefined => (Undefined, m1)
        end
    end.

(** [result.insert(r, c, v)] on a local [result]: when it throws, the local
    is gone with the stack frame. *)
Definition insert_into (res : SparseMatrix) (r c : Z) (v : float)
  : result SparseMatrix :=
  match insert res r c v with
  | (Ok _, res') => Ok res'
  | (Throw e, _) => Throw e
  | (Undefined, _) => Undefined
  end.

(** [double get(int r, int c) const] *)
Definition get (m : SparseMatrix) (r c : Z) : result float :=
  if (r <? 0) || (r >=? rows m) || (c <? 0) || (c >=? cols m)
  then Throw (out_of_range "Index out of range")
  else
    match skip (fun x => row x <? r) (rowList m) with
    | [] => Ok 0%float
    | rowNode :: _ =>
        if negb (row rowNode =? r) then Ok 0%float
        else
          match skip (fun e => col e <? c) (elements rowNode) with
          | [] => Ok 0%float
          | colNode :: _ =>
              if negb (col colNode =? c) then Ok 0%float
              else Ok (value colNode)
          end
    end.

(** The deep copy loops shared by the copy constructor and [operator=]:
    every node is allocated anew and appended at the tail. *)
Fixpoint copy_elements (es : list MatrixNode) : list MatrixNode :=
  match es with
  | [] => []
  | e :: tl => {| col := col e; value := value e |} :: copy_elements tl
  end.

Fixpoint copy_rows (rl : list RowNode) : list RowNode :=
  match rl with
  | [] => []
  | rn :: tl =>
      {| row := row rn; elements := copy_elements (elements rn) |}
      :: copy_rows tl
  end.

(** [SparseMatrix(const SparseMatrix& other)] *)
Definition copy (other : SparseMatrix) : SparseMatrix :=
  {| rows := rows other; cols := cols other;
     rowList := copy_rows (rowList other) |}.

(** The body of [operator=] behind its guard, statement by statement, on
    the objects at the addresses [this] and [other]: the rows of [*this] are
    deleted, the fields are set from [other], and the rows of [other] are
    copied.  [other] is read from the heap after each write, so an [other]
    that is [*this] is seen as changed. *)
Definition assign_body (this other : nat) (h : heap) : heap :=
  let h1 := heap_set h this (set_rowList (h this) []) in
  let h2 := heap_set h1 this
              {| rows := rows (h1 other); cols := cols (h1 other);
                 rowList := [] |} in
  heap_set h2 this (set_rowList (h2 this) (copy_rows (rowList (h2 other)))).

(** [SparseMatrix& operator=(const SparseMatrix& other)] *)
Definition operator_assign (this other : nat) (h : heap) : heap :=
  if negb (Nat.eqb this other) then assign_body this other h else h.

(** [SparseMatrix add(const SparseMatrix& other) const] *)
Definition add (this other : SparseMatrix) : result SparseMatrix :=
  if negb (rows this =? rows other) || negb (cols this =? cols other)
  then Throw (invalid_argument "Matrix dimensions do not match for addition")
  else
    res <- construct (rows this) (cols this) ;;
    res <- for_each_row (fun r c v res => insert_into res r c v)
             (rowList this) res ;;
    for_each_row
      (fun r c v res =>
         currentValue <- get res r c ;;
         insert_into res r c (currentValue + v)%float)
      (rowList other) res.

(** [SparseMatrix scalarMultiply(double scalar) const] *)
Definition scalarMultiply (this : SparseMatrix) (scalar : float)
  : result SparseMatrix :=
  res <- construct (rows this) (cols this) ;;
  if is_zero scalar then Ok res
  else
    for_each_row
      (fun r c v res =>
         let newValue := (v * scalar)%float in
         if is_nonzero newValue then insert_into res r c newValue else Ok res)
      (rowList this) res.

(** The innermost loop of [multiply]: the sum over the elements of one row
    of [this] against column [j] of [other]. *)
Fixpoint row_dot (other : SparseMatrix) (j : Z) (es : list MatrixNode)
  (sum : float) : result float :=
  match es with
  | [] => Ok sum
  | colNode :: tl =>
      let k := col colNode in
      let val1 := value colNode in
      val2 <- get other k j ;;
      row_dot other j tl
        (if is_nonzero val2 then (sum + val1 * val2)%float else sum)
  end.

(** The loop of [multiply] over the rows of [this]. *)
Fixpoint multiply_rows (other : SparseMatrix) (rl : list RowNode)
  (res : SparseMatrix) : result SparseMatrix :=
  match rl with
  | [] => Ok res
  | rowNode :: tl =>
      let i := row rowNode in
      res' <- for_j (Z.to_nat (cols other)) 0
                (fun j res =>
                   sum <- row_dot other j (elements rowNode) 0%float ;;
                   if is_nonzero sum then insert_into res i j sum else Ok res)
                res ;;
      multiply_rows other tl res'
  end.

(** [SparseMatrix multiply(const SparseMatrix& other) const] *)
Definition multiply (this other : SparseMatrix) : result SparseMatrix :=
  if negb (cols this =? rows other)
  then Throw
         (invalid_argument "Matrix dimensions do not match for multiplication")
  else
    res <- construct (rows this) (cols other) ;;
    multiply_rows other (rowList this) res.

(** [SparseMatrix transpose() const] *)
Definition transpose (this : SparseMatrix) : result SparseMatrix :=
  res <- construct (cols this) (rows this) ;;
  for_each_row (fun r c v res => insert_into res c r v) (rowList this) res.

End TestMatrix.

(** ** [readMatrix] of [src/matrice.cpp]

    The function reads from [std::cin] and prompts on [std::cout].  Here
    [rows] and [cols] are the two integers it reads first and [input] the
    doubles that [std::cin] yields after them, in order; the prompts are
    left out.  A read that finds no double left sets the stream's fail bit
    and later reads leave [value] uninitialised: that is [Undefined]. *)

(** One round of the inner loop: [std::cin >> value] and the guarded
    [matrix.insert(i, j, value)]. *)
Definition read_element (i j : Z) (st : SparseMatrix * list float)
  : result (SparseMatrix * list float) :=
  match snd st with
  | [] => Undefined
  | value :: rest =>
      if is_nonzero value
      then matrix <- Matrice.insert_into (fst st) i j value ;;
           Ok (matrix, rest)
      else Ok (fst st, rest)
  end.

(** [SparseMatrix readMatrix()] *)
Definition readMatrix (rows cols : Z) (input : list float)
  : result SparseMatrix :=
  if (rows <=? 0) || (cols <=? 0)
  then Throw (invalid_argument "Dimensions must be positive")
  else
    matrix <- Matrice.construct rows cols ;;
    st <- for_j (Z.to_nat rows) 0
            (fun i st => for_j (Z.to_nat cols) 0 (read_element i) st)
            (matrix, input) ;;
    Ok (fst st).

(** ** Invariants and views of the storage *)

(** Strictly ascending, which also says that no key occurs twice. *)
Fixpoint ascending (ks : list Z) : bool :=
  match ks with
  | [] => true
  | k :: tl =>
      match tl with
      | [] => true
      | k' :: _ => (k <? k') && ascending tl
      end
  end.

Definition elem_ok (cls : Z) (e : MatrixNode) : bool :=
  (0 <=? col e) && (col e <? cls) && negb (is_zero (value e)).

Definition row_ok (rws cls : Z) (rn : RowNode) : bool :=
  (0 <=? row rn) && (row rn <? rws)
  && ascending (map col (elements rn))
  && forallb (elem_ok cls) (elements rn).

(** The invariant of the data model in the spec, without the ban on empty
    rows: positive dimensions, rows ascending and in range, and in every row
    columns ascending and in range and no stored value below the threshold. *)
Definition wf (m : SparseMatrix) : bool :=
  (0 <? rows m) && (0 <? cols m)
  && ascending (map row (rowList m))
  && forallb (row_ok (rows m) (cols m)) (rowList m).

(** No stored row has an empty element chain. *)
Definition no_empty_row (m : SparseMatrix) : bool :=
  forallb (fun rn => negb (is_nil (elements rn))) (rowList m).

(** The chain of a row after a nonzero [insertIntoRow]. *)
Fixpoint ins_elem (c : Z) (v : float) (es : list MatrixNode)
  : list MatrixNode :=
  match es with
  | [] => [{| col := c; value := v |}]
  | e :: tl =>
      if col e <? c then e :: ins_elem c v tl
      else if col e =? c then {| col := c; value := v |} :: tl
      else {| col := c; value := v |} :: es
  end.

(** The chain of a row after [removeFromRow]. *)
Fixpoint del_elem (c : Z) (es : list MatrixNode) : list MatrixNode :=
  match es with
  | [] => []
  | e :: tl => if col e =? c then tl else e :: del_elem c tl
  end.

(** The row chain after [getRowNode(r, true)]. *)
Fixpoint ins_row (r : Z) (l : list RowNode) : list RowNode :=
  match l with
  | [] => [{| row := r; elements := [] |}]
  | x :: tl =>
      if row x <? r then x :: ins_row r tl
      else if row x =? r then l
      else {| row := r; elements := [] |} :: l
  end.

(** The row chain after a nonzero [insert] with both indices in range. *)
Fixpoint upsert (r c : Z) (v : float) (l : list RowNode) : list RowNode :=
  match l with
  | [] => [{| row := r; elements := [{| col := c; value := v |}] |}]
  | x :: tl =>
      if row x <? r then x :: upsert r c v tl
      else if row x =? r
           then {| row := row x; elements := ins_elem c v (elements x) |} :: tl
           else {| row := r; elements := [{| col := c; value := v |}] |} :: l
  end.

(** The row chain after the [removeFromRow] of a zero [insert], before the
    empty rows are cleaned up. *)
Fixpoint del_at (r c : Z) (l : list RowNode) : list RowNode :=
  match l with
  | [] => []
  | x :: tl =>
      if row x <? r then x :: del_at r c tl
      else if row x =? r
           then {| row := row x; elements := del_elem c (elements x) |} :: tl
           else l
  end.

Definition nonempty (rn : RowNode) : bool := negb (is_nil (elements rn)).

(** The stored value of a column in a row chain, found the way [get] scans. *)
Definition lookup_elem (c : Z) (es : list MatrixNode) : option float :=
  match skip (fun e => col e <? c) es with
  | [] => None
  | colNode :: _ => if col colNode =? c then Some (value colNode) else None
  end.

(** The stored value of a cell, found the way [get] scans. *)
Definition lookup (l : list RowNode) (r c : Z) : option float :=
  match skip (fun x => row x <? r) l with
  | [] => None
  | rowNode :: _ =>
      if row rowNode =? r then lookup_elem c (elements rowNode) else None
  end.

Definition cell (m : SparseMatrix) (r c : Z) : option float :=
  lookup (rowList m) r c.

(** What [get] returns for a cell: the stored value, or [0.0]. *)
Definition val (o : option float) : float :=
  match o with
  | Some v => v
  | None => 0%float
  end.

(** What a cell holds after [insert] was given [v]. *)
Definition norm (v : float) : option float :=
  if is_zero v then None else Some v.

(** The stored elements in traversal order, as (row, column, value). *)
Definition triples (l : list RowNode) : list (Z * Z * float) :=
  flat_map (fun rn => map (fun e => (row rn, col e, value e)) (elements rn)) l.

Definition key (t : Z * Z * float) : Z * Z := fst t.

Definition swap (t : Z * Z * float) : Z * Z * float :=
  match t with (r, c, v) => (c, r, v) end.

(** The order of the traversal: by row, then by column. *)
Definition key_lt (s t : Z * Z * float) : Prop :=
  fst (key s) < fst (key t)
  \/ (fst (key s) = fst (key t) /\ snd (key s) < snd (key t)).

Fixpoint find_triple (r c : Z) (ts : list (Z * Z * float)) : option float :=
  match ts with
  | [] => None
  | (r', c', v) :: tl =>
      if (r' =? r) && (c' =? c) then Some v else find_triple r c tl
  end.

(** The two nested loops as one loop over the stored elements. *)
Fixpoint for_each_triple {St : Type} (f : Z -> Z -> float -> St -> result St)
  (ts : list (Z * Z * float)) (s : St) : result St :=
  match ts with
  | [] => Ok s
  | (r, c, v) :: tl => s' <- f r c v s ;; for_each_triple f tl s'
  end.

(** A caller that goes on after a failing [insert]: the matrix after a
    sequence of calls, whatever each of them returned. *)
Fixpoint run_inserts (ops : list (Z * Z * float)) (m : SparseMatrix)
  : SparseMatrix :=
  match ops with
  | [] => m
  | (r, c, v) :: tl => run_inserts tl (snd (Matrice.insert m r c v))
  end.

(** The test of a zero [insert] after its [removeFromRow]: the row it
    looked up is there and has no element left. *)
Definition emptied (r : Z) (l : list RowNode) : bool :=
  match skip (fun x => row x <? r) l with
  | [] => false
  | rowNode :: _ => (row rowNode =? r) && is_nil (elements rowNode)
  end.

(** The row chain read back from a traversal: consecutive elements of one
    row index form one row. *)
Definition cons_triple (t : Z * Z * float) (acc : list RowNode)
  : list RowNode :=
  match t with
  | (r, c, v) =>
      let e := {| col := c; value := v |} in
      match acc with
      | [] => [{| row := r; elements := [e] |}]
      | x :: rest =>
          if row x =? r
          then {| row := r; elements := e :: elements x |} :: rest
          else {| row := r; elements := [e] |} :: acc
      end
  end.

Definition rebuild (ts : list (Z * Z * float)) : list RowNode :=
  fold_right cons_triple [] ts.

(** What a cell holds after a sequence of [insert] calls that all have
    their indices in range, given what it held before: the last call made
    on the cell decides. *)
Fixpoint written (r c : Z) (ops : list (Z * Z * float)) (held : option float)
  : option float :=
  match ops with
  | [] => held
  | (r', c', v) :: tl =>
      written r c tl (if (r' =? r) && (c' =? c) then norm v else held)
  end.

Definition in_bounds (m : SparseMatrix) (r c : Z) : Prop :=
  0 <= r < rows m /\ 0 <= c < cols m.

(** The elements of the stored row with index [i], found the way [get]
    scans; none when no such row is stored. *)
Definition row_elements (l : list RowNode) (i : Z) : list MatrixNode :=
  match skip (fun x => row x <? i) l with
  | [] => []
  | rowNode :: _ => if row rowNode =? i then elements rowNode else []
  end.

(** The sum that [row_dot] returns when its reads of [other] are in
    range. *)
Fixpoint dot (other : SparseMatrix) (j : Z) (es : list MatrixNode)
  (sum : float) : float :=
  match es with
  | [] => sum
  | colNode :: tl =>
      let val2 := val (cell other (col colNode) j) in
      dot other j tl
        (if is_nonzero val2 then (sum + value colNode * val2)%float else sum)
  end.

(** What [get] returns for a cell after [insert] was given [x]. *)
Definition suppress (x : float) : float :=
  if is_zero x then 0%float else x.

(** Of a run of [insert] calls at different cells, those that leave a
    stored element: the calls whose value is not below the threshold. *)
Definition kept (ts : list (Z * Z * float)) : list (Z * Z * float) :=
  filter (fun t => negb (is_zero (snd t))) ts.

(** ** Concrete matrices *)

(** A fresh 2x2 matrix, [SparseMatrix m(2, 2)]. *)
Definition m22 : SparseMatrix := {| rows := 2; cols := 2; rowList := [] |}.

(** [[1, 2], [3, 4]] and [[5, 6], [7, 8]], the matrices of [runTests]. *)
Definition M1 : SparseMatrix :=
  {| rows := 2; cols := 2;
     rowList :=
       [ {| row := 0;
            elements := [ {| col := 0; value := 1 |};
                          {| col := 1; value := 2 |} ] |};
         {| row := 1;
            elements := [ {| col := 0; value := 3 |};
                          {| col := 1; value := 4 |} ] |} ] |}.

Definition M2 : SparseMatrix :=
  {| rows := 2; cols := 2;
     rowList :=
       [ {| row := 0;
            elements := [ {| col := 0; value := 5 |};
                          {| col := 1; value := 6 |} ] |};
         {| row := 1;
            elements := [ {| col := 0; value := 7 |};
                          {| col := 1; value := 8 |} ] |} ] |}.

(** The 3x3 matrix [m1] of [src/test_matrix.cpp]. *)
Definition T1 : SparseMatrix :=
  {| rows := 3; cols := 3;
     rowList :=
       [ {| row := 0;
            elements := [ {| col := 0; value := 1 |};
                          {| col := 2; value := 2 |} ] |};
         {| row := 2; elements := [ {| col := 1; value := 3 |} ] |} ] |}.

(** 1x1 matrices holding [1.0] and [1.0 + 2^-40]. *)
Definition one11 : SparseMatrix :=
  {| rows := 1; cols := 1;
     rowList := [ {| row := 0; elements := [ {| col := 0; value := 1 |} ] |} ]
  |}.

Definition near_one11 : SparseMatrix :=
  {| rows := 1; cols := 1;
     rowList :=
       [ {| row := 0;
            elements := [ {| col := 0; value := 0x1.0000000001p+0 |} ] |} ]
  |}.

(** A heap with [M1] at address 0 and [M2] elsewhere. *)
Definition heap12 : heap := fun a => if Nat.eqb a 0 then M1 else M2.

(** Calls that a caller may make on a fresh 2x2 matrix: stores, a store
    that fails on its column, an overwrite, zero stores that remove, and a
    call that fails on its row. *)
Definition ops22 : list (Z * Z * float) :=
  [ (1, 1, 4%float); (0, 5, 1%float); (1, 0, 3%float); (0, 1, 2%float);
    (1, 1, 0%float); (0, 0, 1%float); (0, 1, 7%float); (2, 0, 1%float);
    (1, 0, 0%float) ].

(** Calls with every index inside a 2x2 matrix: stores, an overwrite and a
    zero store that removes. *)
Definition ops_in22 : list (Z * Z * float) :=
  [ (1, 1, 4%float); (0, 1, 2%float); (1, 1, 9%float); (0, 1, 0%float);
    (1, 0, 3%float) ].

(** A 2x2 matrix after [insert(0, 5, 1.0)] has thrown: row 0 is stored and
    empty. *)
Definition E22 : SparseMatrix :=
  {| rows := 2; cols := 2; rowList := [ {| row := 0; elements := [] |} ] |}.

(** A 2x2 matrix holding [1e20] and [3.0]. *)
Definition big22 : SparseMatrix :=
  {| rows := 2; cols := 2;
     rowList :=
       [ {| row := 0; elements := [ {| col := 0; value := 1e20 |} ] |};
         {| row := 1; elements := [ {| col := 1; value := 3 |} ] |} ] |}.

(** [[1, 2], [2, 4]], of determinant [0.0]. *)
Definition S22 : SparseMatrix :=
  {| rows := 2; cols := 2;
     rowList :=
       [ {| row := 0;
            elements := [ {| col := 0; value := 1 |};
                          {| col := 1; value := 2 |} ] |};
         {| row := 1;
            elements := [ {| col := 0; value := 2 |};
                          {| col := 1; value := 4 |} ] |} ] |}.

(** A 3x3 matrix with a zero on the diagonal:
    [[2, 0, 1], [0, 0, 3], [4, 5, 0]]. *)
Definition M3 : SparseMatrix :=
  {| rows := 3; cols := 3;
     rowList :=
       [ {| row := 0;
            elements := [ {| col := 0; value := 2 |};
                          {| col := 2; value := 1 |} ] |};
         {| row := 1; elements := [ {| col := 2; value := 3 |} ] |};
         {| row := 2;
            elements := [ {| col := 0; value := 4 |};
                          {| col := 1; value := 5 |} ] |} ] |}.

(** * Proofs *)

(** ** Facts about [double] *)

Lemma Prim2SF_zero : Prim2SF 0%float = S754_zero false.
Proof. reflexivity. Qed.

Lemma is_zero_SF (v : float) :
  is_zero v = SFltb (SFabs (Prim2SF v)) (Prim2SF eps).
Proof. unfold is_zero. now rewrite ltb_spec, abs_spec. Qed.

Lemma is_zero_signed_zero (v : float) (s : bool) :
  Prim2SF v = S754_zero s -> is_zero v = true.
Proof. intros H. rewrite is_zero_SF, H. reflexivity. Qed.

Lemma is_nonzero_SF (v : float) :
  is_nonzero v = SFleb (Prim2SF eps) (SFabs (Prim2SF v)).
Proof. unfold is_nonzero. now rewrite leb_spec, abs_spec. Qed.

Lemma is_nan_SF (v : float) :
  PrimFloat.is_nan v = true <-> Prim2SF v = S754_nan.
Proof.
  split.
  - intros H. unfold Prim2SF. now rewrite H.
  - intros H. unfold PrimFloat.is_nan. now rewrite eqb_spec, H.
Qed.

(** The test [std::abs(v) >= 1e-10] is the negation of
    [std::abs(v) < 1e-10] for every double but NaN, for which both are
    false. *)
Lemma store_test (v : float) :
  is_nonzero v || PrimFloat.is_nan v = negb (is_zero v).
Proof.
  assert (He : exists m0 e0, Prim2SF eps = S754_finite false m0 e0)
    by (vm_compute; eauto).
  destruct He as (m0 & e0 & He).
  destruct (PrimFloat.is_nan v) eqn:Hn.
  - apply is_nan_SF in Hn. rewrite is_zero_SF, Hn, orb_true_r. reflexivity.
  - rewrite orb_false_r, is_zero_SF, is_nonzero_SF, He.
    destruct (Prim2SF v) as [s | s | | s m e] eqn:E; simpl SFabs;
      try reflexivity.
    + exfalso. apply is_nan_SF in E. congruence.
    + unfold SFleb, SFltb, SFcompare.
      rewrite (Z.compare_antisym e e0).
      destruct (e ?= e0) eqn:Hc; simpl; try reflexivity.
      assert (Ha : Pos.compare_cont Eq m0 m
                   = CompOpp (Pos.compare_cont Eq m m0))
        by (symmetry; apply (Pos.compare_cont_antisym m m0 Eq)).
      rewrite Ha. now destruct (Pos.compare_cont Eq m m0).
Qed.

(** [0.0 + v] is [v] for every [v] that [insert] stores. *)
Lemma add_zero_l (v : float) : is_zero v = false -> (0 + v)%float = v.
Proof.
  intros H. apply Prim2SF_inj. rewrite add_spec, Prim2SF_zero.
  destruct (Prim2SF v) as [s | s | | s m e] eqn:E; try reflexivity.
  rewrite (is_zero_signed_zero v s E) in H. discriminate.
Qed.

(** [v - 0.0] is [v] for every double. *)
Lemma sub_zero_r (v : float) : (v - 0)%float = v.
Proof.
  apply Prim2SF_inj. rewrite sub_spec, Prim2SF_zero.
  destruct (Prim2SF v) as [[|] | s | | s m e]; reflexivity.
Qed.

Lemma SFadd_comm (prec emax : Z) (x y : spec_float) :
  SFadd prec emax x y = SFadd prec emax y x.
Proof.
  destruct x as [[|] | [|] | | sx mx ex], y as [[|] | [|] | | sy my ey];
    try reflexivity.
  unfold SFadd. rewrite (Z.min_comm ex ey). f_equal. apply Z.add_comm.
Qed.

(** Addition of doubles is commutative. *)
Lemma float_add_comm (x y : float) : (x + y)%float = (y + x)%float.
Proof.
  apply Prim2SF_inj. rewrite !add_spec. apply SFadd_comm.
Qed.

(** ** The loops of the source as structural recursion *)

Lemma set_rowList_same (m : SparseMatrix) : set_rowList m (rowList m) = m.
Proof. now destruct m. Qed.

Lemma if_cons {A : Type} (b : bool) (x : A) (l1 l2 : list A) :
  (if b then x :: l1 else x :: l2) = x :: (if b then l1 else l2).
Proof. now destruct b. Qed.

Lemma scan_ins_elem (c : Z) (v : float) (es : list MatrixNode) :
  (let n := scan (fun e => col e <? c) es in
   if match nth_error es n with
      | Some current => col current =? c
      | None => false
      end
   then store n {| col := c; value := v |} es
   else splice n {| col := c; value := v |} es) = ins_elem c v es.
Proof.
  induction es as [| e tl IH]; simpl; [reflexivity |].
  destruct (col e <? c) eqn:Hlt; simpl.
  - rewrite if_cons. f_equal. exact IH.
  - now destruct (col e =? c).
Qed.

Lemma unlink_scan (c : Z) (es : list MatrixNode) :
  unlink (scan (fun e => negb (col e =? c)) es) es = del_elem c es.
Proof.
  induction es as [| e tl IH]; simpl; [reflexivity |].
  destruct (col e =? c); simpl; [reflexivity | now rewrite IH].
Qed.

Lemma removeFromRow_eq (rn : RowNode) (c : Z) :
  Matrice.removeFromRow (Some rn) c
  = Some {| row := row rn; elements := del_elem c (elements rn) |}.
Proof.
  unfold Matrice.removeFromRow. destruct rn as [r es]; simpl.
  destruct es as [| first rest]; simpl; [reflexivity |].
  destruct (col first =? c); [reflexivity |].
  now rewrite unlink_scan.
Qed.

Lemma insertIntoRow_eq (cls : Z) (rn : RowNode) (c : Z) (v : float) :
  is_zero v = false ->
  Matrice.insertIntoRow cls (Some rn) c v
  = if (c <? 0) || (c >=? cls)
    then Throw (out_of_range "Column index out of range")
    else Ok (Some {| row := row rn;
                     elements := ins_elem c v (elements rn) |}).
Proof.
  intros Hv. unfold Matrice.insertIntoRow. rewrite Hv.
  destruct ((c <? 0) || (c >=? cls)); [reflexivity |].
  rewrite <- (scan_ins_elem c v (elements rn)). cbv zeta.
  destruct (elements rn) as [| first rest] eqn:E; [reflexivity |].
  destruct (col first >? c) eqn:Hgt;
    [| now destruct (match nth_error (first :: rest) _ with
                     | Some _ => _ | None => _ end)].
  rewrite Z.gtb_ltb in Hgt. apply Z.ltb_lt in Hgt. simpl.
  destruct (col first <? c) eqn:H1; [apply Z.ltb_lt in H1; lia |].
  destruct (col first =? c) eqn:H2; [apply Z.eqb_eq in H2; lia |].
  simpl. now rewrite H2.
Qed.

Lemma scan_ins_row (r : Z) (l : list RowNode) :
  (let n := scan (fun x => row x <? r) l in
   if match nth_error l n with
      | Some current => row current =? r
      | None => false
      end
   then l
   else splice n {| row := r; elements := [] |} l) = ins_row r l.
Proof.
  induction l as [| x tl IH]; simpl; [reflexivity |].
  destruct (row x <? r) eqn:Hlt; simpl.
  - rewrite <- IH. simpl.
    now destruct (match nth_error tl _ with Some _ => _ | None => _ end).
  - now destruct (row x =? r).
Qed.

Lemma getRowNode_range (m : SparseMatrix) (r : Z) (create : bool) :
  (r <? 0) || (r >=? rows m) = true ->
  Matrice.getRowNode m r create
  = Throw (out_of_range "Row index out of range").
Proof. intros H. unfold Matrice.getRowNode. now rewrite H. Qed.

Lemma getRowNode_create (m : SparseMatrix) (r : Z) :
  (r <? 0) || (r >=? rows m) = false ->
  Matrice.getRowNode m r true
  = Ok (Some (scan (fun x => row x <? r) (rowList m)),
        set_rowList m (ins_row r (rowList m))).
Proof.
  intros H. unfold Matrice.getRowNode. rewrite H.
  destruct (rowList m) as [| first rest] eqn:E; [reflexivity |].
  rewrite andb_true_r.
  destruct (row first >? r) eqn:Hgt.
  - rewrite Z.gtb_ltb in Hgt. apply Z.ltb_lt in Hgt. simpl.
    destruct (row first <? r) eqn:H1; [apply Z.ltb_lt in H1; lia |].
    destruct (row first =? r) eqn:H2; [apply Z.eqb_eq in H2; lia |].
    reflexivity.
  - rewrite <- (scan_ins_row r (first :: rest)). cbv zeta.
    destruct (match nth_error (first :: rest) _ with
              | Some _ => _ | None => _ end); [| reflexivity].
    now rewrite <- E, set_rowList_same.
Qed.

Lemma getRowNode_find (m : SparseMatrix) (r : Z) :
  (r <? 0) || (r >=? rows m) = false ->
  Matrice.getRowNode m r false
  = Ok (let n := scan (fun x => row x <? r) (rowList m) in
        if match nth_error (rowList m) n with
           | Some current => row current =? r
           | None => false
           end
        then Some n else None, m).
Proof.
  intros H. unfold Matrice.getRowNode. rewrite H.
  destruct (rowList m) as [| first rest] eqn:E; [reflexivity |].
  rewrite andb_false_r. cbv zeta.
  now destruct (match nth_error (first :: rest) _ with
                | Some _ => _ | None => _ end).
Qed.

Lemma drop_empty_head_filter (l : list RowNode) :
  match Matrice.drop_empty_head l with
  | [] => []
  | first :: rest => first :: filter nonempty rest
  end = filter nonempty l.
Proof.
  induction l as [| x tl IH]; simpl; [reflexivity |].
  unfold nonempty at 2. destruct (is_nil (elements x)); simpl; [exact IH |].
  reflexivity.
Qed.

Lemma cleanupEmptyRows_eq (m : SparseMatrix) :
  Matrice.cleanupEmptyRows m = set_rowList m (filter nonempty (rowList m)).
Proof.
  unfold Matrice.cleanupEmptyRows. rewrite <- drop_empty_head_filter.
  now destruct (Matrice.drop_empty_head (rowList m)).
Qed.

Lemma store_ins_row (r c : Z) (v : float) (l : list RowNode) :
  exists rn,
    nth_error (ins_row r l) (scan (fun x => row x <? r) l) = Some rn
    /\ store (scan (fun x => row x <? r) l)
         {| row := row rn; elements := ins_elem c v (elements rn) |}
         (ins_row r l)
       = upsert r c v l.
Proof.
  induction l as [| x tl (rn & Hn & Hs)]; simpl.
  - eexists; split; reflexivity.
  - destruct (row x <? r) eqn:Hlt; simpl.
    + exists rn. split; [exact Hn | now rewrite Hs].
    + destruct (row x =? r); eexists; split; reflexivity.
Qed.

Lemma del_at_scan (r c : Z) (l : list RowNode) :
  let n := scan (fun x => row x <? r) l in
  match nth_error l n with
  | Some rn =>
      if row rn =? r
      then
        let rn' := {| row := row rn; elements := del_elem c (elements rn) |} in
        store n rn' l = del_at r c l
        /\ nth_error (del_at r c l) n = Some rn'
        /\ emptied r (del_at r c l) = is_nil (elements rn')
      else del_at r c l = l /\ emptied r l = false
  | None => del_at r c l = l /\ emptied r l = false
  end.
Proof.
  induction l as [| x tl IH]; simpl; [now split |].
  unfold emptied. simpl.
  destruct (row x <? r) eqn:Hlt; simpl.
  - rewrite Hlt. cbv zeta in IH. unfold emptied in IH.
    destruct (nth_error tl _) as [rn |]; [destruct (row rn =? r) |].
    + destruct IH as (H1 & H2 & H3). now rewrite H1, H2, H3.
    + destruct IH as (H1 & H2). now rewrite H1, H2.
    + destruct IH as (H1 & H2). now rewrite H1, H2.
  - destruct (row x =? r) eqn:Heq; simpl; rewrite ?Hlt; simpl; rewrite ?Heq;
      now repeat split.
Qed.

Lemma insert_row_range (m : SparseMatrix) (r c : Z) (v : float) :
  (r <? 0) || (r >=? rows m) = true ->
  Matrice.insert m r c v
  = (Throw (out_of_range "Row index out of range"), m).
Proof.
  intros H. unfold Matrice.insert. rewrite !getRowNode_range by exact H.
  now destruct (is_zero v).
Qed.

Lemma insert_nonzero (m : SparseMatrix) (r c : Z) (v : float) :
  is_zero v = false ->
  (r <? 0) || (r >=? rows m) = false ->
  Matrice.insert m r c v
  = if (c <? 0) || (c >=? cols m)
    then (Throw (out_of_range "Column index out of range"),
          set_rowList m (ins_row r (rowList m)))
    else (Ok tt, set_rowList m (upsert r c v (rowList m))).
Proof.
  intros Hv Hr. unfold Matrice.insert. rewrite Hv, getRowNode_create by exact Hr.
  destruct (store_ins_row r c v (rowList m)) as (rn & Hn & Hs).
  unfold deref. simpl rowList. rewrite Hn, insertIntoRow_eq by exact Hv.
  simpl cols. destruct ((c <? 0) || (c >=? cols m)); [reflexivity |].
  unfold write, set_rowList. simpl. now rewrite Hs.
Qed.

Lemma insert_zero (m : SparseMatrix) (r c : Z) (v : float) :
  is_zero v = true ->
  (r <? 0) || (r >=? rows m) = false ->
  Matrice.insert m r c v
  = (Ok tt,
     set_rowList m
       (let l1 := del_at r c (rowList m) in
        if emptied r l1 then filter nonempty l1 else l1)).
Proof.
  intros Hv Hr. unfold Matrice.insert. rewrite Hv, getRowNode_find by exact Hr.
  pose proof (del_at_scan r c (rowList m)) as H. cbv zeta in *.
  destruct (nth_error (rowList m) _) as [rn |] eqn:Hn;
    [destruct (row rn =? r) eqn:Hrow |].
  - destruct H as (H1 & H2 & H3). unfold deref, write. rewrite Hn.
    rewrite removeFromRow_eq, H1. simpl rowList. rewrite H2, H3.
    simpl elements.
    destruct (is_nil (del_elem c (elements rn))); [| reflexivity].
    now rewrite cleanupEmptyRows_eq.
  - destruct H as (H1 & H2). now rewrite H1, H2, set_rowList_same.
  - destruct H as (H1 & H2). now rewrite H1, H2, set_rowList_same.
Qed.

(** ** The ordering invariant *)

Lemma ascending_cons (k : Z) (tl : list Z) :
  ascending (k :: tl) = true <-> Forall (Z.lt k) tl /\ ascending tl = true.
Proof.
  revert k. induction tl as [| k' tl IH]; intros k.
  - simpl. split; auto.
  - change (ascending (k :: k' :: tl))
      with ((k <? k') && ascending (k' :: tl)).
    rewrite andb_true_iff, Z.ltb_lt. split.
    + intros [H1 H2]. split; [| exact H2]. constructor; [exact H1 |].
      apply IH in H2 as [H3 _].
      eapply Forall_impl; [| exact H3]. simpl. intros; lia.
    + intros [H1 H2]. inversion H1; subst. split; assumption.
Qed.

Lemma ascending_spec (ks : list Z) :
  ascending ks = true <-> StronglySorted Z.lt ks.
Proof.
  induction ks as [| k tl IH].
  - split; [constructor | reflexivity].
  - rewrite ascending_cons, IH. split.
    + intros [H1 H2]. now constructor.
    + intros H. inversion H; subst. now split.
Qed.

Lemma ascending_NoDup (ks : list Z) : ascending ks = true -> NoDup ks.
Proof.
  induction ks as [| k tl IH]; intros H; [constructor |].
  apply ascending_cons in H as [H1 H2]. constructor; [| auto].
  intros Hin. rewrite Forall_forall in H1. specialize (H1 k Hin). lia.
Qed.

Lemma ascending_keys {A : Type} (f : A -> Z) (x : A) (tl : list A) :
  ascending (map f (x :: tl)) = true
  <-> Forall (fun y => f x < f y) tl /\ ascending (map f tl) = true.
Proof. simpl map. now rewrite ascending_cons, Forall_map. Qed.

Lemma ascending_filter {A : Type} (f : A -> Z) (p : A -> bool) (l : list A) :
  ascending (map f l) = true -> ascending (map f (filter p l)) = true.
Proof.
  induction l as [| x tl IH]; intros H; [reflexivity |].
  apply ascending_keys in H as [H1 H2]. simpl.
  destruct (p x); [| auto].
  apply ascending_keys. split; [| auto].
  rewrite Forall_forall in *. intros y Hy. apply filter_In in Hy as [Hy _].
  auto.
Qed.

Lemma ins_elem_Forall (P : MatrixNode -> Prop) (c : Z) (v : float)
  (es : list MatrixNode) :
  Forall P es -> P {| col := c; value := v |} -> Forall P (ins_elem c v es).
Proof.
  intros H Hn. induction H as [| e tl He Htl IH]; simpl.
  - now constructor.
  - destruct (col e <? c); [now constructor |].
    destruct (col e =? c); repeat constructor; assumption.
Qed.

Lemma del_elem_Forall (P : MatrixNode -> Prop) (c : Z)
  (es : list MatrixNode) :
  Forall P es -> Forall P (del_elem c es).
Proof.
  intros H. induction H as [| e tl He Htl IH]; simpl; [constructor |].
  destruct (col e =? c); [assumption | now constructor].
Qed.

Lemma ins_elem_ascending (c : Z) (v : float) (es : list MatrixNode) :
  ascending (map col es) = true ->
  ascending (map col (ins_elem c v es)) = true.
Proof.
  induction es as [| e tl IH]; intros H; [reflexivity |].
  pose proof H as H0. apply ascending_keys in H as [H1 H2]. simpl.
  destruct (col e <? c) eqn:Hlt.
  - apply ascending_keys. split; [| auto].
    apply ins_elem_Forall; [exact H1 |]. simpl. now apply Z.ltb_lt.
  - destruct (col e =? c) eqn:Heq.
    + apply Z.eqb_eq in Heq. apply ascending_keys. simpl. split; [| exact H2].
      eapply Forall_impl; [| exact H1]. simpl. intros; lia.
    + apply Z.ltb_ge in Hlt. apply Z.eqb_neq in Heq.
      apply ascending_keys. split; [| exact H0].
      constructor; [simpl; lia |].
      eapply Forall_impl; [| exact H1]. simpl. intros; lia.
Qed.

Lemma del_elem_ascending (c : Z) (es : list MatrixNode) :
  ascending (map col es) = true ->
  ascending (map col (del_elem c es)) = true.
Proof.
  induction es as [| e tl IH]; intros H; [reflexivity |].
  apply ascending_keys in H as [H1 H2]. simpl.
  destruct (col e =? c); [exact H2 |].
  apply ascending_keys. split; [| auto]. now apply del_elem_Forall.
Qed.

Lemma ins_row_Forall (P : RowNode -> Prop) (r : Z) (l : list RowNode) :
  Forall P l -> P {| row := r; elements := [] |} -> Forall P (ins_row r l).
Proof.
  intros H Hn. induction H as [| x tl Hx Htl IH]; simpl.
  - now constructor.
  - destruct (row x <? r); [now constructor |].
    destruct (row x =? r); repeat constructor; assumption.
Qed.

Lemma upsert_Forall (P : RowNode -> Prop) (r c : Z) (v : float)
  (l : list RowNode) :
  Forall P l ->
  (forall x, P x -> row x = r ->
             P {| row := row x; elements := ins_elem c v (elements x) |}) ->
  P {| row := r; elements := [{| col := c; value := v |}] |} ->
  Forall P (upsert r c v l).
Proof.
  intros H Hup Hn. induction H as [| x tl Hx Htl IH]; simpl.
  - now constructor.
  - destruct (row x <? r); [now constructor |].
    destruct (row x =? r) eqn:Heq.
    + apply Z.eqb_eq in Heq. constructor; auto.
    + repeat constructor; assumption.
Qed.

Lemma del_at_Forall (P : RowNode -> Prop) (r c : Z) (l : list RowNode) :
  Forall P l ->
  (forall x, P x ->
             P {| row := row x; elements := del_elem c (elements x) |}) ->
  Forall P (del_at r c l).
Proof.
  intros H Hd. induction H as [| x tl Hx Htl IH]; simpl; [constructor |].
  destruct (row x <? r); [now constructor |].
  destruct (row x =? r); constructor; auto.
Qed.

Lemma upsert_rows (r c : Z) (v : float) (l : list RowNode) :
  map row (upsert r c v l) = map row (ins_row r l).
Proof.
  induction l as [| x tl IH]; simpl; [reflexivity |].
  destruct (row x <? r); simpl; [now rewrite IH |].
  now destruct (row x =? r).
Qed.

Lemma del_at_rows (r c : Z) (l : list RowNode) :
  map row (del_at r c l) = map row l.
Proof.
  induction l as [| x tl IH]; simpl; [reflexivity |].
  destruct (row x <? r); simpl; [now rewrite IH |].
  now destruct (row x =? r).
Qed.

Lemma ins_row_ascending (r : Z) (l : list RowNode) :
  ascending (map row l) = true -> ascending (map row (ins_row r l)) = true.
Proof.
  induction l as [| x tl IH]; intros H; [reflexivity |].
  pose proof H as H0. apply ascending_keys in H as [H1 H2]. simpl.
  destruct (row x <? r) eqn:Hlt.
  - apply ascending_keys. split; [| auto].
    apply ins_row_Forall; [exact H1 |]. simpl. now apply Z.ltb_lt.
  - destruct (row x =? r) eqn:Heq; [exact H0 |].
    apply Z.ltb_ge in Hlt. apply Z.eqb_neq in Heq.
    apply ascending_keys. split; [| exact H0].
    constructor; [simpl; lia |].
    eapply Forall_impl; [| exact H1]. simpl. intros; lia.
Qed.

(** ** The invariant [wf] is kept by [insert], whatever it returns *)

Lemma wf_iff (m : SparseMatrix) :
  wf m = true
  <-> 0 < rows m /\ 0 < cols m
      /\ ascending (map row (rowList m)) = true
      /\ Forall (fun rn => row_ok (rows m) (cols m) rn = true) (rowList m).
Proof.
  unfold wf. rewrite !andb_true_iff, !Z.ltb_lt, forallb_forall, Forall_forall.
  tauto.
Qed.

Lemma row_ok_iff (rws cls : Z) (rn : RowNode) :
  row_ok rws cls rn = true
  <-> 0 <= row rn < rws
      /\ ascending (map col (elements rn)) = true
      /\ Forall (fun e => elem_ok cls e = true) (elements rn).
Proof.
  unfold row_ok.
  rewrite !andb_true_iff, Z.leb_le, Z.ltb_lt, forallb_forall, Forall_forall.
  tauto.
Qed.

Lemma elem_ok_iff (cls : Z) (e : MatrixNode) :
  elem_ok cls e = true
  <-> 0 <= col e < cls /\ is_zero (value e) = false.
Proof.
  unfold elem_ok.
  rewrite !andb_true_iff, Z.leb_le, Z.ltb_lt, negb_true_iff. tauto.
Qed.

Lemma in_range_iff (i n : Z) :
  (i <? 0) || (i >=? n) = false <-> 0 <= i < n.
Proof. rewrite orb_false_iff, Z.ltb_ge, Z.geb_leb, Z.leb_gt. tauto. Qed.

Lemma row_ok_ins (rws cls : Z) (x : RowNode) (c : Z) (v : float) :
  row_ok rws cls x = true -> 0 <= c < cls -> is_zero v = false ->
  row_ok rws cls {| row := row x; elements := ins_elem c v (elements x) |}
  = true.
Proof.
  rewrite !row_ok_iff. simpl. intros (H1 & H2 & H3) Hc Hv. repeat split.
  - lia.
  - lia.
  - now apply ins_elem_ascending.
  - apply ins_elem_Forall; [exact H3 |]. now apply elem_ok_iff.
Qed.

Lemma row_ok_del (rws cls : Z) (x : RowNode) (c : Z) :
  row_ok rws cls x = true ->
  row_ok rws cls {| row := row x; elements := del_elem c (elements x) |}
  = true.
Proof.
  rewrite !row_ok_iff. simpl. intros (H1 & H2 & H3). repeat split.
  - lia.
  - lia.
  - now apply del_elem_ascending.
  - now apply del_elem_Forall.
Qed.

Lemma row_ok_new (rws cls r : Z) :
  0 <= r < rws -> row_ok rws cls {| row := r; elements := [] |} = true.
Proof. intros H. apply row_ok_iff. simpl. repeat split; auto; lia. Qed.

Lemma row_ok_single (rws cls r c : Z) (v : float) :
  0 <= r < rws -> 0 <= c < cls -> is_zero v = false ->
  row_ok rws cls {| row := r; elements := [{| col := c; value := v |}] |}
  = true.
Proof.
  intros Hr Hc Hv. apply row_ok_iff. simpl. repeat split; try lia.
  constructor; [| constructor]. now apply elem_ok_iff.
Qed.

Lemma wf_set_rowList (m : SparseMatrix) (l : list RowNode) :
  wf m = true ->
  ascending (map row l) = true ->
  Forall (fun rn => row_ok (rows m) (cols m) rn = true) l ->
  wf (set_rowList m l) = true.
Proof.
  rewrite !wf_iff. simpl. intros (H1 & H2 & _ & _) H3 H4. auto.
Qed.

Lemma Forall_filter_keep {A : Type} (P : A -> Prop) (p : A -> bool)
  (l : list A) : Forall P l -> Forall P (filter p l).
Proof.
  rewrite !Forall_forall. intros H x Hx. apply filter_In in Hx as [Hx _]. auto.
Qed.

Lemma insert_dims (m : SparseMatrix) (r c : Z) (v : float) :
  rows (snd (Matrice.insert m r c v)) = rows m
  /\ cols (snd (Matrice.insert m r c v)) = cols m.
Proof.
  destruct ((r <? 0) || (r >=? rows m)) eqn:Hr.
  - rewrite insert_row_range by exact Hr. now split.
  - destruct (is_zero v) eqn:Hv.
    + rewrite insert_zero by assumption. now split.
    + rewrite insert_nonzero by assumption.
      destruct ((c <? 0) || (c >=? cols m)); now split.
Qed.

Lemma insert_wf (m : SparseMatrix) (r c : Z) (v : float) :
  wf m = true -> wf (snd (Matrice.insert m r c v)) = true.
Proof.
  intros Hwf. pose proof Hwf as Hm. apply wf_iff in Hm as (_ & _ & Hasc & Hall).
  destruct ((r <? 0) || (r >=? rows m)) eqn:Hr.
  - now rewrite insert_row_range by exact Hr.
  - pose proof (proj1 (in_range_iff _ _) Hr) as Hr'.
    destruct (is_zero v) eqn:Hv.
    + rewrite insert_zero by assumption. simpl snd. cbv zeta.
      assert (Ha : ascending (map row (del_at r c (rowList m))) = true)
        by now rewrite del_at_rows.
      assert (Hf : Forall (fun rn => row_ok (rows m) (cols m) rn = true)
                     (del_at r c (rowList m))).
      { apply del_at_Forall; [exact Hall |]. intros x Hx. now apply row_ok_del. }
      destruct (emptied r (del_at r c (rowList m))).
      * apply wf_set_rowList; [exact Hwf | | ].
        -- now apply ascending_filter.
        -- now apply Forall_filter_keep.
      * now apply wf_set_rowList.
    + rewrite insert_nonzero by assumption.
      destruct ((c <? 0) || (c >=? cols m)) eqn:Hc; simpl snd.
      * apply wf_set_rowList; [exact Hwf | | ].
        -- now apply ins_row_ascending.
        -- apply ins_row_Forall; [exact Hall |]. now apply row_ok_new.
      * pose proof (proj1 (in_range_iff _ _) Hc) as Hc'.
        apply wf_set_rowList; [exact Hwf | | ].
        -- rewrite upsert_rows. now apply ins_row_ascending.
        -- apply upsert_Forall; [exact Hall | |].
           ++ intros x Hx _. now apply row_ok_ins.
           ++ now apply row_ok_single.
Qed.

Lemma construct_wf (r c : Z) (m : SparseMatrix) :
  Matrice.construct r c = Ok m ->
  wf m = true /\ rows m = r /\ cols m = c /\ rowList m = [].
Proof.
  unfold Matrice.construct. destruct ((r <=? 0) || (c <=? 0)) eqn:H;
    [discriminate |].
  intros [= <-]. apply orb_false_iff in H as [H1 H2].
  apply Z.leb_gt in H1, H2. repeat split; auto.
  apply wf_iff. simpl. repeat split; auto.
Qed.

Lemma run_inserts_wf (ops : list (Z * Z * float)) (m : SparseMatrix) :
  wf m = true -> wf (run_inserts ops m) = true.
Proof.
  revert m. induction ops as [| [[r c] v] tl IH]; intros m H; [exact H |].
  simpl. apply IH. now apply insert_wf.
Qed.

(** ** What a cell holds after [insert] *)

Ltac cmp :=
  repeat match goal with
         | |- context [Z.ltb ?a ?b] => destruct (Z.ltb_spec a b)
         | |- context [Z.eqb ?a ?b] => destruct (Z.eqb_spec a b)
         end;
  simpl; try reflexivity; try lia; try congruence.

Lemma lookup_elem_cons (c : Z) (e : MatrixNode) (tl : list MatrixNode) :
  lookup_elem c (e :: tl)
  = if col e <? c then lookup_elem c tl
    else if col e =? c then Some (value e) else None.
Proof. unfold lookup_elem. simpl. now destruct (col e <? c). Qed.

Lemma lookup_cons (r c : Z) (x : RowNode) (tl : list RowNode) :
  lookup (x :: tl) r c
  = if row x <? r then lookup tl r c
    else if row x =? r then lookup_elem c (elements x) else None.
Proof. unfold lookup. simpl. now destruct (row x <? r). Qed.

Lemma lookup_elem_gt (c : Z) (es : list MatrixNode) :
  Forall (fun e => c < col e) es -> lookup_elem c es = None.
Proof.
  intros H. destruct H as [| e tl He _]; [reflexivity |].
  rewrite lookup_elem_cons. cmp.
Qed.

Lemma lookup_gt (r c : Z) (l : list RowNode) :
  Forall (fun x => r < row x) l -> lookup l r c = None.
Proof.
  intros H. destruct H as [| x tl Hx _]; [reflexivity |].
  rewrite lookup_cons. cmp.
Qed.

Lemma lookup_ins_elem (c : Z) (v : float) (es : list MatrixNode) (c' : Z) :
  lookup_elem c' (ins_elem c v es)
  = if c' =? c then Some v else lookup_elem c' es.
Proof.
  induction es as [| e tl IH]; simpl.
  - rewrite lookup_elem_cons. simpl. cmp.
  - destruct (Z.ltb_spec (col e) c).
    + rewrite !lookup_elem_cons, IH. cmp.
    + destruct (Z.eqb_spec (col e) c); rewrite !lookup_elem_cons; simpl; cmp.
Qed.

Lemma lookup_del_elem (c : Z) (es : list MatrixNode) (c' : Z) :
  ascending (map col es) = true ->
  lookup_elem c' (del_elem c es)
  = if c' =? c then None else lookup_elem c' es.
Proof.
  induction es as [| e tl IH]; intros H; simpl.
  - now destruct (c' =? c).
  - apply ascending_keys in H as [H1 H2].
    destruct (Z.eqb_spec (col e) c) as [Heq | Hne].
    + subst c. rewrite lookup_elem_cons.
      destruct (Z.ltb_spec (col e) c'); [cmp |].
      rewrite lookup_elem_gt.
      * cmp.
      * eapply Forall_impl; [| exact H1]. simpl. intros; lia.
    + rewrite !lookup_elem_cons, IH by exact H2. cmp.
Qed.

Lemma lookup_upsert (r c : Z) (v : float) (l : list RowNode) (r' c' : Z) :
  lookup (upsert r c v l) r' c'
  = if (r' =? r) && (c' =? c) then Some v else lookup l r' c'.
Proof.
  induction l as [| x tl IH]; simpl.
  - rewrite lookup_cons. cbn [row elements].
    rewrite lookup_elem_cons. cbn [col value]. unfold lookup at 1. simpl. cmp.
  - destruct (Z.ltb_spec (row x) r).
    + rewrite !lookup_cons, IH. cmp.
    + destruct (Z.eqb_spec (row x) r).
      * rewrite !lookup_cons. cbn [row elements].
        rewrite lookup_ins_elem. cmp.
      * rewrite !lookup_cons. cbn [row elements].
        rewrite lookup_elem_cons. cbn [col value]. cmp.
Qed.

Lemma lookup_del_at (r c : Z) (l : list RowNode) (r' c' : Z) :
  Forall (fun x => ascending (map col (elements x)) = true) l ->
  lookup (del_at r c l) r' c'
  = if (r' =? r) && (c' =? c) then None else lookup l r' c'.
Proof.
  intros H. induction H as [| x tl Hx Htl IH]; simpl.
  - now destruct ((r' =? r) && (c' =? c)).
  - destruct (Z.ltb_spec (row x) r).
    + rewrite !lookup_cons, IH. cmp.
    + destruct (Z.eqb_spec (row x) r).
      * rewrite !lookup_cons. cbn [row elements].
        rewrite lookup_del_elem by exact Hx. cmp.
      * rewrite !lookup_cons. cmp.
Qed.

Lemma lookup_filter_nonempty (l : list RowNode) (r c : Z) :
  ascending (map row l) = true ->
  lookup (filter nonempty l) r c = lookup l r c.
Proof.
  induction l as [| x tl IH]; intros H; [reflexivity |].
  apply ascending_keys in H as [H1 H2]. simpl. unfold nonempty at 1.
  destruct (elements x) as [| e es] eqn:E; simpl.
  - rewrite lookup_cons, E, IH by exact H2.
    destruct (Z.ltb_spec (row x) r); [reflexivity |].
    rewrite lookup_gt.
    + now destruct (row x =? r).
    + eapply Forall_impl; [| exact H1]. simpl. intros; lia.
  - rewrite !lookup_cons, IH by exact H2. reflexivity.
Qed.

Lemma wf_cols_ascending (m : SparseMatrix) :
  wf m = true ->
  Forall (fun x => ascending (map col (elements x)) = true) (rowList m).
Proof.
  intros H. apply wf_iff in H as (_ & _ & _ & H).
  eapply Forall_impl; [| exact H]. simpl. intros x Hx.
  now apply row_ok_iff in Hx.
Qed.

Lemma wf_rows_ascending (m : SparseMatrix) :
  wf m = true -> ascending (map row (rowList m)) = true.
Proof. intros H. now apply wf_iff in H. Qed.

(** [insert] with both indices in range returns normally, and afterwards
    the cell holds [v] unless [|v| < 1e-10], when it holds nothing; the
    other cells are as before. *)
Lemma insert_cell (m : SparseMatrix) (r c : Z) (v : float) :
  wf m = true -> 0 <= r < rows m -> 0 <= c < cols m ->
  fst (Matrice.insert m r c v) = Ok tt
  /\ forall r' c',
       cell (snd (Matrice.insert m r c v)) r' c'
       = if (r' =? r) && (c' =? c) then norm v else cell m r' c'.
Proof.
  intros Hwf Hr Hc.
  apply in_range_iff in Hr. apply in_range_iff in Hc.
  unfold norm. destruct (is_zero v) eqn:Hv.
  - rewrite insert_zero by assumption. split; [reflexivity |].
    intros r' c'. unfold cell. simpl. 
    assert (Hd : lookup (del_at r c (rowList m)) r' c'
                 = if (r' =? r) && (c' =? c) then None
                   else lookup (rowList m) r' c')
      by (apply lookup_del_at; now apply wf_cols_ascending).
    destruct (emptied r (del_at r c (rowList m))); [| exact Hd].
    rewrite lookup_filter_nonempty; [exact Hd |].
    rewrite del_at_rows. now apply wf_rows_ascending.
  - rewrite insert_nonzero, Hc by assumption. split; [reflexivity |].
    intros r' c'. unfold cell. simpl. apply lookup_upsert.
Qed.

Lemma insert_into_spec (m : SparseMatrix) (r c : Z) (v : float) :
  wf m = true -> 0 <= r < rows m -> 0 <= c < cols m ->
  exists m',
    Matrice.insert_into m r c v = Ok m'
    /\ wf m' = true /\ rows m' = rows m /\ cols m' = cols m
    /\ forall r' c',
         cell m' r' c'
         = if (r' =? r) && (c' =? c) then norm v else cell m r' c'.
Proof.
  intros Hwf Hr Hc.
  destruct (insert_cell m r c v Hwf Hr Hc) as [H1 H2].
  pose proof (insert_wf m r c v Hwf) as H3.
  destruct (insert_dims m r c v) as [H4 H5].
  unfold Matrice.insert_into.
  destruct (Matrice.insert m r c v) as [o m']. simpl in *. subst o.
  exists m'. auto.
Qed.

Lemma get_cell (m : SparseMatrix) (r c : Z) :
  0 <= r < rows m -> 0 <= c < cols m ->
  Matrice.get m r c = Ok (val (cell m r c)).
Proof.
  intros Hr Hc. unfold Matrice.get.
  replace ((r <? 0) || (r >=? rows m) || (c <? 0) || (c >=? cols m))
    with false.
  - unfold cell, lookup, lookup_elem.
    destruct (skip _ (rowList m)) as [| x tl]; [reflexivity |].
    destruct (row x =? r); simpl; [| reflexivity].
    destruct (skip _ (elements x)) as [| e es]; [reflexivity |].
    now destruct (col e =? c).
  - symmetry. rewrite !orb_false_iff, !Z.ltb_ge, !Z.geb_leb, !Z.leb_gt. lia.
Qed.

(** ** The traversal loops *)

Lemma for_each_triple_app {St : Type}
  (f : Z -> Z -> float -> St -> result St) (a b : list (Z * Z * float))
  (s : St) :
  for_each_triple f (a ++ b) s
  = (s' <- for_each_triple f a s ;; for_each_triple f b s').
Proof.
  revert s. induction a as [| [[r c] v] tl IH]; intros s; simpl.
  - reflexivity.
  - destruct (f r c v s); simpl; auto.
Qed.

Lemma for_each_col_triples {St : Type}
  (f : Z -> Z -> float -> St -> result St) (r : Z) (es : list MatrixNode)
  (s : St) :
  for_each_col (f r) es s
  = for_each_triple f (map (fun e => (r, col e, value e)) es) s.
Proof.
  revert s. induction es as [| e tl IH]; intros s; simpl.
  - reflexivity.
  - destruct (f r (col e) (value e) s); simpl; auto.
Qed.

Lemma for_each_row_triples {St : Type}
  (f : Z -> Z -> float -> St -> result St) (l : list RowNode) (s : St) :
  for_each_row f l s = for_each_triple f (triples l) s.
Proof.
  revert s. induction l as [| x tl IH]; intros s; simpl.
  - reflexivity.
  - rewrite for_each_triple_app, for_each_col_triples.
    destruct (for_each_triple f _ s); simpl; auto.
Qed.

Lemma for_each_triple_swap {St : Type}
  (f : Z -> Z -> float -> St -> result St) (ts : list (Z * Z * float))
  (s : St) :
  for_each_triple (fun r c v => f c r v) ts s
  = for_each_triple f (map swap ts) s.
Proof.
  revert s. induction ts as [| [[r c] v] tl IH]; intros s; simpl.
  - reflexivity.
  - destruct (f c r v s); simpl; auto.
Qed.

Lemma find_triple_notin (r c : Z) (ts : list (Z * Z * float)) :
  ~ In (r, c) (map key ts) -> find_triple r c ts = None.
Proof.
  induction ts as [| [[r0 c0] v0] tl IH]; intros H; simpl; [reflexivity |].
  simpl in H. destruct (Z.eqb_spec r0 r), (Z.eqb_spec c0 c); simpl;
    try (apply IH; intros Hin; apply H; now right).
  subst. exfalso. apply H. now left.
Qed.

Lemma find_triple_In (r c : Z) (v : float) (ts : list (Z * Z * float)) :
  NoDup (map key ts) ->
  In (r, c, v) ts <-> find_triple r c ts = Some v.
Proof.
  induction ts as [| [[r0 c0] v0] tl IH]; intros Hnd; simpl.
  - split; [tauto | discriminate].
  - inversion Hnd as [| k ks Hk Hks]; subst.
    destruct (Z.eqb_spec r0 r), (Z.eqb_spec c0 c); simpl; subst.
    + split.
      * intros [[= ->] | Hin]; [reflexivity |].
        exfalso. apply Hk. apply (in_map key) in Hin. exact Hin.
      * intros [= ->]. now left.
    + rewrite <- IH by exact Hks. split; [intros [[= ? ?] | ?] | ]; tauto.
    + rewrite <- IH by exact Hks. split; [intros [[= ? ?] | ?] | ]; tauto.
    + rewrite <- IH by exact Hks. split; [intros [[= ? ?] | ?] | ]; tauto.
Qed.

Lemma find_triple_app (r c : Z) (a b : list (Z * Z * float)) :
  find_triple r c (a ++ b)
  = match find_triple r c a with
    | Some v => Some v
    | None => find_triple r c b
    end.
Proof.
  induction a as [| [[r0 c0] v0] tl IH]; simpl; [reflexivity |].
  now destruct ((r0 =? r) && (c0 =? c)).
Qed.

Lemma find_triple_swap (r c : Z) (ts : list (Z * Z * float)) :
  find_triple r c (map swap ts) = find_triple c r ts.
Proof.
  induction ts as [| [[r0 c0] v0] tl IH]; simpl; [reflexivity |].
  rewrite IH, (andb_comm (c0 =? r)). reflexivity.
Qed.

Section Fold.

Variable f : Z -> Z -> float -> SparseMatrix -> result SparseMatrix.
Variable G : float -> option float -> option float.

(** The loop body writes one cell, from the value of the element and what
    the cell held. *)
Hypothesis step :
  forall res r c v,
    wf res = true -> 0 <= r < rows res -> 0 <= c < cols res ->
    exists res',
      f r c v res = Ok res'
      /\ wf res' = true /\ rows res' = rows res /\ cols res' = cols res
      /\ forall r' c',
           cell res' r' c'
           = if (r' =? r) && (c' =? c) then G v (cell res r c)
             else cell res r' c'.

Lemma for_each_triple_cells (ts : list (Z * Z * float)) :
  forall res,
    NoDup (map key ts) ->
    Forall (fun t => 0 <= fst (key t) < rows res
                     /\ 0 <= snd (key t) < cols res) ts ->
    wf res = true ->
    exists res',
      for_each_triple f ts res = Ok res'
      /\ wf res' = true /\ rows res' = rows res /\ cols res' = cols res
      /\ forall r c,
           cell res' r c
           = match find_triple r c ts with
             | Some v => G v (cell res r c)
             | None => cell res r c
             end.
Proof.
  induction ts as [| [[r0 c0] v0] tl IH]; intros res Hnd Hrg Hwf.
  - exists res. simpl. auto.
  - inversion Hnd as [| k ks Hk Hks]; subst.
    inversion Hrg as [| t ts' [Hr0 Hc0] Htl]; subst. simpl in Hr0, Hc0.
    destruct (step res r0 c0 v0 Hwf Hr0 Hc0)
      as (res1 & Hf & Hwf1 & Hrows1 & Hcols1 & Hcell1).
    destruct (IH res1 Hks) as (res' & Hf' & Hwf' & Hrows' & Hcols' & Hcell').
    { now rewrite Hrows1, Hcols1. }
    { exact Hwf1. }
    exists res'. simpl. rewrite Hf. simpl.
    repeat split; [exact Hf' | exact Hwf' | congruence | congruence |].
    intros r c. rewrite Hcell', Hcell1.
    destruct (Z.eqb_spec r0 r), (Z.eqb_spec c0 c); simpl; subst;
      rewrite ?Z.eqb_refl; simpl.
    + now rewrite find_triple_notin by exact Hk.
    + destruct (Z.eqb_spec c c0); [congruence |]. reflexivity.
    + destruct (Z.eqb_spec r r0); [congruence |]. reflexivity.
    + destruct (Z.eqb_spec r r0); [congruence |]. reflexivity.
Qed.

End Fold.

(** ** The stored elements of a well-formed matrix *)

Lemma in_triples (t : Z * Z * float) (l : list RowNode) :
  In t (triples l)
  <-> exists x e,
        In x l /\ In e (elements x) /\ t = (row x, col e, value e).
Proof.
  unfold triples. rewrite in_flat_map. split.
  - intros (x & Hx & Ht). apply in_map_iff in Ht as (e & <- & He).
    now exists x, e.
  - intros (x & e & Hx & He & ->). exists x. split; [exact Hx |].
    apply in_map_iff. now exists e.
Qed.

Lemma StronglySorted_app {A : Type} (R : A -> A -> Prop) (a b : list A) :
  StronglySorted R a -> StronglySorted R b ->
  (forall x y, In x a -> In y b -> R x y) ->
  StronglySorted R (a ++ b).
Proof.
  intros Ha Hb Hab. induction Ha as [| x tl Htl IH Hx]; simpl; [exact Hb |].
  constructor.
  - apply IH. intros y z Hy Hz. apply Hab; [now right | exact Hz].
  - apply Forall_app. split; [exact Hx |].
    apply Forall_forall. intros y Hy. apply Hab; [now left | exact Hy].
Qed.

Lemma row_triples_sorted (r : Z) (es : list MatrixNode) :
  ascending (map col es) = true ->
  StronglySorted key_lt (map (fun e => (r, col e, value e)) es).
Proof.
  induction es as [| e tl IH]; intros H; simpl; [constructor |].
  apply ascending_keys in H as [H1 H2]. constructor; [auto |].
  apply Forall_map. eapply Forall_impl; [| exact H1].
  intros e' He'. right. simpl. auto.
Qed.

Lemma triples_sorted (l : list RowNode) :
  ascending (map row l) = true ->
  Forall (fun x => ascending (map col (elements x)) = true) l ->
  StronglySorted key_lt (triples l).
Proof.
  intros Hr Hc. induction Hc as [| x tl Hx Htl IH]; simpl; [constructor |].
  apply ascending_keys in Hr as [H1 H2].
  apply StronglySorted_app; [now apply row_triples_sorted | auto |].
  intros s t Hs Ht. apply in_map_iff in Hs as (e & <- & He).
  apply in_triples in Ht as (y & e' & Hy & He' & ->).
  rewrite Forall_forall in H1. left. simpl. auto.
Qed.

Lemma key_lt_irrefl (t : Z * Z * float) : ~ key_lt t t.
Proof. unfold key_lt. lia. Qed.

Lemma key_lt_asym (s t : Z * Z * float) : key_lt s t -> ~ key_lt t s.
Proof. unfold key_lt. lia. Qed.

Lemma sorted_keys_NoDup (ts : list (Z * Z * float)) :
  StronglySorted key_lt ts -> NoDup (map key ts).
Proof.
  intros H. induction H as [| t tl Htl IH Ht]; simpl; constructor; [| exact IH].
  intros Hin. apply in_map_iff in Hin as (s & Hs & Hin).
  rewrite Forall_forall in Ht. specialize (Ht s Hin).
  unfold key_lt in Ht. rewrite Hs in Ht. lia.
Qed.

(** Two traversals in key order that hold the same elements are equal. *)
Lemma sorted_triples_ext (ts1 ts2 : list (Z * Z * float)) :
  StronglySorted key_lt ts1 -> StronglySorted key_lt ts2 ->
  (forall t, In t ts1 <-> In t ts2) ->
  ts1 = ts2.
Proof.
  intros H1. revert ts2.
  induction H1 as [| t1 tl1 Htl1 IH Ht1]; intros ts2 H2 Hext.
  - destruct ts2 as [| t2 tl2]; [reflexivity |].
    exfalso. apply (proj2 (Hext t2)). now left.
  - destruct H2 as [| t2 tl2 Htl2 Ht2].
    + exfalso. apply (proj1 (Hext t1)). now left.
    + rewrite Forall_forall in Ht1, Ht2.
      assert (Heq : t1 = t2).
      { destruct (proj1 (Hext t1) (or_introl eq_refl)) as [E | Hin1];
          [now symmetry |].
        destruct (proj2 (Hext t2) (or_introl eq_refl)) as [E | Hin2];
          [exact E |].
        exfalso. exact (key_lt_asym _ _ (Ht1 _ Hin2) (Ht2 _ Hin1)). }
      subst t2. f_equal. apply IH; [exact Htl2 |].
      intros t. split; intros Hin.
      * destruct (proj1 (Hext t) (or_intror Hin)) as [E | Hin']; [| exact Hin'].
        subst t. exfalso. exact (key_lt_irrefl _ (Ht1 _ Hin)).
      * destruct (proj2 (Hext t) (or_intror Hin)) as [E | Hin']; [| exact Hin'].
        subst t. exfalso. exact (key_lt_irrefl _ (Ht2 _ Hin)).
Qed.

Lemma find_triple_other_row (r0 r c : Z) (es : list MatrixNode) :
  r0 <> r -> find_triple r c (map (fun e => (r0, col e, value e)) es) = None.
Proof.
  intros H. induction es as [| e tl IH]; simpl; [reflexivity |].
  destruct (Z.eqb_spec r0 r); [contradiction | exact IH].
Qed.

Lemma find_triple_row (r c : Z) (es : list MatrixNode) :
  ascending (map col es) = true ->
  find_triple r c (map (fun e => (r, col e, value e)) es) = lookup_elem c es.
Proof.
  induction es as [| e tl IH]; intros H; simpl; [reflexivity |].
  apply ascending_keys in H as [H1 H2].
  rewrite lookup_elem_cons, Z.eqb_refl, IH by exact H2. simpl.
  destruct (Z.eqb_spec (col e) c); [cmp |].
  destruct (Z.ltb_spec (col e) c); [reflexivity |].
  apply lookup_elem_gt. eapply Forall_impl; [| exact H1]. simpl. intros; lia.
Qed.

Lemma find_triple_rows_gt (r c : Z) (l : list RowNode) :
  Forall (fun x => r < row x) l -> find_triple r c (triples l) = None.
Proof.
  intros H. induction H as [| x tl Hx Htl IH]; simpl; [reflexivity |].
  rewrite find_triple_app, find_triple_other_row by lia. exact IH.
Qed.

(** Looking a cell up the way [get] does finds the stored element. *)
Lemma find_triple_lookup (l : list RowNode) (r c : Z) :
  ascending (map row l) = true ->
  Forall (fun x => ascending (map col (elements x)) = true) l ->
  find_triple r c (triples l) = lookup l r c.
Proof.
  intros Hr Hc. induction Hc as [| x tl Hx Htl IH]; simpl; [reflexivity |].
  apply ascending_keys in Hr as [H1 H2].
  rewrite find_triple_app, lookup_cons.
  destruct (Z.ltb_spec (row x) r).
  - rewrite find_triple_other_row by lia. auto.
  - assert (Hgt : find_triple r c (triples tl) = None).
    { apply find_triple_rows_gt. eapply Forall_impl; [| exact H1].
      simpl. intros; lia. }
    destruct (Z.eqb_spec (row x) r) as [E | E].
    + rewrite <- E, find_triple_row by exact Hx. rewrite E, Hgt.
      now destruct (lookup_elem c (elements x)).
    + now rewrite find_triple_other_row by exact E.
Qed.

Lemma wf_find_triple (m : SparseMatrix) (r c : Z) :
  wf m = true -> find_triple r c (triples (rowList m)) = cell m r c.
Proof.
  intros H. apply find_triple_lookup.
  - now apply wf_rows_ascending.
  - now apply wf_cols_ascending.
Qed.

Lemma wf_triples_sorted (m : SparseMatrix) :
  wf m = true -> StronglySorted key_lt (triples (rowList m)).
Proof.
  intros H. apply triples_sorted.
  - now apply wf_rows_ascending.
  - now apply wf_cols_ascending.
Qed.

Lemma wf_triples_ok (m : SparseMatrix) :
  wf m = true ->
  Forall (fun t => (0 <= fst (key t) < rows m /\ 0 <= snd (key t) < cols m)
                   /\ is_zero (snd t) = false)
    (triples (rowList m)).
Proof.
  intros H. apply wf_iff in H as (_ & _ & _ & H).
  apply Forall_forall. intros t Ht.
  apply in_triples in Ht as (x & e & Hx & He & ->).
  rewrite Forall_forall in H. specialize (H x Hx).
  apply row_ok_iff in H as (H1 & _ & H2).
  rewrite Forall_forall in H2. specialize (H2 e He).
  apply elem_ok_iff in H2. simpl. tauto.
Qed.

(** A stored element is in range and not below the threshold. *)
Lemma cell_Some_ok (m : SparseMatrix) (r c : Z) (v : float) :
  wf m = true -> cell m r c = Some v ->
  0 <= r < rows m /\ 0 <= c < cols m /\ is_zero v = false.
Proof.
  intros Hwf H. rewrite <- wf_find_triple in H by exact Hwf.
  apply find_triple_In in H;
    [| apply sorted_keys_NoDup; now apply wf_triples_sorted].
  pose proof (wf_triples_ok m Hwf) as Hok. rewrite Forall_forall in Hok.
  specialize (Hok _ H). simpl in Hok. tauto.
Qed.

Lemma cell_norm (m : SparseMatrix) (r c : Z) :
  wf m = true ->
  match cell m r c with Some v => norm v | None => None end = cell m r c.
Proof.
  intros Hwf. destruct (cell m r c) as [v |] eqn:E; [| reflexivity].
  apply cell_Some_ok in E as (_ & _ & Hv); [| exact Hwf].
  unfold norm. now rewrite Hv.
Qed.

(** ** The derived operations, cell by cell *)

Lemma construct_ok (r c : Z) :
  0 < r -> 0 < c ->
  Matrice.construct r c = Ok {| rows := r; cols := c; rowList := [] |}.
Proof.
  intros Hr Hc. unfold Matrice.construct.
  replace ((r <=? 0) || (c <=? 0)) with false; [reflexivity |].
  symmetry. rewrite orb_false_iff, !Z.leb_gt. lia.
Qed.

Lemma empty_wf (r c : Z) :
  0 < r -> 0 < c -> wf {| rows := r; cols := c; rowList := [] |} = true.
Proof. intros Hr Hc. apply wf_iff. simpl. repeat split; auto. Qed.

Lemma triples_in_range (m res : SparseMatrix) :
  wf m = true -> rows res = rows m -> cols res = cols m ->
  Forall (fun t => 0 <= fst (key t) < rows res
                   /\ 0 <= snd (key t) < cols res)
    (triples (rowList m)).
Proof.
  intros Hwf -> ->. eapply Forall_impl; [| exact (wf_triples_ok m Hwf)].
  simpl. tauto.
Qed.

(** The first loop of [add] and [subtract] copies the cells of [*this]. *)
Lemma copy_phase (A res0 : SparseMatrix) :
  wf A = true -> wf res0 = true ->
  rows res0 = rows A -> cols res0 = cols A -> rowList res0 = [] ->
  exists res1,
    for_each_row (fun r c v res => Matrice.insert_into res r c v)
      (rowList A) res0 = Ok res1
    /\ wf res1 = true /\ rows res1 = rows A /\ cols res1 = cols A
    /\ forall r c, cell res1 r c = cell A r c.
Proof.
  intros HA H0 Hr Hc Hnil. rewrite for_each_row_triples.
  destruct (for_each_triple_cells
              (fun r c v res => Matrice.insert_into res r c v)
              (fun v _ => norm v)
              (fun res r c v => insert_into_spec res r c v)
              (triples (rowList A)) res0)
    as (res1 & Hf & Hwf & Hr1 & Hc1 & Hcell).
  - apply sorted_keys_NoDup. now apply wf_triples_sorted.
  - now apply triples_in_range.
  - exact H0.
  - exists res1. repeat split; [exact Hf | exact Hwf | congruence | congruence |].
    intros r c. rewrite Hcell, wf_find_triple by exact HA.
    unfold cell at 2. rewrite Hnil. now apply cell_norm.
Qed.

(** The second loop of [add] and [subtract], with [op] for [+] or [-]. *)
Lemma merge_phase (op : float -> float -> float) (B res : SparseMatrix) :
  wf B = true -> wf res = true ->
  rows res = rows B -> cols res = cols B ->
  exists res',
    for_each_row
      (fun r c v res =>
         currentValue <- Matrice.get res r c ;;
         Matrice.insert_into res r c (op currentValue v))
      (rowList B) res = Ok res'
    /\ wf res' = true /\ rows res' = rows B /\ cols res' = cols B
    /\ forall r c,
         cell res' r c
         = match cell B r c with
           | Some b => norm (op (val (cell res r c)) b)
           | None => cell res r c
           end.
Proof.
  intros HB Hres Hr Hc. rewrite for_each_row_triples.
  destruct (for_each_triple_cells
              (fun r c v res =>
                 currentValue <- Matrice.get res r c ;;
                 Matrice.insert_into res r c (op currentValue v))
              (fun v o => norm (op (val o) v)))
    with (ts := triples (rowList B)) (res := res)
    as (res' & Hf & Hwf & Hr1 & Hc1 & Hcell).
  - intros res0 r c v Hwf0 Hr0 Hc0. rewrite get_cell by assumption. simpl.
    now apply insert_into_spec.
  - apply sorted_keys_NoDup. now apply wf_triples_sorted.
  - now apply triples_in_range.
  - exact Hres.
  - exists res'. repeat split; [exact Hf | exact Hwf | congruence | congruence |].
    intros r c. now rewrite Hcell, wf_find_triple by exact HB.
Qed.

Lemma wf_dims_pos (m : SparseMatrix) : wf m = true -> 0 < rows m /\ 0 < cols m.
Proof. intros H. apply wf_iff in H. tauto. Qed.

Lemma add_cells (A B : SparseMatrix) :
  wf A = true -> wf B = true -> rows A = rows B -> cols A = cols B ->
  exists S,
    Matrice.add A B = Ok S
    /\ wf S = true /\ rows S = rows A /\ cols S = cols A
    /\ forall r c,
         cell S r c
         = match cell B r c with
           | Some b => norm (val (cell A r c) + b)%float
           | None => cell A r c
           end.
Proof.
  intros HA HB Hr Hc. destruct (wf_dims_pos A HA) as [Hpr Hpc].
  unfold Matrice.add. rewrite Hr, Hc, !Z.eqb_refl. simpl.
  rewrite <- Hr, <- Hc, construct_ok by assumption. simpl.
  destruct (copy_phase A {| rows := rows A; cols := cols A; rowList := [] |})
    as (res1 & Hf1 & Hwf1 & Hr1 & Hc1 & Hcell1);
    [exact HA | now apply empty_wf | reflexivity | reflexivity | reflexivity |].
  rewrite Hf1. simpl.
  destruct (merge_phase PrimFloat.add B res1)
    as (S & Hf2 & Hwf2 & Hr2 & Hc2 & Hcell2);
    [exact HB | exact Hwf1 | congruence | congruence |].
  exists S. repeat split; [exact Hf2 | exact Hwf2 | congruence | congruence |].
  intros r c. now rewrite Hcell2, Hcell1.
Qed.

Lemma subtract_cells (A B : SparseMatrix) :
  wf A = true -> wf B = true -> rows A = rows B -> cols A = cols B ->
  exists S,
    Matrice.subtract A B = Ok S
    /\ wf S = true /\ rows S = rows A /\ cols S = cols A
    /\ forall r c,
         cell S r c
         = match cell B r c with
           | Some b => norm (val (cell A r c) - b)%float
           | None => cell A r c
           end.
Proof.
  intros HA HB Hr Hc. destruct (wf_dims_pos A HA) as [Hpr Hpc].
  unfold Matrice.subtract. rewrite Hr, Hc, !Z.eqb_refl. simpl.
  rewrite <- Hr, <- Hc, construct_ok by assumption. simpl.
  destruct (copy_phase A {| rows := rows A; cols := cols A; rowList := [] |})
    as (res1 & Hf1 & Hwf1 & Hr1 & Hc1 & Hcell1);
    [exact HA | now apply empty_wf | reflexivity | reflexivity | reflexivity |].
  rewrite Hf1. simpl.
  destruct (merge_phase PrimFloat.sub B res1)
    as (S & Hf2 & Hwf2 & Hr2 & Hc2 & Hcell2);
    [exact HB | exact Hwf1 | congruence | congruence |].
  exists S. repeat split; [exact Hf2 | exact Hwf2 | congruence | congruence |].
  intros r c. now rewrite Hcell2, Hcell1.
Qed.

Lemma transpose_cells (M : SparseMatrix) :
  wf M = true ->
  exists T,
    Matrice.transpose M = Ok T
    /\ wf T = true /\ rows T = cols M /\ cols T = rows M
    /\ forall r c, cell T r c = cell M c r.
Proof.
  intros HM. destruct (wf_dims_pos M HM) as [Hpr Hpc].
  unfold Matrice.transpose. rewrite construct_ok by assumption. simpl.
  rewrite for_each_row_triples.
  rewrite (for_each_triple_swap
             (fun r c v res => Matrice.insert_into res r c v)).
  destruct (for_each_triple_cells
              (fun r c v res => Matrice.insert_into res r c v)
              (fun v _ => norm v)
              (fun res r c v => insert_into_spec res r c v)
              (map swap (triples (rowList M)))
              {| rows := cols M; cols := rows M; rowList := [] |})
    as (T & Hf & Hwf & Hr1 & Hc1 & Hcell).
  - pose proof (sorted_keys_NoDup _ (wf_triples_sorted M HM)) as Hnd.
    rewrite map_map.
    replace (map (fun t => key (swap t)) (triples (rowList M)))
      with (map (fun k : Z * Z => (snd k, fst k))
              (map key (triples (rowList M)))).
    + apply Finite.Injective_map_NoDup; [| exact Hnd].
      intros [a b] [a' b']. simpl. congruence.
    + rewrite map_map. apply map_ext. now intros [[r c] v].
  - apply Forall_map. eapply Forall_impl; [| exact (wf_triples_ok M HM)].
    intros [[r c] v]. simpl. tauto.
  - now apply empty_wf.
  - exists T. repeat split; [exact Hf | exact Hwf | exact Hr1 | exact Hc1 |].
    intros r c. rewrite Hcell, find_triple_swap, wf_find_triple by exact HM.
    unfold cell at 2. simpl. now apply cell_norm.
Qed.

(** [scalarMultiply] and [multiply] return a well-formed matrix. *)
Lemma scalarMultiply_wf (M : SparseMatrix) (k : float) :
  wf M = true ->
  exists R,
    Matrice.scalarMultiply M k = Ok R
    /\ wf R = true /\ rows R = rows M /\ cols R = cols M.
Proof.
  intros HM. destruct (wf_dims_pos M HM) as [Hpr Hpc].
  unfold Matrice.scalarMultiply. rewrite construct_ok by assumption. simpl.
  destruct (is_zero k).
  - eexists. split; [reflexivity |]. split; [now apply empty_wf | now split].
  - rewrite for_each_row_triples.
    destruct (for_each_triple_cells
                (fun r c v res =>
                   let newValue := (v * k)%float in
                   if is_nonzero newValue
                   then Matrice.insert_into res r c newValue else Ok res)
                (fun v o => if is_nonzero (v * k) then norm (v * k)%float
                            else o))
      with (ts := triples (rowList M))
           (res := {| rows := rows M; cols := cols M; rowList := [] |})
      as (R & Hf & Hwf & Hr1 & Hc1 & _).
    + intros res r c v Hwf Hr Hc. cbv zeta.
      destruct (is_nonzero (v * k)); [now apply insert_into_spec |].
      exists res. repeat split; auto. intros r' c'.
      destruct (Z.eqb_spec r' r), (Z.eqb_spec c' c); simpl; congruence.
    + apply sorted_keys_NoDup. now apply wf_triples_sorted.
    + now apply triples_in_range.
    + now apply empty_wf.
    + exists R. auto.
Qed.

Lemma for_j_inv {St : Type} (Q : St -> Prop) (body : Z -> St -> result St)
  (fuel : nat) (j0 : Z) (s : St) :
  (forall j s, j0 <= j < j0 + Z.of_nat fuel -> Q s ->
               exists s', body j s = Ok s' /\ Q s') ->
  Q s ->
  exists s', for_j fuel j0 body s = Ok s' /\ Q s'.
Proof.
  revert j0 s. induction fuel as [| n IH]; intros j0 s Hb Hs.
  - exists s. now split.
  - destruct (Hb j0 s) as (s1 & H1 & Hs1); [lia | exact Hs |].
    simpl for_j. rewrite H1. simpl. apply IH; [| exact Hs1].
    intros j s' Hj. apply Hb. lia.
Qed.

Lemma row_dot_ok (other : SparseMatrix) (j : Z) (es : list MatrixNode)
  (sum : float) :
  Forall (fun e => 0 <= col e < rows other) es ->
  0 <= j < cols other ->
  exists s, Matrice.row_dot other j es sum = Ok s.
Proof.
  intros H Hj. revert sum.
  induction H as [| e tl He Htl IH]; intros sum; simpl.
  - now exists sum.
  - rewrite get_cell by assumption. simpl. apply IH.
Qed.

Lemma multiply_wf (A B : SparseMatrix) :
  wf A = true -> wf B = true -> cols A = rows B ->
  exists R,
    Matrice.multiply A B = Ok R
    /\ wf R = true /\ rows R = rows A /\ cols R = cols B.
Proof.
  intros HA HB Hd.
  destruct (wf_dims_pos A HA) as [Hpr _], (wf_dims_pos B HB) as [_ Hpc].
  unfold Matrice.multiply. rewrite Hd, Z.eqb_refl. simpl.
  rewrite construct_ok by assumption. simpl.
  pose (Q := fun res => wf res = true /\ rows res = rows A
                        /\ cols res = cols B).
  assert (H0 : Q {| rows := rows A; cols := cols B; rowList := [] |})
    by (split; [now apply empty_wf | now split]).
  assert (Hrows : Forall (fun x => 0 <= row x < rows A
                            /\ Forall (fun e => 0 <= col e < rows B)
                                 (elements x)) (rowList A)).
  { apply wf_iff in HA as (_ & _ & _ & HA).
    eapply Forall_impl; [| exact HA]. simpl. intros x Hx.
    apply row_ok_iff in Hx as (H1 & _ & H2). split; [exact H1 |].
    eapply Forall_impl; [| exact H2]. simpl. intros e He.
    apply elem_ok_iff in He. lia. }
  revert H0. generalize {| rows := rows A; cols := cols B; rowList := [] |}.
  induction Hrows as [| x tl [Hx Hes] Htl IH]; intros res Hres; simpl.
  - exists res. exact (conj eq_refl Hres).
  - destruct (for_j_inv Q
                (fun j res =>
                   sum <- Matrice.row_dot B j (elements x) 0%float ;;
                   if is_nonzero sum
                   then Matrice.insert_into res (row x) j sum else Ok res)
                (Z.to_nat (cols B)) 0 res) as (res1 & H1 & Hres1);
      [| exact Hres |].
    + intros j s Hj (Hwf & Hr & Hc).
      destruct (row_dot_ok B j (elements x) 0%float Hes) as (sum & Hsum);
        [lia |].
      rewrite Hsum. simpl. destruct (is_nonzero sum).
      * destruct (insert_into_spec s (row x) j sum Hwf)
          as (s' & Hs' & Hwf' & Hr' & Hc' & _); [lia | lia |].
        exists s'. split; [exact Hs' |]. split; [exact Hwf' |]. split; congruence.
      * exists s. split; [reflexivity |]. now split.
    + rewrite H1. simpl. now apply IH.
Qed.

(** ** Empty rows *)

Lemma forallb_Forall {A : Type} (p : A -> bool) (l : list A) :
  forallb p l = true <-> Forall (fun x => p x = true) l.
Proof. now rewrite forallb_forall, Forall_forall. Qed.

Lemma ins_elem_nonempty (c : Z) (v : float) (es : list MatrixNode) :
  is_nil (ins_elem c v es) = false.
Proof.
  destruct es as [| e tl]; simpl; [reflexivity |].
  destruct (col e <? c); [reflexivity |]. now destruct (col e =? c).
Qed.

Lemma del_at_nonempty (r c : Z) (l : list RowNode) :
  Forall (fun x => nonempty x = true) l ->
  emptied r (del_at r c l) = false ->
  Forall (fun x => nonempty x = true) (del_at r c l).
Proof.
  intros H. induction H as [| x tl Hx Htl IH]; simpl; [constructor |].
  unfold emptied. destruct (Z.ltb_spec (row x) r) as [Hlt | Hge]; simpl.
  - apply Z.ltb_lt in Hlt. rewrite Hlt. intros He. constructor; auto.
  - destruct (Z.eqb_spec (row x) r) as [E | E]; simpl.
    + apply Z.ltb_ge in Hge. rewrite Hge, E, Z.eqb_refl. simpl.
      intros He. constructor; [| exact Htl].
      unfold nonempty. simpl. now rewrite He.
    + intros _. now constructor.
Qed.

(** An [insert] that returns normally leaves no empty row behind. *)
Lemma insert_no_empty (m : SparseMatrix) (r c : Z) (v : float) :
  no_empty_row m = true ->
  fst (Matrice.insert m r c v) = Ok tt ->
  no_empty_row (snd (Matrice.insert m r c v)) = true.
Proof.
  unfold no_empty_row. fold nonempty. rewrite !forallb_Forall. intros Hne.
  destruct ((r <? 0) || (r >=? rows m)) eqn:Hr.
  - rewrite insert_row_range by exact Hr. discriminate.
  - destruct (is_zero v) eqn:Hv.
    + rewrite insert_zero by assumption. intros _. simpl.
      destruct (emptied r (del_at r c (rowList m))) eqn:He.
      * apply Forall_forall. intros x Hx. now apply filter_In in Hx.
      * now apply del_at_nonempty.
    + rewrite insert_nonzero by assumption.
      destruct ((c <? 0) || (c >=? cols m)); [discriminate |].
      intros _. simpl. apply upsert_Forall; [exact Hne | | reflexivity].
      intros x _ _. unfold nonempty. simpl.
      now rewrite ins_elem_nonempty.
Qed.

Lemma insert_into_Ok (m m' : SparseMatrix) (r c : Z) (v : float) :
  Matrice.insert_into m r c v = Ok m' ->
  fst (Matrice.insert m r c v) = Ok tt /\ m' = snd (Matrice.insert m r c v).
Proof.
  unfold Matrice.insert_into.
  destruct (Matrice.insert m r c v) as [[[] | e |] m1]; simpl;
    [| discriminate ..].
  intros [= <-]. now split.
Qed.

Lemma inserts_no_empty (ts : list (Z * Z * float)) (res res' : SparseMatrix) :
  for_each_triple (fun r c v res => Matrice.insert_into res r c v) ts res
  = Ok res' ->
  no_empty_row res = true -> no_empty_row res' = true.
Proof.
  revert res. induction ts as [| [[r c] v] tl IH]; simpl; intros res H Hne.
  - now injection H as <-.
  - destruct (Matrice.insert_into res r c v) as [res1 | |] eqn:E;
      simpl in H; [| discriminate ..].
    apply insert_into_Ok in E as [Hok ->].
    eapply IH; [exact H |]. now apply insert_no_empty.
Qed.

Lemma transpose_no_empty (M T : SparseMatrix) :
  Matrice.transpose M = Ok T -> no_empty_row T = true.
Proof.
  unfold Matrice.transpose.
  destruct (Matrice.construct (cols M) (rows M)) as [res | |] eqn:E;
    simpl; [| discriminate ..].
  rewrite for_each_row_triples.
  rewrite (for_each_triple_swap
             (fun r c v res => Matrice.insert_into res r c v)).
  intros H. eapply inserts_no_empty; [exact H |].
  unfold Matrice.construct in E.
  destruct ((cols M <=? 0) || (rows M <=? 0)); [discriminate |].
  now injection E as <-.
Qed.

Lemma rebuild_row (r : Z) (e : MatrixNode) (es : list MatrixNode)
  (ts : list (Z * Z * float)) :
  match rebuild ts with [] => True | x :: _ => row x <> r end ->
  rebuild (map (fun e => (r, col e, value e)) (e :: es) ++ ts)
  = {| row := r; elements := e :: es |} :: rebuild ts.
Proof.
  intros Hhd. revert e. induction es as [| e' tl IH]; intros e.
  - simpl. destruct (rebuild ts) as [| x rest]; destruct e; simpl;
      [reflexivity |].
    destruct (Z.eqb_spec (row x) r); [contradiction | reflexivity].
  - change (rebuild (map (fun e => (r, col e, value e)) (e :: e' :: tl) ++ ts))
      with (cons_triple (r, col e, value e)
              (rebuild (map (fun e => (r, col e, value e)) (e' :: tl) ++ ts))).
    rewrite IH. simpl. rewrite Z.eqb_refl. now destruct e.
Qed.

(** Without empty rows the row chain is determined by its traversal. *)
Lemma rebuild_triples (l : list RowNode) :
  ascending (map row l) = true ->
  Forall (fun x => nonempty x = true) l ->
  rebuild (triples l) = l.
Proof.
  intros Hr Hne. induction Hne as [| x tl Hx Htl IH]; [reflexivity |].
  apply ascending_keys in Hr as [H1 H2]. specialize (IH H2).
  simpl triples. destruct x as [r es]. simpl in *.
  destruct es as [| e es]; [discriminate |].
  rewrite rebuild_row, IH; [reflexivity |].
  rewrite IH. destruct tl as [| y rest]; [exact I |].
  inversion H1; subst. lia.
Qed.

(** [insert] never dereferences a null or dangling row pointer. *)
Lemma insert_defined (m : SparseMatrix) (r c : Z) (v : float) :
  fst (Matrice.insert m r c v) <> Undefined.
Proof.
  destruct ((r <? 0) || (r >=? rows m)) eqn:Hr.
  - now rewrite insert_row_range by exact Hr.
  - destruct (is_zero v) eqn:Hv.
    + now rewrite insert_zero by assumption.
    + rewrite insert_nonzero by assumption.
      now destruct ((c <? 0) || (c >=? cols m)).
Qed.

Lemma copy_elements_same (es : list MatrixNode) :
  Matrice.copy_elements es = es.
Proof.
  induction es as [| [c v] tl IH]; simpl; [reflexivity | now rewrite IH].
Qed.

Lemma copy_rows_same (l : list RowNode) : Matrice.copy_rows l = l.
Proof.
  induction l as [| [r es] tl IH]; simpl; [reflexivity |].
  now rewrite IH, copy_elements_same.
Qed.

(** ** When [insert] throws *)

Lemma insert_row_throws (m : SparseMatrix) (r c : Z) (v : float) :
  ~ 0 <= r < rows m ->
  Matrice.insert m r c v
  = (Throw (out_of_range "Row index out of range"), m).
Proof.
  intros H. apply insert_row_range.
  destruct ((r <? 0) || (r >=? rows m)) eqn:E; [reflexivity |].
  apply in_range_iff in E. contradiction.
Qed.

Lemma insert_column_throws (m : SparseMatrix) (r c : Z) (v : float) :
  0 <= r < rows m -> ~ 0 <= c < cols m -> is_zero v = false ->
  fst (Matrice.insert m r c v)
  = Throw (out_of_range "Column index out of range").
Proof.
  intros Hr Hc Hv. apply in_range_iff in Hr.
  rewrite insert_nonzero by assumption.
  destruct ((c <? 0) || (c >=? cols m)) eqn:E; [reflexivity |].
  apply in_range_iff in E. contradiction.
Qed.

(** A zero [insert] with its row in range returns normally, whatever the
    column is. *)
Lemma insert_zero_returns (m : SparseMatrix) (r c : Z) (v : float) :
  0 <= r < rows m -> is_zero v = true ->
  fst (Matrice.insert m r c v) = Ok tt.
Proof.
  intros Hr Hv. apply in_range_iff in Hr. now rewrite insert_zero.
Qed.

(** ** [operator=] between two objects, and without its guard *)

Lemma assign_copies (a b : nat) (h : heap) :
  a <> b ->
  Matrice.operator_assign a b h a = h b
  /\ forall x, x <> a -> Matrice.operator_assign a b h x = h x.
Proof.
  intros Hab. unfold Matrice.operator_assign, Matrice.assign_body, heap_set.
  apply Nat.eqb_neq in Hab. rewrite Hab. simpl. split.
  - rewrite Nat.eqb_refl. rewrite Nat.eqb_sym in Hab. rewrite Hab.
    rewrite copy_rows_same. now destruct (h b).
  - intros x Hx. apply Nat.eqb_neq in Hx. now rewrite Hx.
Qed.

(** The body of [operator=] run on one and the same object would leave it
    with no stored row: the guard is what keeps the data. *)
Lemma assign_body_self_clears (a : nat) (h : heap) :
  Matrice.assign_body a a h a
  = {| rows := rows (h a); cols := cols (h a); rowList := [] |}.
Proof.
  unfold Matrice.assign_body, heap_set. now rewrite Nat.eqb_refl.
Qed.

(** ** The scenario of [runTests] *)

Example scenario_add :
  Matrice.add M1 M2
  = Ok {| rows := 2; cols := 2;
          rowList :=
            [ {| row := 0;
                 elements := [ {| col := 0; value := 6 |};
                               {| col := 1; value := 8 |} ] |};
              {| row := 1;
                 elements := [ {| col := 0; value := 10 |};
                               {| col := 1; value := 12 |} ] |} ] |}.
Proof. reflexivity. Qed.

Example scenario_multiply :
  Matrice.multiply M1 M2
  = Ok {| rows := 2; cols := 2;
          rowList :=
            [ {| row := 0;
                 elements := [ {| col := 0; value := 19 |};
                               {| col := 1; value := 22 |} ] |};
              {| row := 1;
                 elements := [ {| col := 0; value := 43 |};
                               {| col := 1; value := 50 |} ] |} ] |}.
Proof. reflexivity. Qed.

Example scenario_determinant : Matrice.determinant M1 = Ok (-2)%float.
Proof. reflexivity. Qed.

Example scenario_insert_zero_on_empty :
  Matrice.insert m22 0 0 0%float = (Ok tt, m22)
  /\ Matrice.countNonZero m22 = 0.
Proof. split; reflexivity. Qed.

(** ** Counting the stored elements *)

Lemma fold_count (es : list MatrixNode) (count : Z) :
  fold_left (fun count _ => count + 1) es count
  = count + Z.of_nat (List.length es).
Proof.
  revert count. induction es as [| e tl IH]; intros count; simpl fold_left.
  - simpl. lia.
  - rewrite IH. simpl List.length. lia.
Qed.

Lemma countNonZero_rows_length (l : list RowNode) (count : Z) :
  Matrice.countNonZero_rows l count
  = count + Z.of_nat (List.length (triples l)).
Proof.
  revert count. induction l as [| x tl IH]; intros count; simpl.
  - lia.
  - rewrite IH, fold_count, length_app, length_map. lia.
Qed.

(** [countNonZero] counts the stored elements. *)
Lemma countNonZero_length (m : SparseMatrix) :
  Matrice.countNonZero m = Z.of_nat (List.length (triples (rowList m))).
Proof. unfold Matrice.countNonZero. now rewrite countNonZero_rows_length. Qed.

Lemma triples_filter_nonempty (l : list RowNode) :
  triples (filter nonempty l) = triples l.
Proof.
  induction l as [| x tl IH]; simpl; [reflexivity |].
  unfold nonempty at 1. destruct (elements x) eqn:E; simpl.
  - exact IH.
  - now rewrite E, IH.
Qed.

Lemma del_elem_length (c : Z) (es : list MatrixNode) :
  ascending (map col es) = true ->
  Z.of_nat (List.length (del_elem c es))
  = Z.of_nat (List.length es)
    - match lookup_elem c es with Some _ => 1 | None => 0 end.
Proof.
  induction es as [| e tl IH]; intros H; [reflexivity |].
  apply ascending_keys in H as [H1 H2]. specialize (IH H2).
  rewrite lookup_elem_cons. simpl del_elem.
  destruct (Z.eqb_spec (col e) c) as [E | E].
  - destruct (Z.ltb_spec (col e) c); [lia |]. simpl List.length. lia.
  - destruct (Z.ltb_spec (col e) c); simpl List.length; [lia |].
    rewrite lookup_elem_gt in IH; [lia |].
    eapply Forall_impl; [| exact H1]. simpl. intros; lia.
Qed.

Lemma del_at_length (r c : Z) (l : list RowNode) :
  ascending (map row l) = true ->
  Forall (fun x => ascending (map col (elements x)) = true) l ->
  Z.of_nat (List.length (triples (del_at r c l)))
  = Z.of_nat (List.length (triples l))
    - match lookup l r c with Some _ => 1 | None => 0 end.
Proof.
  intros Hr Hc. induction Hc as [| x tl Hx Htl IH]; [reflexivity |].
  apply ascending_keys in Hr as [H1 H2]. specialize (IH H2).
  rewrite lookup_cons. simpl del_at.
  destruct (Z.ltb_spec (row x) r).
  - simpl triples. rewrite !length_app. lia.
  - destruct (Z.eqb_spec (row x) r) as [E | E].
    + simpl triples. rewrite !length_app, !length_map.
      pose proof (del_elem_length c (elements x) Hx). lia.
    + lia.
Qed.

(** ** Matrices with the same cells *)

Lemma get_same_cells (S1 S2 : SparseMatrix) :
  rows S1 = rows S2 -> cols S1 = cols S2 ->
  (forall r c, cell S1 r c = cell S2 r c) ->
  forall r c, Matrice.get S1 r c = Matrice.get S2 r c.
Proof.
  intros Hr Hc Hcell r c.
  destruct ((r <? 0) || (r >=? rows S1) || (c <? 0) || (c >=? cols S1)) eqn:E.
  - unfold Matrice.get. rewrite <- Hr, <- Hc, E. reflexivity.
  - rewrite !orb_false_iff, !Z.ltb_ge, !Z.geb_leb, !Z.leb_gt in E.
    rewrite !get_cell, Hcell by lia. reflexivity.
Qed.

(** * The claims *)

(** C1 (the code departs from the claim).  On a fresh 2x2 matrix
    [insert(0, 5, 0.0)] returns normally and leaves the matrix as it was,
    although column 5 is out of range; the same call with the value [1.0]
    throws [out_of_range].  The zero branch of [insert] never looks at the
    column. *)
Theorem insert_zero_ignores_column :
  Matrice.insert m22 0 5 0%float = (Ok tt, m22)
  /\ fst (Matrice.insert m22 0 5 1%float)
     = Throw (out_of_range "Column index out of range").
Proof. split; reflexivity. Qed.

(** C2.  After any finite sequence of [insert] calls on a freshly
    constructed matrix, whatever each call was given and whatever it
    returned, the stored rows are strictly ascending by row index, no row
    index occurs twice, and in every stored row the elements are strictly
    ascending by column and no column occurs twice. *)
Theorem inserts_keep_order (r c : Z) (m : SparseMatrix)
  (ops : list (Z * Z * float)) :
  Matrice.construct r c = Ok m ->
  let m' := run_inserts ops m in
  StronglySorted Z.lt (map row (rowList m'))
  /\ NoDup (map row (rowList m'))
  /\ Forall (fun rn => StronglySorted Z.lt (map col (elements rn))
                       /\ NoDup (map col (elements rn)))
       (rowList m').
Proof.
  intros Hc m'. apply construct_wf in Hc as (Hwf & _).
  pose proof (run_inserts_wf ops m Hwf) as H. fold m' in H.
  pose proof (wf_rows_ascending m' H) as Hr.
  pose proof (wf_cols_ascending m' H) as Hcs.
  split; [now apply ascending_spec |].
  split; [now apply ascending_NoDup |].
  eapply Forall_impl; [| exact Hcs]. simpl. intros rn Hrn.
  split; [now apply ascending_spec | now apply ascending_NoDup].
Qed.

Lemma inserts_keep_order_witness :
  let m' := run_inserts ops22 m22 in
  StronglySorted Z.lt (map row (rowList m'))
  /\ NoDup (map row (rowList m'))
  /\ Forall (fun rn => StronglySorted Z.lt (map col (elements rn))
                       /\ NoDup (map col (elements rn)))
       (rowList m').
Proof. apply (inserts_keep_order 2 2 m22 ops22). reflexivity. Defined.

(** C3 (the code departs from the claim).  On a fresh 2x2 matrix
    [insert(0, 5, 1.0)] throws [out_of_range] for the column, and the row 0
    that [getRowNode] had created for the call stays in the row chain with
    no element. *)
Theorem failed_insert_leaves_empty_row :
  Matrice.insert m22 0 5 1%float
  = (Throw (out_of_range "Column index out of range"),
     {| rows := 2; cols := 2;
        rowList := [ {| row := 0; elements := [] |} ] |})
  /\ no_empty_row (snd (Matrice.insert m22 0 5 1%float)) = false.
Proof. split; reflexivity. Qed.

(** C4 as the spec states it fails for NaN: [|NaN| >= 1e-10] is false, yet
    [insert(0, 0, NaN)] on a fresh 2x2 matrix stores the value. *)
Lemma insert_nan_counterexample :
  ~ (let m' := snd (Matrice.insert m22 0 0 nan) in
     if is_nonzero nan then Matrice.get m' 0 0 = Ok nan
     else Matrice.get m' 0 0 = Ok 0%float
          /\ forall v', ~ In (0, 0, v') (triples (rowList m'))).
Proof.
  intros H. simpl in H. destruct H as [_ H]. apply (H nan). now left.
Qed.

(** C4, amended.  For a well-formed matrix and (r, c) in range,
    [insert(r, c, v)] returns normally.  If [|v| >= 1e-10] or v is NaN,
    [get(r, c)] returns [v] afterwards and the element (r, c, v) is stored;
    otherwise [get(r, c)] returns [0.0], no element is stored at (r, c) and
    [countNonZero] has gone down by one exactly when the cell held an
    element.  [countNonZero] is the number of stored elements. *)
Theorem insert_then_get (m : SparseMatrix) (r c : Z) (v : float) :
  wf m = true -> 0 <= r < rows m -> 0 <= c < cols m ->
  let m' := snd (Matrice.insert m r c v) in
  fst (Matrice.insert m r c v) = Ok tt
  /\ Matrice.countNonZero m' = Z.of_nat (List.length (triples (rowList m')))
  /\ if is_nonzero v || PrimFloat.is_nan v
     then Matrice.get m' r c = Ok v
          /\ In (r, c, v) (triples (rowList m'))
     else Matrice.get m' r c = Ok 0%float
          /\ (forall v', ~ In (r, c, v') (triples (rowList m')))
          /\ Matrice.countNonZero m'
             = Matrice.countNonZero m
               - match cell m r c with Some _ => 1 | None => 0 end.
Proof.
  intros Hwf Hr Hc m'.
  destruct (insert_cell m r c v Hwf Hr Hc) as [Hok Hcell]. fold m' in Hcell.
  pose proof (insert_wf m r c v Hwf) as Hwf'. fold m' in Hwf'.
  destruct (insert_dims m r c v) as [Hrows Hcols]. fold m' in Hrows, Hcols.
  specialize (Hcell r c). rewrite !Z.eqb_refl in Hcell. simpl in Hcell.
  assert (Hget : Matrice.get m' r c = Ok (val (norm v)))
    by (rewrite get_cell, Hcell by lia; reflexivity).
  assert (Hin : forall v', In (r, c, v') (triples (rowList m'))
                           <-> norm v = Some v').
  { intros v'. rewrite find_triple_In, wf_find_triple, Hcell by
      (try apply sorted_keys_NoDup; try apply wf_triples_sorted; exact Hwf').
    reflexivity. }
  split; [exact Hok |]. split; [apply countNonZero_length |].
  rewrite store_test. unfold norm in *. destruct (is_zero v) eqn:Hv; simpl negb.
  - split; [exact Hget |]. split.
    + intros v' Hv'. apply Hin in Hv'. discriminate.
    + rewrite !countNonZero_length. unfold m'.
      rewrite insert_zero by (try apply in_range_iff; assumption).
      simpl snd. cbv zeta. simpl rowList.
      replace (List.length (triples
                 (if emptied r (del_at r c (rowList m))
                  then filter nonempty (del_at r c (rowList m))
                  else del_at r c (rowList m))))
        with (List.length (triples (del_at r c (rowList m))))
        by (destruct (emptied r _);
            [now rewrite triples_filter_nonempty | reflexivity]).
      apply del_at_length;
        [now apply wf_rows_ascending | now apply wf_cols_ascending].
  - split; [exact Hget | now apply Hin].
Qed.

Lemma insert_then_get_witness :
  let m' := snd (Matrice.insert M1 1 0 0%float) in
  fst (Matrice.insert M1 1 0 0%float) = Ok tt
  /\ Matrice.countNonZero m' = Z.of_nat (List.length (triples (rowList m')))
  /\ if is_nonzero 0%float || PrimFloat.is_nan 0%float
     then Matrice.get m' 1 0 = Ok 0%float
          /\ In (1, 0, 0%float) (triples (rowList m'))
     else Matrice.get m' 1 0 = Ok 0%float
          /\ (forall v', ~ In (1, 0, v') (triples (rowList m')))
          /\ Matrice.countNonZero m'
             = Matrice.countNonZero M1
               - match cell M1 1 0 with Some _ => 1 | None => 0 end.
Proof.
  apply (insert_then_get M1 1 0 0%float); [reflexivity | simpl; lia ..].
Defined.

(** C5.  On every input the class of [src/test_matrix.cpp] and the class of
    [src/matrice.cpp] return the same from the constructor, [insert] (the
    same outcome and the same matrix afterwards), [get], [add],
    [scalarMultiply], [multiply] and [transpose]. *)
Theorem implementations_agree :
  (forall r c, TestMatrix.construct r c = Matrice.construct r c)
  /\ (forall m r c v, TestMatrix.insert m r c v = Matrice.insert m r c v)
  /\ (forall m r c, TestMatrix.get m r c = Matrice.get m r c)
  /\ (forall a b, TestMatrix.add a b = Matrice.add a b)
  /\ (forall m k, TestMatrix.scalarMultiply m k = Matrice.scalarMultiply m k)
  /\ (forall a b, TestMatrix.multiply a b = Matrice.multiply a b)
  /\ (forall m, TestMatrix.transpose m = Matrice.transpose m).
Proof. repeat split. Qed.

(** C6.  For well-formed matrices of identical dimensions [add(A, B)] and
    [add(B, A)] both return, and [get] returns the same on the two results
    for every (r, c); for matrices whose dimensions differ both calls throw
    the exception for mismatched dimensions. *)
Theorem add_commutes (A B : SparseMatrix) :
  wf A = true -> wf B = true ->
  (rows A = rows B /\ cols A = cols B ->
   exists S1 S2,
     Matrice.add A B = Ok S1 /\ Matrice.add B A = Ok S2
     /\ forall r c, Matrice.get S1 r c = Matrice.get S2 r c)
  /\ (~ (rows A = rows B /\ cols A = cols B) ->
      Matrice.add A B
      = Throw (invalid_argument "Matrix dimensions do not match for addition")
      /\ Matrice.add B A
         = Throw (invalid_argument
                    "Matrix dimensions do not match for addition")).
Proof.
  intros HA HB. split.
  - intros [Hr Hc].
    destruct (add_cells A B HA HB Hr Hc) as (S1 & H1 & _ & Hr1 & Hc1 & Hcell1).
    destruct (add_cells B A HB HA (eq_sym Hr) (eq_sym Hc))
      as (S2 & H2 & _ & Hr2 & Hc2 & Hcell2).
    exists S1, S2. split; [exact H1 |]. split; [exact H2 |].
    apply get_same_cells; [congruence | congruence |].
    intros r c. rewrite Hcell1, Hcell2.
    destruct (cell A r c) as [a |] eqn:Ea, (cell B r c) as [b |] eqn:Eb;
      simpl; try reflexivity.
    + now rewrite float_add_comm.
    + apply cell_Some_ok in Ea as (_ & _ & Hv); [| exact HA].
      rewrite add_zero_l by exact Hv. unfold norm. now rewrite Hv.
    + apply cell_Some_ok in Eb as (_ & _ & Hv); [| exact HB].
      rewrite add_zero_l by exact Hv. unfold norm. now rewrite Hv.
  - intros Hne. unfold Matrice.add.
    destruct (Z.eqb_spec (rows A) (rows B)) as [Hr | Hr],
             (Z.eqb_spec (cols A) (cols B)) as [Hc | Hc];
      try (exfalso; apply Hne; now split);
      destruct (Z.eqb_spec (rows B) (rows A)),
               (Z.eqb_spec (cols B) (cols A));
      simpl; try congruence; now split.
Qed.

Lemma add_commutes_witness :
  exists S1 S2,
    Matrice.add M1 M2 = Ok S1 /\ Matrice.add M2 M1 = Ok S2
    /\ forall r c, Matrice.get S1 r c = Matrice.get S2 r c.
Proof.
  apply (proj1 (add_commutes M1 M2 eq_refl eq_refl)). split; reflexivity.
Defined.

(** C7 as the spec states it fails when the difference is nonzero and
    below the threshold: with [1.0] in A and [1.0 + 2^-40] in B the cell of
    [subtract(A, B)] is dropped, so [get] returns [0.0] and not the
    difference [-2^-40]. *)
Lemma subtract_small_difference_counterexample :
  ~ (exists S a b,
       Matrice.subtract one11 near_one11 = Ok S
       /\ Matrice.get one11 0 0 = Ok a
       /\ Matrice.get near_one11 0 0 = Ok b
       /\ Matrice.get S 0 0 = Ok (a - b)%float).
Proof.
  intros (S & a & b & HS & Ha & Hb & Hg).
  vm_compute in HS, Ha, Hb.
  injection HS as <-. injection Ha as <-. injection Hb as <-.
  apply (f_equal (fun x => match x with
                           | Ok y => PrimFloat.ltb y 0
                           | _ => false
                           end)) in Hg.
  vm_compute in Hg. discriminate.
Qed.

(** C7, amended.  For well-formed matrices of identical dimensions and
    (r, c) in range, [subtract(A, B)] returns a well-formed matrix S.  When
    the magnitude of [A.get(r, c) - B.get(r, c)] is not below [1e-10], S
    stores exactly that difference at (r, c) and [get(r, c)] returns it;
    when it is below [1e-10], S stores no element at (r, c) and [get(r, c)]
    returns [0.0]. *)
Theorem subtract_get (A B : SparseMatrix) (r c : Z) :
  wf A = true -> wf B = true ->
  rows A = rows B -> cols A = cols B ->
  0 <= r < rows A -> 0 <= c < cols A ->
  exists S a b,
    Matrice.subtract A B = Ok S
    /\ Matrice.get A r c = Ok a
    /\ Matrice.get B r c = Ok b
    /\ Matrice.get S r c
       = Ok (if is_zero (a - b) then 0%float else (a - b)%float)
    /\ wf S = true
    /\ forall v, In (r, c, v) (triples (rowList S))
                 <-> is_zero (a - b) = false /\ v = (a - b)%float.
Proof.
  intros HA HB Hr Hc Hrr Hcc.
  destruct (subtract_cells A B HA HB Hr Hc)
    as (S & HS & HwfS & Hr1 & Hc1 & Hcell).
  exists S, (val (cell A r c)), (val (cell B r c)).
  assert (Hn : cell S r c = norm (val (cell A r c) - val (cell B r c))).
  { rewrite Hcell. destruct (cell B r c) as [b |] eqn:Eb; simpl;
      [reflexivity |].
    rewrite sub_zero_r.
    destruct (cell A r c) as [a |] eqn:Ea; simpl; [| reflexivity].
    apply cell_Some_ok in Ea as (_ & _ & Hv); [| exact HA].
    unfold norm. now rewrite Hv. }
  split; [exact HS |].
  rewrite !get_cell by lia.
  split; [reflexivity |]. split; [reflexivity |]. split.
  - rewrite Hn. unfold norm. now destruct (is_zero _).
  - split; [exact HwfS |]. intros v.
    rewrite find_triple_In
      by (apply sorted_keys_NoDup; now apply wf_triples_sorted).
    rewrite wf_find_triple, Hn by exact HwfS. unfold norm.
    destruct (is_zero _); split.
    + discriminate.
    + now intros [H _].
    + intros H. split; [reflexivity | congruence].
    + intros [_ ->]. reflexivity.
Qed.

Lemma subtract_get_witness :
  exists S a b,
    Matrice.subtract one11 near_one11 = Ok S
    /\ Matrice.get one11 0 0 = Ok a
    /\ Matrice.get near_one11 0 0 = Ok b
    /\ Matrice.get S 0 0
       = Ok (if is_zero (a - b) then 0%float else (a - b)%float)
    /\ wf S = true
    /\ forall v, In (0, 0, v) (triples (rowList S))
                 <-> is_zero (a - b) = false /\ v = (a - b)%float.
Proof.
  apply (subtract_get one11 near_one11 0 0);
    [reflexivity | reflexivity | reflexivity | reflexivity
    | simpl; lia | simpl; lia].
Defined.

(** C8.  For a well-formed matrix M, [transpose] returns on M and on the
    result, and the second result has the dimensions of M and the same
    stored elements (row, column, value) in the same order; when M has no
    empty row, the second result is M itself, field by field. *)
Theorem transpose_involutive (M : SparseMatrix) :
  wf M = true ->
  exists T TT,
    Matrice.transpose M = Ok T /\ Matrice.transpose T = Ok TT
    /\ rows TT = rows M /\ cols TT = cols M
    /\ triples (rowList TT) = triples (rowList M)
    /\ (no_empty_row M = true -> TT = M).
Proof.
  intros HM.
  destruct (transpose_cells M HM) as (T & HT & HwfT & Hr1 & Hc1 & Hcell1).
  destruct (transpose_cells T HwfT) as (TT & HTT & HwfTT & Hr2 & Hc2 & Hcell2).
  assert (Htr : triples (rowList TT) = triples (rowList M)).
  { apply sorted_triples_ext; [now apply wf_triples_sorted .. |].
    intros [[r c] v].
    rewrite !find_triple_In, !wf_find_triple, Hcell2, Hcell1 by
      (try apply sorted_keys_NoDup; try apply wf_triples_sorted; assumption).
    reflexivity. }
  exists T, TT.
  repeat split; [exact HT | exact HTT | congruence | congruence | exact Htr |].
  intros Hne. pose proof (transpose_no_empty T TT HTT) as Hne'.
  unfold no_empty_row in Hne, Hne'. fold nonempty in Hne, Hne'.
  apply forallb_Forall in Hne, Hne'.
  assert (Hl : rowList TT = rowList M).
  { rewrite <- (rebuild_triples (rowList TT)), <- (rebuild_triples (rowList M)),
      Htr by (try apply wf_rows_ascending; assumption).
    reflexivity. }
  destruct TT, M. simpl in *. congruence.
Qed.

Lemma transpose_involutive_witness :
  exists T TT,
    Matrice.transpose T1 = Ok T /\ Matrice.transpose T = Ok TT
    /\ rows TT = rows T1 /\ cols TT = cols T1
    /\ triples (rowList TT) = triples (rowList T1)
    /\ (no_empty_row T1 = true -> TT = T1).
Proof. apply (transpose_involutive T1). reflexivity. Defined.

(** C9.  [determinant] throws unless the matrix is square; for order 1 it
    returns [get(0,0)], for order 2 [get(0,0)*get(1,1) - get(0,1)*get(1,0)],
    for order 3 the cofactor expansion along the first row of the nine
    cells read by [get], and for every square matrix of order 4 or more it
    throws the exception for an unsupported size. *)
Theorem determinant_cases (M : SparseMatrix) :
  (rows M <> cols M ->
   Matrice.determinant M
   = Throw (invalid_argument
              "Matrix must be square to calculate determinant"))
  /\ (rows M = 1 -> cols M = 1 ->
      exists a, Matrice.get M 0 0 = Ok a /\ Matrice.determinant M = Ok a)
  /\ (rows M = 2 -> cols M = 2 ->
      exists a b c d,
        Matrice.get M 0 0 = Ok a /\ Matrice.get M 0 1 = Ok b
        /\ Matrice.get M 1 0 = Ok c /\ Matrice.get M 1 1 = Ok d
        /\ Matrice.determinant M = Ok (a * d - b * c)%float)
  /\ (rows M = 3 -> cols M = 3 ->
      exists a b c d e f g h i,
        Matrice.get M 0 0 = Ok a /\ Matrice.get M 0 1 = Ok b
        /\ Matrice.get M 0 2 = Ok c /\ Matrice.get M 1 0 = Ok d
        /\ Matrice.get M 1 1 = Ok e /\ Matrice.get M 1 2 = Ok f
        /\ Matrice.get M 2 0 = Ok g /\ Matrice.get M 2 1 = Ok h
        /\ Matrice.get M 2 2 = Ok i
        /\ Matrice.determinant M
           = Ok (a * (e * i - f * h) - b * (d * i - f * g)
                 + c * (d * h - e * g))%float)
  /\ (rows M = cols M -> 4 <= rows M ->
      Matrice.determinant M
      = Throw (invalid_argument
                 "Determinant calculation for matrices larger than 3x3 not implemented")).
Proof.
  unfold Matrice.determinant. repeat split.
  - intros H. apply Z.eqb_neq in H. now rewrite H.
  - intros Hr Hc. rewrite Hr, Hc. simpl.
    exists (val (cell M 0 0)). rewrite get_cell by lia. now split.
  - intros Hr Hc. rewrite Hr, Hc. simpl.
    exists (val (cell M 0 0)), (val (cell M 0 1)),
      (val (cell M 1 0)), (val (cell M 1 1)).
    rewrite !get_cell by lia. simpl. repeat split.
  - intros Hr Hc. rewrite Hr, Hc. simpl.
    exists (val (cell M 0 0)), (val (cell M 0 1)), (val (cell M 0 2)),
      (val (cell M 1 0)), (val (cell M 1 1)), (val (cell M 1 2)),
      (val (cell M 2 0)), (val (cell M 2 1)), (val (cell M 2 2)).
    rewrite !get_cell by lia. simpl. repeat split.
  - intros Hs H4. rewrite <- Hs, Z.eqb_refl. simpl.
    destruct (Z.eqb_spec (rows M) 1); [lia |].
    destruct (Z.eqb_spec (rows M) 2); [lia |].
    destruct (Z.eqb_spec (rows M) 3); [lia |]. reflexivity.
Qed.

Lemma determinant_cases_witness :
  exists a b c d,
    Matrice.get M1 0 0 = Ok a /\ Matrice.get M1 0 1 = Ok b
    /\ Matrice.get M1 1 0 = Ok c /\ Matrice.get M1 1 1 = Ok d
    /\ Matrice.determinant M1 = Ok (a * d - b * c)%float.
Proof.
  apply (proj1 (proj2 (proj2 (determinant_cases M1)))); reflexivity.
Defined.

(** C10.  In both files [operator=] applied to one and the same object
    leaves the heap as it is: the dimensions, the rows and the elements of
    the object are those it had before. *)
Theorem self_assignment (a : nat) (h : heap) :
  Matrice.operator_assign a a h = h
  /\ TestMatrix.operator_assign a a h = h.
Proof.
  unfold Matrice.operator_assign, TestMatrix.operator_assign.
  now rewrite Nat.eqb_refl.
Qed.

(** * Further properties of the code *)

(** ** [insert] and [get] *)

Lemma lookup_ins_row (r : Z) (l : list RowNode) (r' c' : Z) :
  lookup (ins_row r l) r' c' = lookup l r' c'.
Proof.
  induction l as [| x tl IH]; simpl.
  - rewrite lookup_cons. cbn [row elements]. unfold lookup_elem, lookup. simpl.
    cmp.
  - destruct (Z.ltb_spec (row x) r).
    + rewrite !lookup_cons, IH. reflexivity.
    + destruct (Z.eqb_spec (row x) r); [reflexivity |].
      rewrite (lookup_cons r' c' {| row := r; elements := [] |}).
      cbn [row elements]. rewrite lookup_cons. unfold lookup_elem. simpl. cmp.
Qed.

Lemma triples_ins_row (r : Z) (l : list RowNode) :
  triples (ins_row r l) = triples l.
Proof.
  induction l as [| x tl IH]; simpl; [reflexivity |].
  destruct (row x <? r); simpl; [now rewrite IH |].
  now destruct (row x =? r).
Qed.

Lemma is_zero_zero : is_zero 0%float = true.
Proof. reflexivity. Qed.

(** Equal [get]s mean equal stored cells. *)
Lemma cells_from_get (m1 m2 : SparseMatrix) :
  wf m1 = true -> wf m2 = true ->
  rows m1 = rows m2 -> cols m1 = cols m2 ->
  (forall r c, in_bounds m1 r c -> Matrice.get m1 r c = Matrice.get m2 r c) ->
  forall r c, cell m1 r c = cell m2 r c.
Proof.
  intros H1 H2 Hr Hc Hget r c.
  destruct (cell m1 r c) as [v1 |] eqn:E1, (cell m2 r c) as [v2 |] eqn:E2;
    try reflexivity.
  - destruct (cell_Some_ok m1 r c v1 H1 E1) as (Hr1 & Hc1 & _).
    specialize (Hget r c (conj Hr1 Hc1)).
    rewrite !get_cell, E1, E2 in Hget by lia. simpl in Hget. congruence.
  - destruct (cell_Some_ok m1 r c v1 H1 E1) as (Hr1 & Hc1 & Hv).
    specialize (Hget r c (conj Hr1 Hc1)).
    rewrite !get_cell, E1, E2 in Hget by lia. simpl in Hget.
    assert (v1 = 0%float) by congruence. subst v1.
    rewrite is_zero_zero in Hv. discriminate.
  - destruct (cell_Some_ok m2 r c v2 H2 E2) as (Hr2 & Hc2 & Hv).
    specialize (Hget r c (conj (eq_ind_r (fun n => 0 <= r < n) Hr2 Hr)
                               (eq_ind_r (fun n => 0 <= c < n) Hc2 Hc))).
    rewrite !get_cell, E1, E2 in Hget by lia. simpl in Hget.
    assert (v2 = 0%float) by congruence. subst v2.
    rewrite is_zero_zero in Hv. discriminate.
Qed.

(** Without empty rows the storage is determined by the cells. *)
Lemma wf_ext (m1 m2 : SparseMatrix) :
  wf m1 = true -> wf m2 = true ->
  no_empty_row m1 = true -> no_empty_row m2 = true ->
  rows m1 = rows m2 -> cols m1 = cols m2 ->
  (forall r c, cell m1 r c = cell m2 r c) ->
  m1 = m2.
Proof.
  intros H1 H2 Hn1 Hn2 Hr Hc Hcell.
  unfold no_empty_row in Hn1, Hn2. fold nonempty in Hn1, Hn2.
  apply forallb_Forall in Hn1, Hn2.
  assert (Htr : triples (rowList m1) = triples (rowList m2)).
  { apply sorted_triples_ext; [now apply wf_triples_sorted .. |].
    intros [[r c] v].
    rewrite !find_triple_In, !wf_find_triple, Hcell by
      (try apply sorted_keys_NoDup; try apply wf_triples_sorted; assumption).
    reflexivity. }
  assert (Hl : rowList m1 = rowList m2).
  { rewrite <- (rebuild_triples (rowList m1)), <- (rebuild_triples (rowList m2)),
      Htr by (try apply wf_rows_ascending; assumption).
    reflexivity. }
  destruct m1, m2. simpl in *. congruence.
Qed.

Lemma run_inserts_dims (ops : list (Z * Z * float)) (m : SparseMatrix) :
  rows (run_inserts ops m) = rows m /\ cols (run_inserts ops m) = cols m.
Proof.
  revert m. induction ops as [| [[r c] v] tl IH]; intros m; [now split |].
  simpl. destruct (IH (snd (Matrice.insert m r c v))) as [H1 H2].
  destruct (insert_dims m r c v) as [H3 H4]. split; congruence.
Qed.

Lemma run_inserts_cells (ops : list (Z * Z * float)) (m : SparseMatrix) :
  wf m = true ->
  Forall (fun t => in_bounds m (fst (key t)) (snd (key t))) ops ->
  forall r c, cell (run_inserts ops m) r c = written r c ops (cell m r c).
Proof.
  revert m. induction ops as [| [[r0 c0] v0] tl IH]; intros m Hwf Hops r c;
    [reflexivity |].
  inversion Hops as [| t ts [Hr0 Hc0] Htl]; subst. simpl in Hr0, Hc0.
  destruct (insert_cell m r0 c0 v0 Hwf Hr0 Hc0) as [_ Hcell].
  destruct (insert_dims m r0 c0 v0) as [Hrows Hcols].
  simpl. rewrite IH.
  - rewrite Hcell. f_equal.
    destruct (Z.eqb_spec r r0), (Z.eqb_spec c c0),
             (Z.eqb_spec r0 r), (Z.eqb_spec c0 c); simpl; congruence.
  - now apply insert_wf.
  - eapply Forall_impl; [| exact Htl]. unfold in_bounds.
    intros t Ht. now rewrite Hrows, Hcols.
Qed.

Lemma get_out_of_bounds (m : SparseMatrix) (r c : Z) :
  ~ in_bounds m r c ->
  Matrice.get m r c = Throw (out_of_range "Index out of range").
Proof.
  intros H. unfold Matrice.get.
  destruct ((r <? 0) || (r >=? rows m) || (c <? 0) || (c >=? cols m)) eqn:E;
    [reflexivity |].
  rewrite !orb_false_iff, !Z.ltb_ge, !Z.geb_leb, !Z.leb_gt in E.
  exfalso. apply H. unfold in_bounds. lia.
Qed.

(** X1.  After any sequence of [insert] calls on a freshly constructed
    matrix, whatever they returned, the dimensions are those given to the
    constructor, every stored element has its row and column in range and a
    value that is not below the threshold, and [get] returns either [0.0]
    or a value that is not below the threshold. *)
Theorem inserts_keep_bounds_and_threshold (R C : Z) (m : SparseMatrix)
  (ops : list (Z * Z * float)) :
  Matrice.construct R C = Ok m ->
  let m' := run_inserts ops m in
  rows m' = R /\ cols m' = C
  /\ Forall (fun t => (0 <= fst (key t) < R /\ 0 <= snd (key t) < C)
                      /\ is_zero (snd t) = false)
       (triples (rowList m'))
  /\ forall r c v, Matrice.get m' r c = Ok v ->
                   v = 0%float \/ is_zero v = false.
Proof.
  intros Hc m'. apply construct_wf in Hc as (Hwf & Hr & Hcl & _).
  pose proof (run_inserts_wf ops m Hwf) as H. fold m' in H.
  destruct (run_inserts_dims ops m) as [Hr' Hc']. fold m' in Hr', Hc'.
  split; [congruence |]. split; [congruence |]. split.
  - pose proof (wf_triples_ok m' H) as Hok.
    rewrite Hr', Hc', Hr, Hcl in Hok. exact Hok.
  - intros r c v Hget.
    destruct ((r <? 0) || (r >=? rows m') || (c <? 0) || (c >=? cols m'))
      eqn:E.
    + unfold Matrice.get in Hget. rewrite E in Hget. discriminate.
    + rewrite !orb_false_iff, !Z.ltb_ge, !Z.geb_leb, !Z.leb_gt in E.
      rewrite get_cell in Hget by lia. injection Hget as <-.
      destruct (cell m' r c) as [v |] eqn:Ev; [right | now left].
      now apply cell_Some_ok in Ev.
Qed.

Lemma inserts_keep_bounds_and_threshold_witness :
  let m' := run_inserts ops22 m22 in
  rows m' = 2 /\ cols m' = 2
  /\ Forall (fun t => (0 <= fst (key t) < 2 /\ 0 <= snd (key t) < 2)
                      /\ is_zero (snd t) = false)
       (triples (rowList m'))
  /\ forall r c v, Matrice.get m' r c = Ok v ->
                   v = 0%float \/ is_zero v = false.
Proof.
  apply (inserts_keep_bounds_and_threshold 2 2 m22 ops22). reflexivity.
Defined.

(** X2.  When no stored row is empty, an [insert] that returns normally
    leaves no empty row: a zero store that takes the last element of a row
    removes the row. *)
Theorem insert_keeps_rows_nonempty (m : SparseMatrix) (r c : Z) (v : float) :
  no_empty_row m = true ->
  fst (Matrice.insert m r c v) = Ok tt ->
  no_empty_row (snd (Matrice.insert m r c v)) = true.
Proof. apply insert_no_empty. Qed.

Lemma insert_keeps_rows_nonempty_witness :
  no_empty_row (snd (Matrice.insert T1 2 1 0%float)) = true.
Proof.
  apply (insert_keeps_rows_nonempty T1 2 1 0%float); reflexivity.
Defined.

(** X3.  An [insert] that throws changes nothing that can be read back:
    [get] returns for every (r', c') what it returned before, and
    [countNonZero] is as before. *)
Theorem failed_insert_reads_unchanged (m : SparseMatrix) (r c : Z)
  (v : float) (e : exn) :
  fst (Matrice.insert m r c v) = Throw e ->
  (forall r' c', Matrice.get (snd (Matrice.insert m r c v)) r' c'
                 = Matrice.get m r' c')
  /\ Matrice.countNonZero (snd (Matrice.insert m r c v))
     = Matrice.countNonZero m.
Proof.
  destruct ((r <? 0) || (r >=? rows m)) eqn:Hr.
  - rewrite insert_row_range by exact Hr. now split.
  - destruct (is_zero v) eqn:Hv.
    + rewrite insert_zero by assumption. discriminate.
    + rewrite insert_nonzero by assumption.
      destruct ((c <? 0) || (c >=? cols m)); [| discriminate].
      intros _. simpl snd. split.
      * apply get_same_cells; [reflexivity | reflexivity |].
        intros r' c'. apply lookup_ins_row.
      * rewrite !countNonZero_length. simpl rowList.
        now rewrite triples_ins_row.
Qed.

Lemma failed_insert_reads_unchanged_witness :
  (forall r' c', Matrice.get (snd (Matrice.insert M1 0 5 1%float)) r' c'
                 = Matrice.get M1 r' c')
  /\ Matrice.countNonZero (snd (Matrice.insert M1 0 5 1%float))
     = Matrice.countNonZero M1.
Proof.
  apply (failed_insert_reads_unchanged M1 0 5 1%float
           (out_of_range "Column index out of range")).
  reflexivity.
Defined.

(** X4.  After a sequence of [insert] calls with all indices in range on a
    freshly constructed matrix, [get(r, c)] returns the value of the last
    call made on (r, c), or [0.0] if that value was below the threshold or
    no call was made on the cell. *)
Theorem last_insert_wins (R C : Z) (m : SparseMatrix)
  (ops : list (Z * Z * float)) (r c : Z) :
  Matrice.construct R C = Ok m ->
  Forall (fun t => 0 <= fst (key t) < R /\ 0 <= snd (key t) < C) ops ->
  0 <= r < R -> 0 <= c < C ->
  Matrice.get (run_inserts ops m) r c = Ok (val (written r c ops None)).
Proof.
  intros Hc Hops Hr Hcl. apply construct_wf in Hc as (Hwf & Hrows & Hcols & Hl).
  destruct (run_inserts_dims ops m) as [Hr' Hc'].
  rewrite get_cell by lia. rewrite run_inserts_cells.
  - unfold cell. now rewrite Hl.
  - exact Hwf.
  - unfold in_bounds. now rewrite Hrows, Hcols.
Qed.

Lemma last_insert_wins_witness :
  Matrice.get (run_inserts ops_in22 m22) 1 1
  = Ok (val (written 1 1 ops_in22 None)).
Proof.
  apply (last_insert_wins 2 2 m22 ops_in22 1 1);
    [reflexivity | | lia | lia].
  repeat constructor; simpl; lia.
Defined.

Lemma ins_elem_length (c : Z) (v : float) (es : list MatrixNode) :
  Z.of_nat (List.length (ins_elem c v es))
  = Z.of_nat (List.length es)
    + match lookup_elem c es with Some _ => 0 | None => 1 end.
Proof.
  induction es as [| e tl IH]; [reflexivity |].
  rewrite lookup_elem_cons. simpl ins_elem.
  destruct (Z.ltb_spec (col e) c); [simpl List.length; lia |].
  destruct (Z.eqb_spec (col e) c); simpl List.length; lia.
Qed.

Lemma upsert_length (r c : Z) (v : float) (l : list RowNode) :
  Z.of_nat (List.length (triples (upsert r c v l)))
  = Z.of_nat (List.length (triples l))
    + match lookup l r c with Some _ => 0 | None => 1 end.
Proof.
  induction l as [| x tl IH]; [reflexivity |].
  rewrite lookup_cons. simpl upsert.
  destruct (Z.ltb_spec (row x) r).
  - simpl triples. rewrite !length_app. lia.
  - destruct (Z.eqb_spec (row x) r).
    + simpl triples. rewrite !length_app, !length_map.
      pose proof (ins_elem_length c v (elements x)). lia.
    + simpl triples. simpl List.length. rewrite !length_app. lia.
Qed.

(** X5.  An [insert] with both indices in range changes [countNonZero] by
    plus one when it stores into a cell that held nothing, by minus one
    when it removes a stored element, and not at all when it overwrites a
    stored element or removes from a cell that held nothing. *)
Theorem insert_count (m : SparseMatrix) (r c : Z) (v : float) :
  wf m = true -> 0 <= r < rows m -> 0 <= c < cols m ->
  Matrice.countNonZero (snd (Matrice.insert m r c v))
  = Matrice.countNonZero m
    + match cell m r c, norm v with
      | None, Some _ => 1
      | Some _, None => -1
      | _, _ => 0
      end.
Proof.
  intros Hwf Hr Hc. apply in_range_iff in Hr. apply in_range_iff in Hc.
  rewrite !countNonZero_length. unfold norm, cell.
  destruct (is_zero v) eqn:Hv.
  - rewrite insert_zero by assumption. simpl snd. cbv zeta. simpl rowList.
    replace (List.length (triples
               (if emptied r (del_at r c (rowList m))
                then filter nonempty (del_at r c (rowList m))
                else del_at r c (rowList m))))
      with (List.length (triples (del_at r c (rowList m))))
      by (destruct (emptied r _);
          [now rewrite triples_filter_nonempty | reflexivity]).
    rewrite del_at_length
      by (try apply wf_rows_ascending; try apply wf_cols_ascending; exact Hwf).
    destruct (lookup (rowList m) r c); lia.
  - rewrite insert_nonzero, Hc by assumption. simpl snd. simpl rowList.
    rewrite upsert_length. destruct (lookup (rowList m) r c); lia.
Qed.

Lemma insert_count_witness :
  Matrice.countNonZero (snd (Matrice.insert T1 1 1 5%float))
  = Matrice.countNonZero T1
    + match cell T1 1 1, norm 5%float with
      | None, Some _ => 1
      | Some _, None => -1
      | _, _ => 0
      end.
Proof. apply (insert_count T1 1 1 5%float); [reflexivity | simpl; lia ..]. Defined.

(** X6.  The storage is canonical: two well-formed matrices without empty
    rows that have the same dimensions and return the same from [get] at
    every cell in range are the same matrix, row by row and element by
    element. *)
Theorem canonical_storage (m1 m2 : SparseMatrix) :
  wf m1 = true -> wf m2 = true ->
  no_empty_row m1 = true -> no_empty_row m2 = true ->
  rows m1 = rows m2 -> cols m1 = cols m2 ->
  (forall r c, in_bounds m1 r c -> Matrice.get m1 r c = Matrice.get m2 r c) ->
  m1 = m2.
Proof.
  intros H1 H2 Hn1 Hn2 Hr Hc Hget.
  apply wf_ext; try assumption. now apply cells_from_get.
Qed.

Lemma canonical_storage_witness :
  M1 = run_inserts [ (1, 1, 4%float); (0, 1, 2%float); (1, 0, 3%float);
                     (0, 0, 1%float) ] m22.
Proof.
  apply canonical_storage; reflexivity.
Defined.

Lemma ins_elem_twice (c : Z) (v : float) (es : list MatrixNode) :
  ins_elem c v (ins_elem c v es) = ins_elem c v es.
Proof.
  induction es as [| e tl IH]; simpl.
  - rewrite Z.ltb_irrefl, Z.eqb_refl. reflexivity.
  - destruct (col e <? c) eqn:H1; simpl.
    + now rewrite H1, IH.
    + destruct (col e =? c) eqn:H2; simpl;
        now rewrite Z.ltb_irrefl, Z.eqb_refl.
Qed.

Lemma upsert_twice (r c : Z) (v : float) (l : list RowNode) :
  upsert r c v (upsert r c v l) = upsert r c v l.
Proof.
  induction l as [| x tl IH]; simpl.
  - rewrite Z.ltb_irrefl, Z.eqb_refl. simpl.
    now rewrite Z.ltb_irrefl, Z.eqb_refl.
  - destruct (row x <? r) eqn:H1; simpl.
    + now rewrite H1, IH.
    + destruct (row x =? r) eqn:H2; simpl.
      * now rewrite H1, H2, ins_elem_twice.
      * rewrite Z.ltb_irrefl, Z.eqb_refl. simpl.
        now rewrite Z.ltb_irrefl, Z.eqb_refl.
Qed.

Lemma ins_row_twice (r : Z) (l : list RowNode) :
  ins_row r (ins_row r l) = ins_row r l.
Proof.
  induction l as [| x tl IH]; simpl.
  - now rewrite Z.ltb_irrefl, Z.eqb_refl.
  - destruct (row x <? r) eqn:H1; simpl.
    + now rewrite H1, IH.
    + destruct (row x =? r) eqn:H2; simpl.
      * now rewrite H1, H2.
      * now rewrite Z.ltb_irrefl, Z.eqb_refl.
Qed.

Lemma del_elem_absent (c : Z) (es : list MatrixNode) :
  ascending (map col es) = true -> lookup_elem c es = None ->
  del_elem c es = es.
Proof.
  induction es as [| e tl IH]; intros H Hl; [reflexivity |].
  apply ascending_keys in H as [H1 H2]. rewrite lookup_elem_cons in Hl.
  simpl. destruct (Z.eqb_spec (col e) c) as [E | E].
  - destruct (Z.ltb_spec (col e) c); [lia | discriminate].
  - f_equal. destruct (Z.ltb_spec (col e) c); [now apply IH |].
    apply IH; [exact H2 |]. apply lookup_elem_gt.
    eapply Forall_impl; [| exact H1]. simpl. intros; lia.
Qed.

Lemma del_at_absent (r c : Z) (l : list RowNode) :
  Forall (fun x => ascending (map col (elements x)) = true) l ->
  lookup l r c = None ->
  del_at r c l = l.
Proof.
  intros H. induction H as [| x tl Hx Htl IH]; intros Hl; [reflexivity |].
  rewrite lookup_cons in Hl. simpl.
  destruct (Z.ltb_spec (row x) r); [now rewrite IH |].
  destruct (Z.eqb_spec (row x) r); [| reflexivity].
  rewrite del_elem_absent by assumption. now destruct x.
Qed.

Lemma emptied_nonempty (r : Z) (l : list RowNode) :
  Forall (fun x => nonempty x = true) l -> emptied r l = false.
Proof.
  intros H. unfold emptied. induction H as [| x tl Hx Htl IH]; simpl;
    [reflexivity |].
  destruct (row x <? r); [exact IH |].
  unfold nonempty in Hx. apply negb_true_iff in Hx. rewrite Hx.
  apply andb_false_r.
Qed.

(** X7.  [insert] is idempotent on a well-formed matrix: a second call with
    the same arguments returns what the first returned and leaves the
    matrix as the first left it.  This holds for every (r, c, v), also when
    the calls throw. *)
Theorem insert_twice (m : SparseMatrix) (r c : Z) (v : float) :
  wf m = true ->
  Matrice.insert (snd (Matrice.insert m r c v)) r c v
  = Matrice.insert m r c v.
Proof.
  intros Hwf.
  destruct ((r <? 0) || (r >=? rows m)) eqn:Hr.
  - rewrite (insert_row_range m) by exact Hr. simpl snd.
    now rewrite insert_row_range.
  - destruct (is_zero v) eqn:Hv.
    + rewrite (insert_zero m) by assumption. simpl snd. cbv zeta.
      set (l1 := del_at r c (rowList m)).
      set (l' := if emptied r l1 then filter nonempty l1 else l1).
      rewrite insert_zero by assumption. simpl rowList. cbv zeta.
      assert (Hcols : Forall (fun x => ascending (map col (elements x)) = true)
                        l1).
      { apply del_at_Forall; [now apply wf_cols_ascending |].
        intros x Hx. simpl. now apply del_elem_ascending. }
      assert (Hrows : ascending (map row l1) = true)
        by (unfold l1; rewrite del_at_rows; now apply wf_rows_ascending).
      assert (Hl1 : lookup l1 r c = None).
      { unfold l1. rewrite lookup_del_at by now apply wf_cols_ascending.
        now rewrite !Z.eqb_refl. }
      assert (Hdel : del_at r c l' = l').
      { unfold l'. destruct (emptied r l1).
        - apply del_at_absent.
          + now apply Forall_filter_keep.
          + now rewrite lookup_filter_nonempty.
        - now apply del_at_absent. }
      rewrite Hdel.
      assert (He : emptied r l' = false).
      { unfold l'. destruct (emptied r l1) eqn:E; [| exact E].
        apply emptied_nonempty. apply Forall_forall.
        intros x Hx. now apply filter_In in Hx. }
      rewrite He. reflexivity.
    + rewrite (insert_nonzero m) by assumption.
      destruct ((c <? 0) || (c >=? cols m)) eqn:Hc; simpl snd;
        rewrite insert_nonzero by assumption; simpl cols; rewrite Hc;
        simpl rowList; unfold set_rowList; simpl.
      * now rewrite ins_row_twice.
      * now rewrite upsert_twice.
Qed.

Lemma insert_twice_witness :
  Matrice.insert (snd (Matrice.insert T1 0 2 0%float)) 0 2 0%float
  = Matrice.insert T1 0 2 0%float.
Proof. apply (insert_twice T1 0 2 0%float). reflexivity. Defined.

Lemma get_zero_absent (m : SparseMatrix) (r c : Z) :
  wf m = true -> Matrice.get m r c = Ok 0%float -> in_bounds m r c ->
  cell m r c = None.
Proof.
  intros Hwf Hget [Hr Hc]. rewrite get_cell in Hget by assumption.
  destruct (cell m r c) as [v |] eqn:E; [| reflexivity].
  apply cell_Some_ok in E as (_ & _ & Hv); [| exact Hwf].
  simpl in Hget. assert (v = 0%float) by congruence. subst v.
  rewrite is_zero_zero in Hv. discriminate.
Qed.

(** What two [insert] calls in range leave behind. *)
Lemma insert_insert (m : SparseMatrix) (r1 c1 r2 c2 : Z) (v1 v2 : float) :
  wf m = true -> no_empty_row m = true ->
  in_bounds m r1 c1 -> in_bounds m r2 c2 ->
  let m2 := snd (Matrice.insert (snd (Matrice.insert m r1 c1 v1)) r2 c2 v2) in
  wf m2 = true /\ no_empty_row m2 = true
  /\ rows m2 = rows m /\ cols m2 = cols m
  /\ forall r c,
       cell m2 r c
       = if (r =? r2) && (c =? c2) then norm v2
         else if (r =? r1) && (c =? c1) then norm v1
              else cell m r c.
Proof.
  intros Hwf Hne [Hr1 Hc1] [Hr2 Hc2].
  destruct (insert_cell m r1 c1 v1 Hwf Hr1 Hc1) as [Hok1 Hcell1].
  pose proof (insert_wf m r1 c1 v1 Hwf) as Hwf1.
  pose proof (insert_no_empty m r1 c1 v1 Hne Hok1) as Hne1.
  destruct (insert_dims m r1 c1 v1) as [Hrows1 Hcols1].
  set (m1 := snd (Matrice.insert m r1 c1 v1)) in *.
  assert (Hr2' : 0 <= r2 < rows m1) by lia.
  assert (Hc2' : 0 <= c2 < cols m1) by lia.
  destruct (insert_cell m1 r2 c2 v2 Hwf1 Hr2' Hc2') as [Hok2 Hcell2].
  pose proof (insert_wf m1 r2 c2 v2 Hwf1) as Hwf2.
  pose proof (insert_no_empty m1 r2 c2 v2 Hne1 Hok2) as Hne2.
  destruct (insert_dims m1 r2 c2 v2) as [Hrows2 Hcols2].
  cbv zeta. repeat split; try assumption; try congruence.
  intros r c. now rewrite Hcell2, Hcell1.
Qed.

(** X8.  Storing into a cell that reads [0.0] and then storing a value
    below the threshold into the same cell gives back the matrix as it was,
    row by row (for a well-formed matrix without empty rows): the row that
    the first call may have created is removed again. *)
Theorem insert_then_remove (m : SparseMatrix) (r c : Z) (v z : float) :
  wf m = true -> no_empty_row m = true -> in_bounds m r c ->
  Matrice.get m r c = Ok 0%float ->
  is_zero z = true ->
  snd (Matrice.insert (snd (Matrice.insert m r c v)) r c z) = m.
Proof.
  intros Hwf Hne Hb Hget Hz.
  destruct (insert_insert m r c r c v z Hwf Hne Hb Hb)
    as (Hwf2 & Hne2 & Hr2 & Hc2 & Hcell).
  apply wf_ext; try assumption.
  intros r' c'. rewrite Hcell. unfold norm at 1. rewrite Hz.
  destruct (Z.eqb_spec r' r), (Z.eqb_spec c' c); simpl; try reflexivity.
  subst. symmetry. now apply get_zero_absent.
Qed.

Lemma insert_then_remove_witness :
  snd (Matrice.insert (snd (Matrice.insert T1 1 1 5%float)) 1 1 0%float) = T1.
Proof.
  apply (insert_then_remove T1 1 1 5%float 0%float);
    [reflexivity | reflexivity | unfold in_bounds; simpl; lia
    | reflexivity | reflexivity].
Defined.

(** X9.  Two [insert] calls on different cells, both in range, commute: on
    a well-formed matrix without empty rows either order leaves the same
    matrix, row by row. *)
Theorem inserts_commute (m : SparseMatrix) (r1 c1 r2 c2 : Z) (v1 v2 : float) :
  wf m = true -> no_empty_row m = true ->
  in_bounds m r1 c1 -> in_bounds m r2 c2 ->
  (r1, c1) <> (r2, c2) ->
  snd (Matrice.insert (snd (Matrice.insert m r1 c1 v1)) r2 c2 v2)
  = snd (Matrice.insert (snd (Matrice.insert m r2 c2 v2)) r1 c1 v1).
Proof.
  intros Hwf Hne Hb1 Hb2 Hd.
  destruct (insert_insert m r1 c1 r2 c2 v1 v2 Hwf Hne Hb1 Hb2)
    as (Hwf2 & Hne2 & Hr2 & Hc2 & Hcell).
  destruct (insert_insert m r2 c2 r1 c1 v2 v1 Hwf Hne Hb2 Hb1)
    as (Hwf2' & Hne2' & Hr2' & Hc2' & Hcell').
  apply wf_ext; try assumption; try congruence.
  intros r c. rewrite Hcell, Hcell'.
  destruct (Z.eqb_spec r r1), (Z.eqb_spec c c1),
           (Z.eqb_spec r r2), (Z.eqb_spec c c2); simpl; try reflexivity.
  subst. exfalso. now apply Hd.
Qed.

Lemma inserts_commute_witness :
  snd (Matrice.insert (snd (Matrice.insert T1 2 1 0%float)) 1 0 7%float)
  = snd (Matrice.insert (snd (Matrice.insert T1 1 0 7%float)) 2 1 0%float).
Proof.
  apply (inserts_commute T1 2 1 1 0 0%float 7%float);
    [reflexivity | reflexivity | unfold in_bounds; simpl; lia
    | unfold in_bounds; simpl; lia | intros H; discriminate H].
Defined.

(** ** The derived operations *)

Lemma is_nonzero_norm (x : float) : is_nonzero x = true -> norm x = Some x.
Proof.
  intros H. pose proof (store_test x) as Ht. rewrite H in Ht. simpl in Ht.
  unfold norm. destruct (is_zero x); [discriminate | reflexivity].
Qed.

Lemma is_nonzero_zero_mul (k : float) : is_nonzero (0 * k) = false.
Proof.
  rewrite is_nonzero_SF, mul_spec, Prim2SF_zero.
  destruct (Prim2SF k) as [s | s | | s m e]; reflexivity.
Qed.

Lemma add_zero_r (v : float) : is_zero v = false -> (v + 0)%float = v.
Proof. intros H. rewrite float_add_comm. now apply add_zero_l. Qed.

(** What a loop keeps when every round that returns keeps it. *)
Lemma for_each_triple_pres {St : Type} (P : St -> Prop)
  (f : Z -> Z -> float -> St -> result St) (ts : list (Z * Z * float)) :
  (forall r c v s s', f r c v s = Ok s' -> P s -> P s') ->
  forall s s', for_each_triple f ts s = Ok s' -> P s -> P s'.
Proof.
  intros Hf. induction ts as [| [[r c] v] tl IH]; simpl; intros s s' H Hs.
  - now injection H as <-.
  - destruct (f r c v s) as [s1 | |] eqn:E; simpl in H; [| discriminate ..].
    eapply IH; [exact H |]. eapply Hf; eassumption.
Qed.

Lemma for_j_pres {St : Type} (P : St -> Prop) (body : Z -> St -> result St)
  (fuel : nat) :
  (forall j s s', body j s = Ok s' -> P s -> P s') ->
  forall j s s', for_j fuel j body s = Ok s' -> P s -> P s'.
Proof.
  intros Hb. induction fuel as [| n IH]; simpl; intros j s s' H Hs.
  - now injection H as <-.
  - destruct (body j s) as [s1 | |] eqn:E; simpl in H; [| discriminate ..].
    eapply IH; [exact H |]. eapply Hb; eassumption.
Qed.

Lemma insert_into_no_empty (m m' : SparseMatrix) (r c : Z) (v : float) :
  Matrice.insert_into m r c v = Ok m' ->
  no_empty_row m = true -> no_empty_row m' = true.
Proof.
  intros H Hne. apply insert_into_Ok in H as [Hok ->].
  now apply insert_no_empty.
Qed.

Lemma construct_no_empty (r c : Z) (m : SparseMatrix) :
  Matrice.construct r c = Ok m -> no_empty_row m = true.
Proof.
  unfold Matrice.construct. destruct ((r <=? 0) || (c <=? 0)); [discriminate |].
  now intros [= <-].
Qed.

Lemma merge_no_empty (op : float -> float -> float) (l : list RowNode)
  (res res' : SparseMatrix) :
  for_each_row
    (fun r c v res =>
       currentValue <- Matrice.get res r c ;;
       Matrice.insert_into res r c (op currentValue v)) l res = Ok res' ->
  no_empty_row res = true -> no_empty_row res' = true.
Proof.
  rewrite for_each_row_triples.
  apply (for_each_triple_pres (fun s => no_empty_row s = true)).
  intros r c v s s' H Hs.
  destruct (Matrice.get s r c) as [g | |]; simpl in H; [| discriminate ..].
  eapply insert_into_no_empty; eassumption.
Qed.

Lemma copy_no_empty (l : list RowNode) (res res' : SparseMatrix) :
  for_each_row (fun r c v res => Matrice.insert_into res r c v) l res
  = Ok res' ->
  no_empty_row res = true -> no_empty_row res' = true.
Proof. rewrite for_each_row_triples. apply inserts_no_empty. Qed.

Lemma add_no_empty (A B S : SparseMatrix) :
  Matrice.add A B = Ok S -> no_empty_row S = true.
Proof.
  unfold Matrice.add.
  destruct (negb (rows A =? rows B) || negb (cols A =? cols B));
    [discriminate |].
  destruct (Matrice.construct (rows A) (cols A)) as [res | |] eqn:E;
    simpl; [| discriminate ..].
  destruct (for_each_row _ (rowList A) res) as [res1 | |] eqn:E1;
    simpl; [| discriminate ..].
  intros H. eapply merge_no_empty; [exact H |].
  eapply copy_no_empty; [exact E1 |]. eapply construct_no_empty; exact E.
Qed.

Lemma subtract_no_empty (A B S : SparseMatrix) :
  Matrice.subtract A B = Ok S -> no_empty_row S = true.
Proof.
  unfold Matrice.subtract.
  destruct (negb (rows A =? rows B) || negb (cols A =? cols B));
    [discriminate |].
  destruct (Matrice.construct (rows A) (cols A)) as [res | |] eqn:E;
    simpl; [| discriminate ..].
  destruct (for_each_row _ (rowList A) res) as [res1 | |] eqn:E1;
    simpl; [| discriminate ..].
  intros H. eapply merge_no_empty; [exact H |].
  eapply copy_no_empty; [exact E1 |]. eapply construct_no_empty; exact E.
Qed.

Lemma scalarMultiply_no_empty (M R : SparseMatrix) (k : float) :
  Matrice.scalarMultiply M k = Ok R -> no_empty_row R = true.
Proof.
  unfold Matrice.scalarMultiply.
  destruct (Matrice.construct (rows M) (cols M)) as [res | |] eqn:E;
    simpl; [| discriminate ..].
  apply construct_no_empty in E.
  destruct (is_zero k); [now intros [= <-] |].
  rewrite for_each_row_triples. intros H.
  refine (for_each_triple_pres (fun s => no_empty_row s = true) _ _ _ _ _ H E).
  intros r c v s s' Hs Hne. cbv zeta in Hs.
  destruct (is_nonzero (v * k)); [| now injection Hs as <-].
  eapply insert_into_no_empty; eassumption.
Qed.

Lemma multiply_rows_no_empty (B : SparseMatrix) (l : list RowNode) :
  forall res res',
    Matrice.multiply_rows B l res = Ok res' ->
    no_empty_row res = true -> no_empty_row res' = true.
Proof.
  induction l as [| x tl IH]; simpl; intros res res' H Hne.
  - now injection H as <-.
  - destruct (for_j _ 0 _ res) as [res1 | |] eqn:E; simpl in H;
      [| discriminate ..].
    eapply IH; [exact H |].
    refine (for_j_pres (fun s => no_empty_row s = true) _ _ _ _ _ _ E Hne).
    intros j s s' Hs Hs0.
    destruct (Matrice.row_dot B j (elements x) 0%float) as [sum | |];
      simpl in Hs; [| discriminate ..].
    destruct (is_nonzero sum); [| now injection Hs as <-].
    eapply insert_into_no_empty; eassumption.
Qed.

Lemma multiply_no_empty (A B R : SparseMatrix) :
  Matrice.multiply A B = Ok R -> no_empty_row R = true.
Proof.
  unfold Matrice.multiply. destruct (negb (cols A =? rows B)); [discriminate |].
  destruct (Matrice.construct (rows A) (cols B)) as [res | |] eqn:E;
    simpl; [| discriminate ..].
  intros H. eapply multiply_rows_no_empty; [exact H |].
  eapply construct_no_empty; exact E.
Qed.

(** X10.  Whenever [add], [subtract], [scalarMultiply], [multiply] or
    [transpose] returns a matrix, no stored row of it is empty, whatever
    the operands hold. *)
Theorem derived_results_have_no_empty_row :
  (forall A B S, Matrice.add A B = Ok S -> no_empty_row S = true)
  /\ (forall A B S, Matrice.subtract A B = Ok S -> no_empty_row S = true)
  /\ (forall M k R, Matrice.scalarMultiply M k = Ok R ->
                    no_empty_row R = true)
  /\ (forall A B R, Matrice.multiply A B = Ok R -> no_empty_row R = true)
  /\ (forall M T, Matrice.transpose M = Ok T -> no_empty_row T = true).
Proof.
  split; [exact add_no_empty |]. split; [exact subtract_no_empty |].
  split; [intros M k R; apply scalarMultiply_no_empty |].
  split; [exact multiply_no_empty | exact transpose_no_empty].
Qed.

Lemma derived_results_have_no_empty_row_witness :
  exists S, Matrice.add E22 M1 = Ok S /\ no_empty_row S = true.
Proof.
  eexists. split; [reflexivity |].
  apply (proj1 derived_results_have_no_empty_row E22 M1). reflexivity.
Defined.

(** X11.  For well-formed matrices of identical dimensions and (r, c) in
    range, [get(r, c)] on [add(A, B)] returns [A.get(r, c) + B.get(r, c)]
    unless the magnitude of that sum is below [1e-10], when it returns
    [0.0]. *)
Theorem add_get (A B : SparseMatrix) (r c : Z) :
  wf A = true -> wf B = true ->
  rows A = rows B -> cols A = cols B ->
  0 <= r < rows A -> 0 <= c < cols A ->
  exists S a b,
    Matrice.add A B = Ok S
    /\ Matrice.get A r c = Ok a
    /\ Matrice.get B r c = Ok b
    /\ Matrice.get S r c
       = Ok (if is_zero (a + b) then 0%float else (a + b)%float).
Proof.
  intros HA HB Hr Hc Hrr Hcc.
  destruct (add_cells A B HA HB Hr Hc) as (S & HS & _ & Hr1 & Hc1 & Hcell).
  exists S, (val (cell A r c)), (val (cell B r c)).
  split; [exact HS |].
  rewrite !get_cell, Hcell by lia. repeat split.
  destruct (cell B r c) as [b |] eqn:Eb; simpl.
  - unfold norm. now destruct (is_zero _).
  - destruct (cell A r c) as [a |] eqn:Ea; simpl; [| reflexivity].
    apply cell_Some_ok in Ea as (_ & _ & Hv); [| exact HA].
    now rewrite add_zero_r, Hv.
Qed.

Lemma add_get_witness :
  exists S a b,
    Matrice.add M1 M2 = Ok S
    /\ Matrice.get M1 1 0 = Ok a
    /\ Matrice.get M2 1 0 = Ok b
    /\ Matrice.get S 1 0
       = Ok (if is_zero (a + b) then 0%float else (a + b)%float).
Proof.
  apply (add_get M1 M2 1 0);
    [reflexivity | reflexivity | reflexivity | reflexivity
    | simpl; lia | simpl; lia].
Defined.

(** X12.  A matrix with no stored element is neutral for [add] on both
    sides: for a well-formed A without empty rows and a Z of the same
    dimensions with no stored row, [add(A, Z)] and [add(Z, A)] both return
    A itself, row by row. *)
Theorem add_zero_matrix (A Z0 : SparseMatrix) :
  wf A = true -> no_empty_row A = true ->
  rows Z0 = rows A -> cols Z0 = cols A -> rowList Z0 = [] ->
  Matrice.add A Z0 = Ok A /\ Matrice.add Z0 A = Ok A.
Proof.
  intros HA Hne Hr Hc Hl.
  assert (HZ : wf Z0 = true).
  { destruct (wf_dims_pos A HA). apply wf_iff. rewrite Hr, Hc, Hl.
    simpl. repeat split; auto. }
  assert (HcZ : forall r c, cell Z0 r c = None)
    by (intros r c; unfold cell; now rewrite Hl).
  split.
  - destruct (add_cells A Z0 HA HZ (eq_sym Hr) (eq_sym Hc))
      as (S & HS & Hwf & Hr1 & Hc1 & Hcell).
    rewrite HS. f_equal. apply wf_ext; try assumption.
    + eapply add_no_empty; exact HS.
    + intros r c. now rewrite Hcell, HcZ.
  - destruct (add_cells Z0 A HZ HA Hr Hc)
      as (S & HS & Hwf & Hr1 & Hc1 & Hcell).
    rewrite HS. f_equal. apply wf_ext; try assumption; try congruence.
    + eapply add_no_empty; exact HS.
    + intros r c. rewrite Hcell, HcZ.
      destruct (cell A r c) as [a |] eqn:Ea; [| reflexivity]. simpl.
      apply cell_Some_ok in Ea as (_ & _ & Hv); [| exact HA].
      rewrite add_zero_l by exact Hv. unfold norm. now rewrite Hv.
Qed.

Lemma add_zero_matrix_witness :
  Matrice.add M1 m22 = Ok M1 /\ Matrice.add m22 M1 = Ok M1.
Proof. apply (add_zero_matrix M1 m22); reflexivity. Defined.

Lemma triples_NoDup (m : SparseMatrix) :
  wf m = true -> NoDup (triples (rowList m)).
Proof.
  intros H. apply (NoDup_map_inv key). apply sorted_keys_NoDup.
  now apply wf_triples_sorted.
Qed.

Lemma in_triples_cell (m : SparseMatrix) (r c : Z) (v : float) :
  wf m = true -> In (r, c, v) (triples (rowList m)) <-> cell m r c = Some v.
Proof.
  intros H. rewrite find_triple_In, wf_find_triple by
    (try apply sorted_keys_NoDup; try apply wf_triples_sorted; exact H).
  reflexivity.
Qed.

(** X13.  For a well-formed M, [transpose] returns a matrix T with the
    dimensions swapped in which [get(c, r)] returns what [get(r, c)]
    returns on M, for every (r, c) (an exception when it is out of range);
    T stores as many elements as M and no empty row. *)
Theorem transpose_get (M : SparseMatrix) :
  wf M = true ->
  exists T,
    Matrice.transpose M = Ok T
    /\ rows T = cols M /\ cols T = rows M
    /\ (forall r c, Matrice.get T c r = Matrice.get M r c)
    /\ Matrice.countNonZero T = Matrice.countNonZero M
    /\ no_empty_row T = true.
Proof.
  intros HM.
  destruct (transpose_cells M HM) as (T & HT & HwfT & Hr & Hc & Hcell).
  exists T. repeat split; try assumption.
  - intros r c.
    destruct ((r <? 0) || (r >=? rows M) || (c <? 0) || (c >=? cols M)) eqn:E.
    + unfold Matrice.get at 2. rewrite E.
      apply get_out_of_bounds. unfold in_bounds. rewrite Hr, Hc.
      rewrite !orb_true_iff, !Z.ltb_lt, !Z.geb_leb, !Z.leb_le in E. lia.
    + rewrite !orb_false_iff, !Z.ltb_ge, !Z.geb_leb, !Z.leb_gt in E.
      rewrite !get_cell, Hcell by lia. reflexivity.
  - rewrite !countNonZero_length. f_equal.
    rewrite <- (length_map swap (triples (rowList M))).
    apply Permutation_length. apply NoDup_Permutation.
    + now apply triples_NoDup.
    + apply Finite.Injective_map_NoDup; [| now apply triples_NoDup].
      intros [[a b] x] [[a' b'] x']. simpl. congruence.
    + intros [[r c] v]. rewrite in_triples_cell, Hcell by exact HwfT.
      rewrite <- in_triples_cell by exact HM. rewrite in_map_iff. split.
      * intros H. now exists (c, r, v).
      * intros ([[r' c'] v'] & Heq & H). simpl in Heq. congruence.
  - eapply transpose_no_empty; exact HT.
Qed.

Lemma transpose_get_witness :
  exists T,
    Matrice.transpose T1 = Ok T
    /\ rows T = cols T1 /\ cols T = rows T1
    /\ (forall r c, Matrice.get T c r = Matrice.get T1 r c)
    /\ Matrice.countNonZero T = Matrice.countNonZero T1
    /\ no_empty_row T = true.
Proof. apply (transpose_get T1). reflexivity. Defined.

Lemma scalarMultiply_cells (M : SparseMatrix) (k : float) :
  wf M = true ->
  exists R,
    Matrice.scalarMultiply M k = Ok R
    /\ wf R = true /\ rows R = rows M /\ cols R = cols M
    /\ forall r c,
         cell R r c
         = if is_zero k then None
           else match cell M r c with
                | Some v => if is_nonzero (v * k) then Some (v * k)%float
                            else None
                | None => None
                end.
Proof.
  intros HM. destruct (wf_dims_pos M HM) as [Hpr Hpc].
  unfold Matrice.scalarMultiply. rewrite construct_ok by assumption. simpl.
  destruct (is_zero k).
  - eexists. split; [reflexivity |]. split; [now apply empty_wf |].
    repeat split.
  - rewrite for_each_row_triples.
    destruct (for_each_triple_cells
                (fun r c v res =>
                   let newValue := (v * k)%float in
                   if is_nonzero newValue
                   then Matrice.insert_into res r c newValue else Ok res)
                (fun v o => if is_nonzero (v * k) then norm (v * k)%float
                            else o))
      with (ts := triples (rowList M))
           (res := {| rows := rows M; cols := cols M; rowList := [] |})
      as (R & Hf & Hwf & Hr1 & Hc1 & Hcell).
    + intros res r c v Hwf Hr Hc. cbv zeta.
      destruct (is_nonzero (v * k)); [now apply insert_into_spec |].
      exists res. repeat split; auto. intros r' c'.
      destruct (Z.eqb_spec r' r), (Z.eqb_spec c' c); simpl; congruence.
    + apply sorted_keys_NoDup. now apply wf_triples_sorted.
    + now apply triples_in_range.
    + now apply empty_wf.
    + exists R. repeat split; try assumption.
      intros r c. rewrite Hcell, wf_find_triple by exact HM.
      destruct (cell M r c) as [v |]; [| reflexivity].
      destruct (is_nonzero (v * k)) eqn:E; [now apply is_nonzero_norm |].
      reflexivity.
Qed.

(** What [get] reads from the result of [scalarMultiply], shared by the
    statements on [scalarMultiply] and [scalarDivide]. *)
Lemma scalarMultiply_reads (M : SparseMatrix) (k : float) (r c : Z) :
  wf M = true -> 0 <= r < rows M -> 0 <= c < cols M ->
  exists R a,
    Matrice.scalarMultiply M k = Ok R
    /\ rows R = rows M /\ cols R = cols M
    /\ (is_zero k = true -> rowList R = [])
    /\ Matrice.get M r c = Ok a
    /\ Matrice.get R r c
       = Ok (if is_zero k then 0%float
             else if is_nonzero (a * k) then (a * k)%float else 0%float).
Proof.
  intros HM Hr Hc.
  destruct (scalarMultiply_cells M k HM) as (R & HR & _ & Hr1 & Hc1 & Hcell).
  exists R, (val (cell M r c)).
  split; [exact HR |]. split; [exact Hr1 |]. split; [exact Hc1 |]. split.
  - intros Hk. unfold Matrice.scalarMultiply in HR.
    destruct (wf_dims_pos M HM) as [Hpr Hpc].
    rewrite construct_ok, Hk in HR by assumption. simpl in HR.
    now injection HR as <-.
  - rewrite !get_cell, Hcell by lia. split; [reflexivity |]. f_equal.
    destruct (is_zero k); [reflexivity |].
    destruct (cell M r c) as [v |]; simpl.
    + now destruct (is_nonzero (v * k)).
    + now rewrite is_nonzero_zero_mul.
Qed.



(** X15.  [scalarDivide] throws for a scalar of magnitude below [1e-10].
    Otherwise it multiplies by the reciprocal [1.0 / scalar]: [get(r, c)]
    on the result returns [M.get(r, c) * (1.0 / scalar)] when the magnitude
    of that product is at least [1e-10], else [0.0]; and when the
    reciprocal itself has a magnitude below [1e-10] (a scalar above
    [1e10]), the result stores nothing, whatever M holds. *)
Theorem scalarDivide_get (M : SparseMatrix) (k : float) (r c : Z) :
  wf M = true -> 0 <= r < rows M -> 0 <= c < cols M ->
  (is_zero k = true ->
   Matrice.scalarDivide M k = Throw (invalid_argument "Division by zero"))
  /\ (is_zero k = false ->
      exists R a,
        Matrice.scalarDivide M k = Ok R
        /\ rows R = rows M /\ cols R = cols M
        /\ (is_zero (1 / k) = true -> rowList R = [])
        /\ Matrice.get M r c = Ok a
        /\ Matrice.get R r c
           = Ok (if is_zero (1 / k) then 0%float
                 else if is_nonzero (a * (1 / k)) then (a * (1 / k))%float
                      else 0%float)).
Proof.
  intros HM Hr Hc. unfold Matrice.scalarDivide. split; intros Hk; rewrite Hk.
  - reflexivity.
  - now apply scalarMultiply_reads.
Qed.

Lemma scalarDivide_get_witness :
  exists R a,
    Matrice.scalarDivide big22 1e11%float = Ok R
    /\ rows R = rows big22 /\ cols R = cols big22
    /\ (is_zero (1 / 1e11) = true -> rowList R = [])
    /\ Matrice.get big22 0 0 = Ok a
    /\ Matrice.get R 0 0
       = Ok (if is_zero (1 / 1e11) then 0%float
             else if is_nonzero (a * (1 / 1e11)) then (a * (1 / 1e11))%float
                  else 0%float).
Proof.
  apply (proj2 (scalarDivide_get big22 1e11%float 0 0 eq_refl
                  (conj (Z.le_refl 0) eq_refl) (conj (Z.le_refl 0) eq_refl))).
  reflexivity.
Defined.

Lemma row_dot_dot (other : SparseMatrix) (j : Z) (es : list MatrixNode)
  (sum : float) :
  Forall (fun e => 0 <= col e < rows other) es ->
  0 <= j < cols other ->
  Matrice.row_dot other j es sum = Ok (dot other j es sum).
Proof.
  intros H Hj. revert sum.
  induction H as [| e tl He Htl IH]; intros sum; simpl; [reflexivity |].
  rewrite get_cell by assumption. simpl. apply IH.
Qed.

Lemma for_j_ext {St : Type} (body1 body2 : Z -> St -> result St)
  (fuel : nat) (j0 : Z) (s : St) :
  (forall j s, j0 <= j < j0 + Z.of_nat fuel -> body1 j s = body2 j s) ->
  for_j fuel j0 body1 s = for_j fuel j0 body2 s.
Proof.
  revert j0 s. induction fuel as [| n IH]; intros j0 s H; [reflexivity |].
  simpl. rewrite H by lia. destruct (body2 j0 s); simpl; try reflexivity.
  apply IH. intros j s' Hj. apply H. lia.
Qed.

(** One pass of the column loop over row [i], storing [F j] at (i, j) when
    its magnitude is at least the threshold. *)
Lemma for_j_row_cells (i : Z) (F : Z -> float) (fuel : nat) :
  forall j0 res,
    wf res = true -> 0 <= i < rows res ->
    0 <= j0 -> j0 + Z.of_nat fuel <= cols res ->
    exists res',
      for_j fuel j0
        (fun j res =>
           if is_nonzero (F j) then Matrice.insert_into res i j (F j)
           else Ok res) res = Ok res'
      /\ wf res' = true /\ rows res' = rows res /\ cols res' = cols res
      /\ forall r c,
           cell res' r c
           = if (r =? i) && (j0 <=? c) && (c <? j0 + Z.of_nat fuel)
                && is_nonzero (F c)
             then Some (F c) else cell res r c.
Proof.
  induction fuel as [| n IH]; intros j0 res Hwf Hi Hj0 Hn.
  - exists res. simpl. repeat split; auto. intros r c.
    rewrite Z.add_0_r.
    destruct (r =? i), (Z.leb_spec j0 c), (Z.ltb_spec c j0); cbn [andb];
      try reflexivity; lia.
  - simpl for_j. destruct (is_nonzero (F j0)) eqn:Enz.
    + destruct (insert_into_spec res i j0 (F j0) Hwf Hi)
        as (res1 & H1 & Hwf1 & Hr1 & Hc1 & Hcell1); [lia |].
      rewrite H1. cbn [bind].
      destruct (IH (j0 + 1) res1) as (res' & H' & Hwf' & Hr' & Hc' & Hcell');
        [exact Hwf1 | lia | lia | lia |].
      exists res'. repeat split; [exact H' | exact Hwf' | congruence
                                 | congruence |].
      intros r c. rewrite Hcell', Hcell1.
      replace (j0 + Z.of_nat (S n)) with (j0 + 1 + Z.of_nat n) by lia.
      rewrite (is_nonzero_norm _ Enz).
      destruct (Z.eqb_spec r i), (Z.eqb_spec c j0), (Z.leb_spec (j0 + 1) c),
               (Z.leb_spec j0 c), (Z.ltb_spec c (j0 + 1 + Z.of_nat n));
        cbn [andb]; subst; rewrite ?Enz; try reflexivity; try lia;
        repeat match goal with
               | |- context [is_nonzero ?x] => destruct (is_nonzero x)
               end; reflexivity.
    + cbn [bind].
      destruct (IH (j0 + 1) res) as (res' & H' & Hwf' & Hr' & Hc' & Hcell');
        [exact Hwf | lia | lia | lia |].
      exists res'. repeat split; [exact H' | exact Hwf' | congruence
                                 | congruence |].
      intros r c. rewrite Hcell'.
      replace (j0 + Z.of_nat (S n)) with (j0 + 1 + Z.of_nat n) by lia.
      destruct (Z.eqb_spec r i), (Z.eqb_spec c j0), (Z.leb_spec (j0 + 1) c),
               (Z.leb_spec j0 c), (Z.ltb_spec c (j0 + 1 + Z.of_nat n));
        cbn [andb]; subst; rewrite ?Enz; try reflexivity; try lia.
Qed.

Lemma row_elements_cons (x : RowNode) (tl : list RowNode) (i : Z) :
  row_elements (x :: tl) i
  = if row x <? i then row_elements tl i
    else if row x =? i then elements x else [].
Proof. unfold row_elements. simpl. now destruct (row x <? i). Qed.

Lemma row_elements_gt (l : list RowNode) (i : Z) :
  Forall (fun x => i < row x) l -> row_elements l i = [].
Proof.
  intros H. destruct H as [| x tl Hx _]; [reflexivity |].
  rewrite row_elements_cons. cmp.
Qed.

Lemma is_nonzero_zero : is_nonzero 0%float = false.
Proof. reflexivity. Qed.

Lemma multiply_rows_cells (B : SparseMatrix) (l : list RowNode) :
  ascending (map row l) = true ->
  forall res,
    wf res = true -> cols res = cols B ->
    Forall (fun x => 0 <= row x < rows res
                     /\ Forall (fun e => 0 <= col e < rows B) (elements x))
      l ->
    exists res',
      Matrice.multiply_rows B l res = Ok res'
      /\ wf res' = true /\ rows res' = rows res /\ cols res' = cols res
      /\ forall r c,
           cell res' r c
           = if (0 <=? c) && (c <? cols B)
                && is_nonzero (dot B c (row_elements l r) 0%float)
             then Some (dot B c (row_elements l r) 0%float)
             else cell res r c.
Proof.
  induction l as [| x tl IH]; intros Hasc res Hwf Hcols Hl.
  - exists res. simpl. repeat split; auto. intros r c.
    unfold row_elements. simpl. rewrite is_nonzero_zero.
    now rewrite andb_false_r.
  - apply ascending_keys in Hasc as [H1 H2].
    inversion Hl as [| y ys [Hx Hes] Htl]; subst.
    simpl Matrice.multiply_rows.
    rewrite (for_j_ext _
               (fun j res =>
                  if is_nonzero (dot B j (elements x) 0%float)
                  then Matrice.insert_into res (row x) j
                         (dot B j (elements x) 0%float)
                  else Ok res)).
    2:{ intros j s Hj. rewrite row_dot_dot; [reflexivity | exact Hes |].
        pose proof (wf_dims_pos res Hwf). lia. }
    destruct (for_j_row_cells (row x) (fun j => dot B j (elements x) 0%float)
                (Z.to_nat (cols B)) 0 res)
      as (res1 & Hf1 & Hwf1 & Hr1 & Hc1 & Hcell1);
      [exact Hwf | exact Hx | lia | pose proof (wf_dims_pos res Hwf); lia |].
    rewrite Hf1. simpl.
    destruct (IH H2 res1) as (res' & Hf' & Hwf' & Hr' & Hc' & Hcell');
      [exact Hwf1 | congruence | |].
    { eapply Forall_impl; [| exact Htl]. simpl. intros y Hy.
      now rewrite Hr1. }
    exists res'. repeat split; [exact Hf' | exact Hwf' | congruence
                               | congruence |].
    intros r c. rewrite Hcell', Hcell1, row_elements_cons.
    assert (Hpos : 0 < cols B) by (pose proof (wf_dims_pos res Hwf); lia).
    rewrite Z2Nat.id by lia.
    destruct (Z.ltb_spec (row x) r).
    + destruct (Z.eqb_spec r (row x)); [lia |]. reflexivity.
    + assert (Hgt : row_elements tl r = []).
      { apply row_elements_gt. eapply Forall_impl; [| exact H1].
        simpl. intros; lia. }
      rewrite Hgt. simpl dot. rewrite is_nonzero_zero, andb_false_r.
      destruct (Z.eqb_spec (row x) r) as [E | E].
      * subst r. rewrite Z.eqb_refl. simpl.
        now destruct ((0 <=? c) && (c <? cols B)).
      * destruct (Z.eqb_spec r (row x)); [congruence |]. simpl.
        rewrite is_nonzero_zero. now rewrite andb_false_r.
Qed.

(** X16.  For well-formed A and B with [A.colCount == B.rowCount],
    [multiply] returns a well-formed matrix of A's row count and B's column
    count.  [get(i, j)] on it returns the sum that the inner loop computes
    for row i of A and column j of B (the products are added in the order
    of A's stored columns, skipping those whose factor from B is below the
    threshold) when the magnitude of the sum is at least [1e-10], and [0.0]
    otherwise; for a row of A that is not stored the sum is [0.0]. *)
Theorem multiply_get (A B : SparseMatrix) (i j : Z) :
  wf A = true -> wf B = true -> cols A = rows B ->
  0 <= i < rows A -> 0 <= j < cols B ->
  exists R s,
    Matrice.multiply A B = Ok R
    /\ wf R = true /\ rows R = rows A /\ cols R = cols B
    /\ Matrice.row_dot B j (row_elements (rowList A) i) 0%float = Ok s
    /\ Matrice.get R i j = Ok (if is_nonzero s then s else 0%float).
Proof.
  intros HA HB Hd Hi Hj.
  destruct (wf_dims_pos A HA) as [Hpr _], (wf_dims_pos B HB) as [_ Hpc].
  assert (Hrows : Forall (fun x => 0 <= row x < rows A
                            /\ Forall (fun e => 0 <= col e < rows B)
                                 (elements x)) (rowList A)).
  { pose proof HA as HA'. apply wf_iff in HA' as (_ & _ & _ & HA').
    eapply Forall_impl; [| exact HA']. simpl. intros x Hx.
    apply row_ok_iff in Hx as (H1 & _ & H2). split; [exact H1 |].
    eapply Forall_impl; [| exact H2]. simpl. intros e He.
    apply elem_ok_iff in He. lia. }
  destruct (multiply_rows_cells B (rowList A) (wf_rows_ascending A HA)
              {| rows := rows A; cols := cols B; rowList := [] |})
    as (R & HR & HwfR & Hr1 & Hc1 & Hcell);
    [now apply empty_wf | reflexivity | exact Hrows |].
  exists R, (dot B j (row_elements (rowList A) i) 0%float).
  unfold Matrice.multiply. rewrite Hd, Z.eqb_refl. simpl.
  rewrite construct_ok by assumption. simpl.
  split; [exact HR |]. split; [exact HwfR |].
  split; [exact Hr1 |]. split; [exact Hc1 |]. split.
  - apply row_dot_dot; [| exact Hj].
    unfold row_elements.
    assert (Hsk : Forall (fun x => Forall (fun e => 0 <= col e < rows B)
                                     (elements x))
                    (skip (fun x => row x <? i) (rowList A))).
    { clear - Hrows. induction Hrows as [| x tl [_ Hx] Htl IH]; simpl;
        [constructor |].
      destruct (row x <? i); [exact IH |]. constructor; [exact Hx |].
      eapply Forall_impl; [| exact Htl]. simpl. tauto. }
    destruct (skip _ (rowList A)) as [| x tl]; [constructor |].
    destruct (row x =? i); [| constructor]. now inversion Hsk.
  - rewrite get_cell, Hcell by (simpl in *; lia). f_equal.
    destruct (Z.leb_spec 0 j), (Z.ltb_spec j (cols B)); try lia. simpl.
    now destruct (is_nonzero _).
Qed.

Lemma multiply_get_witness :
  exists R s,
    Matrice.multiply M1 M2 = Ok R
    /\ wf R = true /\ rows R = rows M1 /\ cols R = cols M2
    /\ Matrice.row_dot M2 1 (row_elements (rowList M1) 1) 0%float = Ok s
    /\ Matrice.get R 1 1 = Ok (if is_nonzero s then s else 0%float).
Proof.
  apply (multiply_get M1 M2 1 1);
    [reflexivity | reflexivity | reflexivity | simpl; lia | simpl; lia].
Defined.

(** ** [inverse] *)

(** X17.  [inverse] throws for a matrix that is not square; for a square
    matrix of order 4 or more it throws the exception of [determinant],
    which it calls first, so that its own message for large matrices is
    never used; and for a square matrix of order 1 to 3 whose determinant
    has a magnitude below [1e-10] it throws the exception for a singular
    matrix. *)
Theorem inverse_errors (M : SparseMatrix) :
  (rows M <> cols M ->
   Matrice.inverse M
   = Throw (invalid_argument "Matrix must be square to calculate inverse"))
  /\ (rows M = cols M -> 4 <= rows M ->
      Matrice.inverse M
      = Throw (invalid_argument
                 "Determinant calculation for matrices larger than 3x3 not implemented"))
  /\ (rows M = cols M -> 1 <= rows M <= 3 ->
      exists det,
        Matrice.determinant M = Ok det
        /\ (is_zero det = true ->
            Matrice.inverse M
            = Throw (invalid_argument
                       "Matrix is singular, inverse does not exist"))).
Proof.
  unfold Matrice.inverse. repeat split.
  - intros H. apply Z.eqb_neq in H. now rewrite H.
  - intros Hs H4. rewrite <- Hs, Z.eqb_refl. simpl.
    unfold Matrice.determinant. rewrite <- Hs, Z.eqb_refl. simpl.
    destruct (Z.eqb_spec (rows M) 1); [lia |].
    destruct (Z.eqb_spec (rows M) 2); [lia |].
    destruct (Z.eqb_spec (rows M) 3); [lia |]. reflexivity.
  - intros Hs H13. rewrite <- Hs, Z.eqb_refl. simpl.
    assert (Hd : exists det, Matrice.determinant M = Ok det).
    { unfold Matrice.determinant. rewrite <- Hs, Z.eqb_refl. simpl.
      assert (Hc : rows M = 1 \/ rows M = 2 \/ rows M = 3) by lia.
      destruct Hc as [H | [H | H]]; rewrite H; simpl;
        rewrite !get_cell by lia; simpl; eauto. }
    destruct Hd as (det & Hd). exists det. split; [exact Hd |].
    intros Hz. now rewrite Hd; simpl; rewrite Hz.
Qed.

Lemma inverse_errors_witness :
  exists det,
    Matrice.determinant S22 = Ok det
    /\ (is_zero det = true ->
        Matrice.inverse S22
        = Throw (invalid_argument
                   "Matrix is singular, inverse does not exist")).
Proof.
  apply (proj2 (proj2 (inverse_errors S22))); [reflexivity | simpl; lia].
Defined.

Lemma bind_ret {A : Type} (x : result A) : (a <- x ;; Ok a) = x.
Proof. now destruct x. Qed.

Lemma for_each_triple_snoc {St : Type}
  (f : Z -> Z -> float -> St -> result St) (ts : list (Z * Z * float))
  (r c : Z) (v : float) (s : St) :
  for_each_triple f (ts ++ [(r, c, v)]) s
  = (s' <- for_each_triple f ts s ;; f r c v s').
Proof.
  rewrite for_each_triple_app. destruct (for_each_triple f ts s); simpl;
    try reflexivity.
  apply bind_ret.
Qed.

(** A run of [insert] calls on a fresh matrix, at cells that are all
    different and in range. *)
Lemma insert_all_cells (R C : Z) (ts : list (Z * Z * float)) :
  0 < R -> 0 < C ->
  NoDup (map key ts) ->
  Forall (fun t => 0 <= fst (key t) < R /\ 0 <= snd (key t) < C) ts ->
  exists res,
    for_each_triple (fun r c v res => Matrice.insert_into res r c v) ts
      {| rows := R; cols := C; rowList := [] |} = Ok res
    /\ wf res = true /\ rows res = R /\ cols res = C
    /\ (forall r c, 0 <= r < R -> 0 <= c < C ->
          Matrice.get res r c
          = Ok (match find_triple r c ts with
                | Some v => suppress v
                | None => 0%float
                end))
    /\ forall r c,
         cell res r c
         = match find_triple r c ts with
           | Some v => norm v
           | None => None
           end.
Proof.
  intros HR HC Hnd Hrg.
  destruct (for_each_triple_cells
              (fun r c v res => Matrice.insert_into res r c v)
              (fun v _ => norm v)
              (fun res r c v => insert_into_spec res r c v)
              ts {| rows := R; cols := C; rowList := [] |})
    as (res & Hf & Hwf & Hr & Hc & Hcell);
    [exact Hnd | exact Hrg | now apply empty_wf |].
  exists res. simpl in Hr, Hc.
  split; [exact Hf |]. split; [exact Hwf |]. split; [exact Hr |].
  split; [exact Hc |]. split.
  - intros r c Hrr Hcc. rewrite get_cell, Hcell by lia. f_equal.
    destruct (find_triple r c ts) as [v |]; [| reflexivity].
    unfold norm, suppress. now destruct (is_zero v).
  - intros r c. rewrite Hcell.
    now destruct (find_triple r c ts).
Qed.

Lemma kept_sorted (ts : list (Z * Z * float)) :
  StronglySorted key_lt ts -> StronglySorted key_lt (kept ts).
Proof.
  unfold kept. induction 1 as [| t ts Hs IH Hall]; simpl.
  - constructor.
  - destruct (negb (is_zero (snd t))); [| exact IH].
    constructor; [exact IH |].
    rewrite Forall_forall in *. intros x Hx.
    apply filter_In in Hx. now apply Hall.
Qed.

(** The stored elements of a well-formed matrix whose cells are those of
    a run of [insert] calls made in ascending order of (row, column). *)
Lemma sorted_cells_triples (res : SparseMatrix)
  (ts : list (Z * Z * float)) :
  wf res = true -> StronglySorted key_lt ts ->
  (forall r c,
     cell res r c
     = match find_triple r c ts with
       | Some v => norm v
       | None => None
       end) ->
  triples (rowList res) = kept ts.
Proof.
  intros Hwf Hs Hcell.
  apply sorted_triples_ext;
    [now apply wf_triples_sorted | now apply kept_sorted |].
  intros [[r c] v].
  rewrite find_triple_In
    by (apply sorted_keys_NoDup; now apply wf_triples_sorted).
  rewrite wf_find_triple, Hcell by exact Hwf.
  unfold kept. rewrite filter_In.
  rewrite (find_triple_In r c v ts) by now apply sorted_keys_NoDup.
  cbn [snd]. destruct (find_triple r c ts) as [x |]; unfold norm.
  - destruct (is_zero x) eqn:E; split.
    + discriminate.
    + intros [H Hv]. assert (x = v) by congruence. subst x.
      rewrite E in Hv. discriminate.
    + intros H. assert (x = v) by congruence. subst x.
      rewrite E. now split.
    + now intros [H _].
  - split; [discriminate | now intros [H _]].
Qed.

(** X18.  For a square matrix of order 1 or 2 whose determinant has a
    magnitude that is not below [1e-10], [inverse] returns a well-formed
    matrix of the same order.  Its stored elements are, in row order, the
    reciprocal (order 1) or the entries of the adjugate divided by the
    determinant (order 2), without those whose magnitude is below [1e-10]:
    such a cell is not stored and reads [0.0], the others read their
    value. *)
Theorem inverse_small (M : SparseMatrix) :
  (rows M = 1 -> cols M = 1 ->
   exists a,
     Matrice.get M 0 0 = Ok a
     /\ (is_zero a = false ->
         exists R,
           Matrice.inverse M = Ok R /\ rows R = 1 /\ cols R = 1
           /\ Matrice.get R 0 0 = Ok (suppress (1 / a))
           /\ wf R = true
           /\ triples (rowList R) = kept [ (0, 0, (1 / a)%float) ]))
  /\ (rows M = 2 -> cols M = 2 ->
      exists a b c d det,
        Matrice.get M 0 0 = Ok a /\ Matrice.get M 0 1 = Ok b
        /\ Matrice.get M 1 0 = Ok c /\ Matrice.get M 1 1 = Ok d
        /\ Matrice.determinant M = Ok det
        /\ (is_zero det = false ->
            exists R,
              Matrice.inverse M = Ok R /\ rows R = 2 /\ cols R = 2
              /\ Matrice.get R 0 0 = Ok (suppress (d / det))
              /\ Matrice.get R 0 1 = Ok (suppress (- b / det))
              /\ Matrice.get R 1 0 = Ok (suppress (- c / det))
              /\ Matrice.get R 1 1 = Ok (suppress (a / det))
              /\ wf R = true
              /\ triples (rowList R)
                 = kept [ (0, 0, (d / det)%float); (0, 1, (- b / det)%float);
                          (1, 0, (- c / det)%float);
                          (1, 1, (a / det)%float) ])).
Proof.
  split; intros Hr Hc.
  - exists (val (cell M 0 0)). rewrite get_cell by lia.
    split; [reflexivity |]. intros Hz.
    assert (Hinv : Matrice.inverse M
                   = for_each_triple
                       (fun r c v res => Matrice.insert_into res r c v)
                       [(0, 0, (1 / val (cell M 0 0))%float)]
                       {| rows := 1; cols := 1; rowList := [] |}).
    { unfold Matrice.inverse, Matrice.determinant.
      rewrite Hr, Hc. simpl. rewrite !get_cell by lia. simpl. rewrite Hz.
      now rewrite bind_ret. }
    assert (Hs : StronglySorted key_lt
                   [(0, 0, (1 / val (cell M 0 0))%float)])
      by (repeat (apply SSorted_cons || apply SSorted_nil
                  || apply Forall_nil)).
    destruct (insert_all_cells 1 1 [(0, 0, (1 / val (cell M 0 0))%float)])
      as (R & HR & Hwf & Hr1 & Hc1 & Hget & Hcell);
      [lia | lia | now apply sorted_keys_NoDup | |].
    { repeat constructor; simpl; lia. }
    exists R. rewrite Hinv.
    split; [exact HR |]. split; [exact Hr1 |]. split; [exact Hc1 |].
    split; [now rewrite Hget by lia |]. split; [exact Hwf |].
    now apply sorted_cells_triples.
  - set (a := val (cell M 0 0)). set (b := val (cell M 0 1)).
    set (c := val (cell M 1 0)). set (d := val (cell M 1 1)).
    exists a, b, c, d, (a * d - b * c)%float.
    assert (Hdet : Matrice.determinant M = Ok (a * d - b * c)%float).
    { unfold Matrice.determinant. rewrite Hr, Hc. simpl.
      now rewrite !get_cell by lia. }
    rewrite !get_cell by lia. fold a b c d.
    repeat (split; [reflexivity |]). split; [exact Hdet |]. intros Hz.
    set (det := (a * d - b * c)%float) in *.
    set (ts := [ (0, 0, (d / det)%float); (0, 1, (- b / det)%float);
                 (1, 0, (- c / det)%float); (1, 1, (a / det)%float) ]).
    assert (Hinv : Matrice.inverse M
                   = for_each_triple
                       (fun r c v res => Matrice.insert_into res r c v) ts
                       {| rows := 2; cols := 2; rowList := [] |}).
    { unfold Matrice.inverse. rewrite Hdet, Hr, Hc. simpl. rewrite Hz.
      rewrite !get_cell by lia. fold a b c d. simpl.
      destruct (Matrice.insert_into _ 0 0 _); simpl; try reflexivity.
      destruct (Matrice.insert_into _ 0 1 _); simpl; try reflexivity.
      destruct (Matrice.insert_into _ 1 0 _); simpl; try reflexivity.
      now rewrite bind_ret. }
    assert (Hs : StronglySorted key_lt ts)
      by (repeat (apply SSorted_cons || apply SSorted_nil
                  || apply Forall_cons || apply Forall_nil);
          unfold key_lt, key; cbn [fst snd]; lia).
    destruct (insert_all_cells 2 2 ts)
      as (R & HR & Hwf & Hr1 & Hc1 & Hget & Hcell);
      [lia | lia | now apply sorted_keys_NoDup | |].
    { repeat constructor; simpl; lia. }
    exists R. rewrite Hinv.
    split; [exact HR |]. split; [exact Hr1 |]. split; [exact Hc1 |].
    rewrite !Hget by lia.
    repeat (split; [reflexivity |]). split; [exact Hwf |].
    now apply sorted_cells_triples.
Qed.

Lemma inverse_small_witness :
  exists a b c d det,
    Matrice.get M1 0 0 = Ok a /\ Matrice.get M1 0 1 = Ok b
    /\ Matrice.get M1 1 0 = Ok c /\ Matrice.get M1 1 1 = Ok d
    /\ Matrice.determinant M1 = Ok det
    /\ (is_zero det = false ->
        exists R,
          Matrice.inverse M1 = Ok R /\ rows R = 2 /\ cols R = 2
          /\ Matrice.get R 0 0 = Ok (suppress (d / det))
          /\ Matrice.get R 0 1 = Ok (suppress (- b / det))
          /\ Matrice.get R 1 0 = Ok (suppress (- c / det))
          /\ Matrice.get R 1 1 = Ok (suppress (a / det))
          /\ wf R = true
          /\ triples (rowList R)
             = kept [ (0, 0, (d / det)%float); (0, 1, (- b / det)%float);
                      (1, 0, (- c / det)%float); (1, 1, (a / det)%float) ]).
Proof. apply (proj2 (inverse_small M1)); reflexivity. Defined.

(** X19.  For a square matrix of order 3 whose determinant has a magnitude
    that is not below [1e-10], [inverse] returns a well-formed 3x3 matrix.
    Its stored elements are, in row order, the cofactors of (j, i) divided
    by the determinant, for the cells (i, j), without those whose magnitude
    is below [1e-10]: such a cell is not stored and reads [0.0], the others
    read their value. *)
Theorem inverse_order3 (M : SparseMatrix) :
  rows M = 3 -> cols M = 3 ->
  exists a b c d e f g h i det,
    Matrice.get M 0 0 = Ok a /\ Matrice.get M 0 1 = Ok b
    /\ Matrice.get M 0 2 = Ok c /\ Matrice.get M 1 0 = Ok d
    /\ Matrice.get M 1 1 = Ok e /\ Matrice.get M 1 2 = Ok f
    /\ Matrice.get M 2 0 = Ok g /\ Matrice.get M 2 1 = Ok h
    /\ Matrice.get M 2 2 = Ok i
    /\ Matrice.determinant M = Ok det
    /\ (is_zero det = false ->
        exists R,
          Matrice.inverse M = Ok R /\ rows R = 3 /\ cols R = 3
          /\ Matrice.get R 0 0 = Ok (suppress ((e * i - f * h) / det))
          /\ Matrice.get R 0 1 = Ok (suppress (- (b * i - c * h) / det))
          /\ Matrice.get R 0 2 = Ok (suppress ((b * f - c * e) / det))
          /\ Matrice.get R 1 0 = Ok (suppress (- (d * i - f * g) / det))
          /\ Matrice.get R 1 1 = Ok (suppress ((a * i - c * g) / det))
          /\ Matrice.get R 1 2 = Ok (suppress (- (a * f - c * d) / det))
          /\ Matrice.get R 2 0 = Ok (suppress ((d * h - e * g) / det))
          /\ Matrice.get R 2 1 = Ok (suppress (- (a * h - b * g) / det))
          /\ Matrice.get R 2 2 = Ok (suppress ((a * e - b * d) / det))
          /\ wf R = true
          /\ triples (rowList R)
             = kept [ (0, 0, ((e * i - f * h) / det)%float);
                      (0, 1, (- (b * i - c * h) / det)%float);
                      (0, 2, ((b * f - c * e) / det)%float);
                      (1, 0, (- (d * i - f * g) / det)%float);
                      (1, 1, ((a * i - c * g) / det)%float);
                      (1, 2, (- (a * f - c * d) / det)%float);
                      (2, 0, ((d * h - e * g) / det)%float);
                      (2, 1, (- (a * h - b * g) / det)%float);
                      (2, 2, ((a * e - b * d) / det)%float) ]).
Proof.
  intros Hr Hc.
  set (a := val (cell M 0 0)). set (b := val (cell M 0 1)).
  set (c := val (cell M 0 2)). set (d := val (cell M 1 0)).
  set (e := val (cell M 1 1)). set (f := val (cell M 1 2)).
  set (g := val (cell M 2 0)). set (h := val (cell M 2 1)).
  set (i := val (cell M 2 2)).
  set (det := (a * (e * i - f * h) - b * (d * i - f * g)
               + c * (d * h - e * g))%float).
  exists a, b, c, d, e, f, g, h, i, det.
  assert (Hdet : Matrice.determinant M = Ok det).
  { unfold Matrice.determinant. rewrite Hr, Hc. simpl.
    now rewrite !get_cell by lia. }
  rewrite !get_cell by lia. fold a b c d e f g h i.
  repeat (split; [reflexivity |]). split; [exact Hdet |]. intros Hz.
  set (ts := [ (0, 0, ((e * i - f * h) / det)%float);
               (0, 1, (- (b * i - c * h) / det)%float);
               (0, 2, ((b * f - c * e) / det)%float);
               (1, 0, (- (d * i - f * g) / det)%float);
               (1, 1, ((a * i - c * g) / det)%float);
               (1, 2, (- (a * f - c * d) / det)%float);
               (2, 0, ((d * h - e * g) / det)%float);
               (2, 1, (- (a * h - b * g) / det)%float);
               (2, 2, ((a * e - b * d) / det)%float) ]).
  assert (Hinv : Matrice.inverse M
                 = for_each_triple
                     (fun r c v res => Matrice.insert_into res r c v) ts
                     {| rows := 3; cols := 3; rowList := [] |}).
  { unfold Matrice.inverse. rewrite Hdet, Hr, Hc. simpl. rewrite Hz.
    rewrite !get_cell by lia. fold a b c d e f g h i. simpl.
    repeat match goal with
           | |- context [bind (Matrice.insert_into ?m ?r ?c ?v) _] =>
               destruct (Matrice.insert_into m r c v); simpl;
               try reflexivity
           end. }
  assert (Hs : StronglySorted key_lt ts)
    by (repeat (apply SSorted_cons || apply SSorted_nil
                || apply Forall_cons || apply Forall_nil);
        unfold key_lt, key; cbn [fst snd]; lia).
  destruct (insert_all_cells 3 3 ts)
    as (R & HR & Hwf & Hr1 & Hc1 & Hget & Hcell);
    [lia | lia | now apply sorted_keys_NoDup | |].
  { repeat constructor; simpl; lia. }
  exists R. rewrite Hinv.
  split; [exact HR |]. split; [exact Hr1 |]. split; [exact Hc1 |].
  rewrite !Hget by lia.
  repeat (split; [reflexivity |]). split; [exact Hwf |].
  now apply sorted_cells_triples.
Qed.

Lemma inverse_order3_witness :
  exists a b c d e f g h i det,
    Matrice.get M3 0 0 = Ok a /\ Matrice.get M3 0 1 = Ok b
    /\ Matrice.get M3 0 2 = Ok c /\ Matrice.get M3 1 0 = Ok d
    /\ Matrice.get M3 1 1 = Ok e /\ Matrice.get M3 1 2 = Ok f
    /\ Matrice.get M3 2 0 = Ok g /\ Matrice.get M3 2 1 = Ok h
    /\ Matrice.get M3 2 2 = Ok i
    /\ Matrice.determinant M3 = Ok det
    /\ (is_zero det = false ->
        exists R,
          Matrice.inverse M3 = Ok R /\ rows R = 3 /\ cols R = 3
          /\ Matrice.get R 0 0 = Ok (suppress ((e * i - f * h) / det))
          /\ Matrice.get R 0 1 = Ok (suppress (- (b * i - c * h) / det))
          /\ Matrice.get R 0 2 = Ok (suppress ((b * f - c * e) / det))
          /\ Matrice.get R 1 0 = Ok (suppress (- (d * i - f * g) / det))
          /\ Matrice.get R 1 1 = Ok (suppress ((a * i - c * g) / det))
          /\ Matrice.get R 1 2 = Ok (suppress (- (a * f - c * d) / det))
          /\ Matrice.get R 2 0 = Ok (suppress ((d * h - e * g) / det))
          /\ Matrice.get R 2 1 = Ok (suppress (- (a * h - b * g) / det))
          /\ Matrice.get R 2 2 = Ok (suppress ((a * e - b * d) / det))
          /\ wf R = true
          /\ triples (rowList R)
             = kept [ (0, 0, ((e * i - f * h) / det)%float);
                      (0, 1, (- (b * i - c * h) / det)%float);
                      (0, 2, ((b * f - c * e) / det)%float);
                      (1, 0, (- (d * i - f * g) / det)%float);
                      (1, 1, ((a * i - c * g) / det)%float);
                      (1, 2, (- (a * f - c * d) / det)%float);
                      (2, 0, ((d * h - e * g) / det)%float);
                      (2, 1, (- (a * h - b * g) / det)%float);
                      (2, 2, ((a * e - b * d) / det)%float) ]).
Proof. apply (inverse_order3 M3); reflexivity. Defined.

(** ** Copies *)

(** X20.  The copy constructor returns a matrix equal to its source, and
    [operator=] between two different objects leaves the target equal to
    the source (dimensions, rows and elements, in order) and every other
    object, the source included, as it was. *)
Theorem copies_are_equal (a b : nat) (h : heap) :
  a <> b ->
  Matrice.copy (h b) = h b
  /\ Matrice.operator_assign a b h a = h b
  /\ forall x, x <> a -> Matrice.operator_assign a b h x = h x.
Proof.
  intros Hab. split.
  - unfold Matrice.copy. rewrite copy_rows_same. now destruct (h b).
  - now apply assign_copies.
Qed.

Lemma copies_are_equal_witness :
  Matrice.copy (heap12 1%nat) = heap12 1%nat
  /\ Matrice.operator_assign 0 1 heap12 0%nat = heap12 1%nat
  /\ forall x, x <> 0%nat -> Matrice.operator_assign 0 1 heap12 x = heap12 x.
Proof. apply (copies_are_equal 0 1 heap12). intros H. discriminate H. Defined.

(** ** The private helpers *)

Lemma filter_nonempty_same (l : list RowNode) :
  forallb nonempty l = true -> filter nonempty l = l.
Proof.
  induction l as [| x tl IH]; simpl; [reflexivity |].
  intros H. apply andb_true_iff in H as [H1 H2]. now rewrite H1, IH.
Qed.

(** X21.  [cleanupEmptyRows] removes the stored rows that have no element
    and nothing else: the other rows stay, in their order, so the stored
    elements and the dimensions are as before, no row is empty afterwards,
    and a matrix without empty rows is left as it is. *)
Theorem cleanupEmptyRows_spec (m : SparseMatrix) :
  let m' := Matrice.cleanupEmptyRows m in
  rowList m' = filter nonempty (rowList m)
  /\ no_empty_row m' = true
  /\ triples (rowList m') = triples (rowList m)
  /\ rows m' = rows m /\ cols m' = cols m
  /\ (no_empty_row m = true -> m' = m).
Proof.
  intros m'. unfold m'. rewrite cleanupEmptyRows_eq. simpl.
  split; [reflexivity |]. split.
  - unfold no_empty_row. simpl. fold nonempty. apply forallb_Forall.
    apply Forall_forall. intros x Hx. now apply filter_In in Hx.
  - split; [apply triples_filter_nonempty |]. repeat split.
    intros Hne. unfold no_empty_row in Hne. fold nonempty in Hne.
    rewrite filter_nonempty_same by exact Hne. apply set_rowList_same.
Qed.






(** X23.  On a row whose columns are ascending, [removeFromRow] takes out
    the element of column c and nothing else: the other columns read as
    before, the columns stay ascending, the row index is kept, and a row
    that has no element of column c is left as it is.  A null row pointer
    is accepted and nothing happens. *)
Theorem removeFromRow_spec (rn : RowNode) (c : Z) :
  ascending (map col (elements rn)) = true ->
  Matrice.removeFromRow None c = None
  /\ exists rn',
       Matrice.removeFromRow (Some rn) c = Some rn'
       /\ row rn' = row rn
       /\ ascending (map col (elements rn')) = true
       /\ (forall c', lookup_elem c' (elements rn')
                      = if c' =? c then None
                        else lookup_elem c' (elements rn))
       /\ (lookup_elem c (elements rn) = None -> rn' = rn).
Proof.
  intros Hasc. split; [reflexivity |].
  rewrite removeFromRow_eq. eexists. split; [reflexivity |]. simpl.
  split; [reflexivity |]. split; [now apply del_elem_ascending |]. split.
  - intros c'. now apply lookup_del_elem.
  - intros Hl. rewrite del_elem_absent by assumption. now destruct rn.
Qed.

Lemma removeFromRow_spec_witness :
  Matrice.removeFromRow None 2 = None
  /\ exists rn',
       Matrice.removeFromRow
         (Some {| row := 0;
                  elements := [ {| col := 0; value := 1 |};
                                {| col := 2; value := 2 |} ] |}) 2
       = Some rn'
       /\ row rn' = 0
       /\ ascending (map col (elements rn')) = true
       /\ (forall c', lookup_elem c' (elements rn')
                      = if c' =? 2 then None
                        else lookup_elem c'
                               [ {| col := 0; value := 1 |};
                                 {| col := 2; value := 2 |} ])
       /\ (lookup_elem 2 [ {| col := 0; value := 1 |};
                           {| col := 2; value := 2 |} ] = None ->
           rn' = {| row := 0;
                    elements := [ {| col := 0; value := 1 |};
                                  {| col := 2; value := 2 |} ] |}).
Proof.
  apply (removeFromRow_spec
           {| row := 0;
              elements := [ {| col := 0; value := 1 |};
                            {| col := 2; value := 2 |} ] |} 2).
  reflexivity.
Defined.

(** X24.  [insertIntoRow] checks the column before anything else: for a
    column out of range it throws, whatever the value and the row pointer
    are.  With the column in range, a value below the threshold makes it
    [removeFromRow]; any other value is held by column c of the row
    afterwards, while the other columns read as before, the row index is
    kept and ascending columns stay ascending. *)
Theorem insertIntoRow_spec (cls : Z) (rn : RowNode) (c : Z) (v : float) :
  (~ 0 <= c < cls ->
   forall rowNode,
     Matrice.insertIntoRow cls rowNode c v
     = Throw (out_of_range "Column index out of range"))
  /\ (0 <= c < cls -> is_zero v = true ->
      forall rowNode,
        Matrice.insertIntoRow cls rowNode c v
        = Ok (Matrice.removeFromRow rowNode c))
  /\ (0 <= c < cls -> is_zero v = false ->
      exists rn',
        Matrice.insertIntoRow cls (Some rn) c v = Ok (Some rn')
        /\ row rn' = row rn
        /\ (forall c', lookup_elem c' (elements rn')
                       = if c' =? c then Some v
                         else lookup_elem c' (elements rn))
        /\ (ascending (map col (elements rn)) = true ->
            ascending (map col (elements rn')) = true)).
Proof.
  repeat split.
  - intros Hc rowNode. unfold Matrice.insertIntoRow.
    destruct ((c <? 0) || (c >=? cls)) eqn:E; [reflexivity |].
    apply in_range_iff in E. contradiction.
  - intros Hc Hv rowNode. unfold Matrice.insertIntoRow.
    apply in_range_iff in Hc. now rewrite Hc, Hv.
  - intros Hc Hv. rewrite insertIntoRow_eq by exact Hv.
    apply in_range_iff in Hc. rewrite Hc.
    eexists. split; [reflexivity |]. simpl. split; [reflexivity |]. split.
    + intros c'. apply lookup_ins_elem.
    + apply ins_elem_ascending.
Qed.

Lemma insertIntoRow_spec_witness :
  exists rn',
    Matrice.insertIntoRow 3
      (Some {| row := 0; elements := [ {| col := 0; value := 1 |};
                                       {| col := 2; value := 2 |} ] |})
      1 5%float = Ok (Some rn')
    /\ row rn' = 0
    /\ (forall c', lookup_elem c' (elements rn')
                   = if c' =? 1 then Some 5%float
                     else lookup_elem c' [ {| col := 0; value := 1 |};
                                           {| col := 2; value := 2 |} ])
    /\ (ascending (map col [ {| col := 0; value := 1 |};
                             {| col := 2; value := 2 |} ]) = true ->
        ascending (map col (elements rn')) = true).
Proof.
  apply (proj2 (proj2 (insertIntoRow_spec 3
                         {| row := 0;
                            elements := [ {| col := 0; value := 1 |};
                                          {| col := 2; value := 2 |} ] |}
                         1 5%float))); [lia | reflexivity].
Defined.

(** ** How the operations compose *)

(** X25.  [transpose] distributes over [add]: for well-formed matrices of
    identical dimensions, transposing the sum and adding the transposes
    return the same matrix, row by row and element by element. *)
Theorem transpose_add (A B : SparseMatrix) :
  wf A = true -> wf B = true -> rows A = rows B -> cols A = cols B ->
  exists S TA TB R,
    Matrice.add A B = Ok S
    /\ Matrice.transpose A = Ok TA /\ Matrice.transpose B = Ok TB
    /\ Matrice.transpose S = Ok R
    /\ Matrice.add TA TB = Ok R.
Proof.
  intros HA HB Hr Hc.
  destruct (add_cells A B HA HB Hr Hc) as (S & HS & HwfS & HrS & HcS & HcellS).
  destruct (transpose_cells A HA) as (TA & HTA & HwfTA & HrTA & HcTA & HcellTA).
  destruct (transpose_cells B HB) as (TB & HTB & HwfTB & HrTB & HcTB & HcellTB).
  destruct (transpose_cells S HwfS) as (R & HR & HwfR & HrR & HcR & HcellR).
  destruct (add_cells TA TB HwfTA HwfTB) as (R' & HR' & HwfR' & HrR' & HcR'
                                             & HcellR'); [congruence .. |].
  exists S, TA, TB, R. repeat split; try assumption.
  rewrite HR'. f_equal. apply wf_ext; try assumption; try congruence.
  - eapply add_no_empty; exact HR'.
  - eapply transpose_no_empty; exact HR.
  - intros r c. now rewrite HcellR', HcellR, HcellS, HcellTA, HcellTB.
Qed.

Lemma transpose_add_witness :
  exists S TA TB R,
    Matrice.add M1 M2 = Ok S
    /\ Matrice.transpose M1 = Ok TA /\ Matrice.transpose M2 = Ok TB
    /\ Matrice.transpose S = Ok R
    /\ Matrice.add TA TB = Ok R.
Proof. apply (transpose_add M1 M2); reflexivity. Defined.

(** ** [readMatrix] *)

(** The inner loop of [readMatrix] takes the next [fuel] doubles of the
    input for the columns from [j0] on. *)
Lemma read_row (i : Z) (fuel : nat) :
  forall j0 m l,
    (fuel <= List.length l)%nat ->
    for_j fuel j0 (read_element i) (m, l)
    = (m' <- for_j fuel j0
               (fun j m =>
                  if is_nonzero (nth (Z.to_nat (j - j0)) l 0%float)
                  then Matrice.insert_into m i j
                         (nth (Z.to_nat (j - j0)) l 0%float)
                  else Ok m) m ;;
       Ok (m', skipn fuel l)).
Proof.
  induction fuel as [| n IH]; intros j0 m l Hlen; [reflexivity |].
  destruct l as [| v rest]; [simpl in Hlen; lia |].
  simpl in Hlen. cbn [for_j]. unfold read_element at 1. cbn [snd fst].
  rewrite Z.sub_diag. change (Z.to_nat 0) with 0%nat.
  change (nth 0 (v :: rest) 0%float) with v. rewrite skipn_cons.
  assert (Hext : forall m1,
             for_j n (j0 + 1)
               (fun j m =>
                  if is_nonzero (nth (Z.to_nat (j - j0)) (v :: rest) 0%float)
                  then Matrice.insert_into m i j
                         (nth (Z.to_nat (j - j0)) (v :: rest) 0%float)
                  else Ok m) m1
             = for_j n (j0 + 1)
                 (fun j m =>
                    if is_nonzero (nth (Z.to_nat (j - (j0 + 1))) rest 0%float)
                    then Matrice.insert_into m i j
                           (nth (Z.to_nat (j - (j0 + 1))) rest 0%float)
                    else Ok m) m1).
  { intros m1. apply for_j_ext. intros j s Hj.
    replace (Z.to_nat (j - j0)) with (S (Z.to_nat (j - (j0 + 1)))) by lia.
    reflexivity. }
  destruct (is_nonzero v).
  - destruct (Matrice.insert_into m i j0 v) as [m1 | |]; cbn [bind];
      try reflexivity.
    rewrite IH, Hext by lia. reflexivity.
  - cbn [bind fst]. rewrite IH, Hext by lia. reflexivity.
Qed.

Lemma read_rows (R C : Z) (fuel : nat) :
  0 < C ->
  forall i0 m l,
    wf m = true -> rows m = R -> cols m = C ->
    0 <= i0 -> i0 + Z.of_nat fuel <= R ->
    Z.of_nat fuel * C <= Z.of_nat (List.length l) ->
    exists m' l',
      for_j fuel i0
        (fun i st => for_j (Z.to_nat C) 0 (read_element i) st) (m, l)
      = Ok (m', l')
      /\ wf m' = true /\ rows m' = R /\ cols m' = C
      /\ forall r c,
           cell m' r c
           = if (i0 <=? r) && (r <? i0 + Z.of_nat fuel)
                && (0 <=? c) && (c <? C)
                && is_nonzero (nth (Z.to_nat ((r - i0) * C + c)) l 0%float)
             then Some (nth (Z.to_nat ((r - i0) * C + c)) l 0%float)
             else cell m r c.
Proof.
  intros HC. induction fuel as [| n IH]; intros i0 m l Hwf Hr Hc Hi0 Hn Hlen.
  - exists m, l. simpl for_j. repeat split; try assumption. intros r c.
    destruct (Z.leb_spec i0 r), (Z.ltb_spec r (i0 + Z.of_nat 0)); cbn [andb];
      try reflexivity; lia.
  - simpl for_j. rewrite read_row by nia.
    destruct (for_j_row_cells i0
                (fun j => nth (Z.to_nat (j - 0)) l 0%float)
                (Z.to_nat C) 0 m)
      as (m1 & H1 & Hwf1 & Hr1 & Hc1 & Hcell1); [exact Hwf | lia | lia | lia |].
    rewrite H1. cbn [bind].
    destruct (IH (i0 + 1) m1 (skipn (Z.to_nat C) l))
      as (m' & l' & H' & Hwf' & Hr' & Hc' & Hcell');
      [exact Hwf1 | congruence | congruence | lia | lia
      | rewrite length_skipn; nia |].
    exists m', l'. repeat split; try assumption.
    intros r c. rewrite Hcell', Hcell1, nth_skipn.
    replace (i0 + Z.of_nat (S n)) with (i0 + 1 + Z.of_nat n) by lia.
    rewrite Z2Nat.id, Z.add_0_l by lia.
    destruct (Z.leb_spec (i0 + 1) r), (Z.leb_spec i0 r),
             (Z.ltb_spec r (i0 + 1 + Z.of_nat n)), (Z.eqb_spec r i0),
             (Z.leb_spec 0 c), (Z.ltb_spec c C);
      cbn [andb]; try reflexivity; try lia.
    + replace (Z.to_nat C + Z.to_nat ((r - (i0 + 1)) * C + c))%nat
        with (Z.to_nat ((r - i0) * C + c)) by nia.
      now destruct (is_nonzero _).
    + subst r. replace ((i0 - i0) * C + c) with (c - 0) by lia.
      now destruct (is_nonzero _).
Qed.

Lemma read_element_no_empty (i j : Z) (st st' : SparseMatrix * list float) :
  read_element i j st = Ok st' ->
  no_empty_row (fst st) = true -> no_empty_row (fst st') = true.
Proof.
  unfold read_element. destruct (snd st) as [| v rest]; [discriminate |].
  destruct (is_nonzero v).
  - destruct (Matrice.insert_into (fst st) i j v) as [m1 | |] eqn:E; simpl;
      [| discriminate ..].
    intros [= <-] Hne. simpl. eapply insert_into_no_empty; eassumption.
  - now intros [= <-].
Qed.

(** X26.  [readMatrix] throws when one of the two dimensions read is not
    positive.  Otherwise, when at least rows x cols doubles follow, it
    returns a well-formed matrix of these dimensions without empty rows in
    which cell (i, j) holds the double number [i * cols + j] of the input,
    read back by [get] as it was typed when its magnitude is at least
    [1e-10] and as [0.0] otherwise (so a NaN is not stored). *)
Theorem readMatrix_get (R C : Z) (input : list float) :
  (R <= 0 \/ C <= 0 ->
   readMatrix R C input
   = Throw (invalid_argument "Dimensions must be positive"))
  /\ (0 < R -> 0 < C -> R * C <= Z.of_nat (List.length input) ->
      exists m,
        readMatrix R C input = Ok m
        /\ wf m = true /\ no_empty_row m = true
        /\ rows m = R /\ cols m = C
        /\ forall i j, 0 <= i < R -> 0 <= j < C ->
             Matrice.get m i j
             = Ok (let v := nth (Z.to_nat (i * C + j)) input 0%float in
                   if is_nonzero v then v else 0%float)).
Proof.
  unfold readMatrix. split.
  - intros H.
    destruct (Z.leb_spec R 0), (Z.leb_spec C 0); simpl; try reflexivity; lia.
  - intros HR HC Hlen.
    destruct (Z.leb_spec R 0), (Z.leb_spec C 0); try lia. simpl.
    rewrite construct_ok by assumption. cbn [bind].
    destruct (read_rows R C (Z.to_nat R) HC 0
                {| rows := R; cols := C; rowList := [] |} input)
      as (m & l' & Hf & Hwf & Hr & Hc & Hcell);
      [now apply empty_wf | reflexivity | reflexivity | lia | lia | lia |].
    rewrite Hf. cbn [bind fst]. exists m.
    split; [reflexivity |]. split; [exact Hwf |]. split.
    + refine (for_j_pres (fun st => no_empty_row (fst st) = true) _ _ _ _ _ _
                Hf eq_refl).
      intros i s s' Hs Hne.
      refine (for_j_pres (fun st => no_empty_row (fst st) = true) _ _ _ _ _ _
                Hs Hne).
      intros j t t'. apply read_element_no_empty.
    + split; [exact Hr |]. split; [exact Hc |].
      intros i j Hi Hj. rewrite get_cell, Hcell by lia. f_equal.
      rewrite Z2Nat.id, Z.sub_0_r by lia. cbv zeta.
      destruct (Z.leb_spec 0 i), (Z.ltb_spec i (0 + R)), (Z.leb_spec 0 j),
               (Z.ltb_spec j C); try lia. cbn [andb].
      now destruct (is_nonzero _).
Qed.

Lemma readMatrix_get_witness :
  exists m,
    readMatrix 2 2 [1%float; 0%float; 3%float; 4%float] = Ok m
    /\ wf m = true /\ no_empty_row m = true
    /\ rows m = 2 /\ cols m = 2
    /\ forall i j, 0 <= i < 2 -> 0 <= j < 2 ->
         Matrice.get m i j
         = Ok (let v := nth (Z.to_nat (i * 2 + j))
                          [1%float; 0%float; 3%float; 4%float] 0%float in
               if is_nonzero v then v else 0%float).
Proof.
  apply (proj2 (readMatrix_get 2 2 [1%float; 0%float; 3%float; 4%float]));
    [lia | lia | simpl; lia].
Defined.

(** ** The outcome of [insert] *)

(** X27.  The outcome of [insert], for every matrix and all arguments: it
    throws for a row out of range; otherwise a value below the threshold
    returns normally, whatever the column is; otherwise it throws for a
    column out of range and returns normally for a column in range.  It
    never dereferences a null row pointer. *)
Theorem insert_outcome (m : SparseMatrix) (r c : Z) (v : float) :
  fst (Matrice.insert m r c v)
  = if (r <? 0) || (r >=? rows m)
    then Throw (out_of_range "Row index out of range")
    else if is_zero v then Ok tt
         else if (c <? 0) || (c >=? cols m)
              then Throw (out_of_range "Column index out of range")
              else Ok tt.
Proof.
  destruct ((r <? 0) || (r >=? rows m)) eqn:Hr.
  - now rewrite insert_row_range by exact Hr.
  - destruct (is_zero v) eqn:Hv.
    + now rewrite insert_zero by assumption.
    + rewrite insert_nonzero by assumption.
      now destruct ((c <? 0) || (c >=? cols m)).
Qed.
